(** * regexp2: the public facade of the backtracking regular-expression engine

    A shallow embedding of [regexp.go] (package [regexp2]).  Go strings are
    byte sequences and are modelled by [string]; a Go [int] is a [Z] (with
    the 64-bit wrap-around written out where the code multiplies and adds);
    a [[]rune] is a [list Z]; a Go map that may be [nil] is an [option] of a
    [gmap]; a pointer that may be [nil] is an [option]; a pair
    [(value, error)] is a pair whose second component is an [option error].

    Part I holds the definitions, Part II the lemmas and theorems. *)

From Stdlib Require Import ZArith List Ascii String Lia Bool.
From stdpp Require Import gmap strings.

Local Open Scope string_scope.
Local Open Scope list_scope.
Local Open Scope Z_scope.

(** * Part I: definitions *)

(** ** Bytes, strings and machine integers *)

(** [s[i]] seen as a number: a Go [byte] is an unsigned 8-bit integer. *)
Definition byteZ (c : ascii) : Z := Z.of_N (N_of_ascii c).

(** The bytes of a Go string, as numbers. *)
Definition bytes (s : string) : list Z := map byteZ (list_ascii_of_string s).

(** [len(s)]: the number of bytes of a Go string. *)
Definition len (s : string) : Z := Z.of_nat (String.length s).

(** [len(r)] for a slice of runes. *)
Definition lenR (r : list Z) : Z := Z.of_nat (List.length r).

(** [int] arithmetic of a 64-bit Go target: the result of [+] and [*]
    is reduced to the signed 64-bit range. *)
Definition wrap64 (x : Z) : Z := (x + 2 ^ 63) mod 2 ^ 64 - 2 ^ 63.

Definition int_range (x : Z) : Prop := - 2 ^ 63 <= x < 2 ^ 63.

(** Results of code that may panic (a slice expression out of range) or
    loop without end: a loop of the source whose number of iterations is not
    bounded by its own condition is given a fuel argument, and [OutOfFuel]
    says the fuel did not suffice. *)
Inductive outcome (A : Type) : Type :=
| Done (a : A)
| Panic
| OutOfFuel.
Arguments Done {A} a.
Arguments Panic {A}.
Arguments OutOfFuel {A}.

Definition bind {A B : Type} (x : outcome A) (f : A -> outcome B) : outcome B :=
  match x with
  | Done a => f a
  | Panic => Panic
  | OutOfFuel => OutOfFuel
  end.

Notation "'let*' x := c1 'in' c2" := (bind c1 (fun x => c2))
  (at level 10, x name, c1 at level 100, c2 at level 200).

(** The slice expression [s[i:j]] of a string: it panics unless
    [0 <= i <= j <= len(s)]. *)
Definition slice (s : string) (i j : Z) : outcome string :=
  if (0 <=? i) && (i <=? j) && (j <=? len s)
  then Done (substring (Z.to_nat i) (Z.to_nat (j - i)) s)
  else Panic.

(** ** UTF-8, as the Go language and [unicode/utf8] define it *)

Definition RuneError : Z := 65533.
Definition RuneSelf : Z := 128.

(** A continuation byte, [0x80 <= b <= 0xBF]. *)
Definition isCont (b : Z) : bool := (128 <=? b) && (b <=? 191).

(** The range accepted for the second byte after the first byte [s0]. *)
Definition acceptLo (s0 : Z) : Z :=
  if s0 =? 224 then 160 else if s0 =? 240 then 144 else 128.
Definition acceptHi (s0 : Z) : Z :=
  if s0 =? 237 then 159 else if s0 =? 244 then 143 else 191.

(** [utf8.DecodeRuneInString] on the bytes of the string: the scalar and
    its width in bytes; [(RuneError, 0)] on the empty string and
    [(RuneError, 1)] on an invalid or truncated encoding. *)
Definition DecodeRune (bs : list Z) : Z * Z :=
  match bs with
  | [] => (RuneError, 0)
  | s0 :: t =>
      if s0 <? RuneSelf then (s0, 1)
      else if (s0 <? 194) || (244 <? s0) then (RuneError, 1)
      else if s0 <? 224 then
        match t with
        | s1 :: _ =>
            if isCont s1
            then (Z.lor (Z.shiftl (Z.land s0 31) 6) (Z.land s1 63), 2)
            else (RuneError, 1)
        | _ => (RuneError, 1)
        end
      else if s0 <? 240 then
        match t with
        | s1 :: s2 :: _ =>
            if (acceptLo s0 <=? s1) && (s1 <=? acceptHi s0) && isCont s2
            then (Z.lor (Z.shiftl (Z.land s0 15) 12)
                    (Z.lor (Z.shiftl (Z.land s1 63) 6) (Z.land s2 63)), 3)
            else (RuneError, 1)
        | _ => (RuneError, 1)
        end
      else
        match t with
        | s1 :: s2 :: s3 :: _ =>
            if (acceptLo s0 <=? s1) && (s1 <=? acceptHi s0)
               && isCont s2 && isCont s3
            then (Z.lor (Z.shiftl (Z.land s0 7) 18)
                    (Z.lor (Z.shiftl (Z.land s1 63) 12)
                       (Z.lor (Z.shiftl (Z.land s2 63) 6) (Z.land s3 63))), 4)
            else (RuneError, 1)
        | _ => (RuneError, 1)
        end
  end.

Arguments DecodeRune : simpl never.

Definition DecodeRuneInString (s : string) : Z * Z := DecodeRune (bytes s).

(** [for strIdx, r := range s]: the pairs (byte index, scalar) the loop
    goes through.  [skip] counts the bytes still to pass over of the scalar
    decoded last, so that the recursion follows the bytes one by one. *)
Fixpoint rangeFrom (bs : list Z) (idx : Z) (skip : nat) : list (Z * Z) :=
  match bs with
  | [] => []
  | _ :: t =>
      match skip with
      | S k => rangeFrom t (idx + 1) k
      | O =>
          (idx, fst (DecodeRune bs))
            :: rangeFrom t (idx + 1) (Z.to_nat (snd (DecodeRune bs) - 1))
      end
  end.

Definition rangeString (s : string) : list (Z * Z) := rangeFrom (bytes s) 0 0%nat.

(** The byte offsets at which a scalar of [s] starts. *)
Definition runeStarts (s : string) : list Z := map fst (rangeString s).

(** One byte of an encoding. *)
Definition byteA (b : Z) : ascii := ascii_of_N (Z.to_N b).

(** [utf8.AppendRune], which the conversion [string(runes)] applies to
    every scalar: surrogates and values outside the Unicode range are
    written as U+FFFD. *)
Definition EncodeRune (r : Z) : string :=
  if (0 <=? r) && (r <? 128) then String (byteA r) ""
  else if (0 <=? r) && (r <? 2048) then
    String (byteA (Z.lor 192 (Z.shiftr r 6)))
      (String (byteA (Z.lor 128 (Z.land r 63))) "")
  else if (r <? 0) || (1114111 <? r) || ((55296 <=? r) && (r <=? 57343)) then
    String (byteA 239) (String (byteA 191) (String (byteA 189) ""))
  else if r <? 65536 then
    String (byteA (Z.lor 224 (Z.shiftr r 12)))
      (String (byteA (Z.lor 128 (Z.land (Z.shiftr r 6) 63)))
         (String (byteA (Z.lor 128 (Z.land r 63))) ""))
  else
    String (byteA (Z.lor 240 (Z.shiftr r 18)))
      (String (byteA (Z.lor 128 (Z.land (Z.shiftr r 12) 63)))
         (String (byteA (Z.lor 128 (Z.land (Z.shiftr r 6) 63)))
            (String (byteA (Z.lor 128 (Z.land r 63))) ""))).

(** The conversion [string(runes)]. *)
Definition stringOfRunes (r : list Z) : string :=
  fold_right (fun c acc => EncodeRune c +:+ acc) "" r.

(** [utf8.ValidRune]: a scalar that has an encoding of its own, inside the
    Unicode range and not a surrogate. *)
Definition ValidRune (r : Z) : bool :=
  ((0 <=? r) && (r <? 55296)) || ((57343 <? r) && (r <=? 1114111)).

(** ** QuoteMeta *)

Section Quote.

(** [var specialBytes [16]byte], the bitmap read by [special]. *)
Variable specialBytes : list Z.

(** [func special(b byte) bool]:
    [return b < utf8.RuneSelf && specialBytes[b%16]&(1<<(b/16)) != 0].
    The shift is a [byte] shift, hence the reduction modulo 256. *)
Definition special (b : ascii) : bool :=
  (byteZ b <? RuneSelf) &&
  negb (Z.land (nth (Z.to_nat (byteZ b mod 16)) specialBytes 0)
               (Z.shiftl 1 (byteZ b / 16) mod 256) =? 0).

(** The first loop of [QuoteMeta]: the index of the first special byte,
    or [len(s)] when there is none. *)
Fixpoint firstSpecial (s : string) : nat :=
  match s with
  | EmptyString => 0%nat
  | String c s' => if special c then 0%nat else S (firstSpecial s')
  end.

(** The second loop of [QuoteMeta], from index [i] on: every special byte
    is written after a backslash, every other byte as it is. *)
Fixpoint quoteFrom (s : string) : string :=
  match s with
  | EmptyString => EmptyString
  | String c s' =>
      if special c then String "\" (String c (quoteFrom s'))
      else String c (quoteFrom s')
  end.

(** [func QuoteMeta(s string) string] *)
Definition QuoteMeta (s : string) : string :=
  let i := firstSpecial s in
  if (String.length s <=? i)%nat then s
  else substring 0 i s +:+ quoteFrom (substring i (String.length s - i) s).

End Quote.

(** [var specialBytes [16]byte] is declared without an initializer and no
    statement of the file assigns to it: it holds the zero value of its
    type, sixteen zero bytes. *)
Definition specialBytes : list Z := repeat 0 16.

(** The bitmap that the loop
    [for _, b := range []byte(`\.+*?()|[]{}^$`) { specialBytes[b%16] |= 1 << (b / 16) }]
    of Go's own [regexp] package builds, from which [special] and
    [QuoteMeta] were ported; the port has no such loop. *)
Definition markSpecial (tbl : list Z) (b : ascii) : list Z :=
  let i := Z.to_nat (byteZ b mod 16) in
  <[ i := Z.lor (nth i tbl 0) (Z.shiftl 1 (byteZ b / 16) mod 256) ]> tbl.

Definition goSpecialBytes : list Z :=
  fold_left markSpecial (list_ascii_of_string "\.+*?()|[]{}^$") (repeat 0 16).

(** ** The compiled expression and its matches *)

(** [type RegexOptions int32] and the option bits the facade reads. *)
Definition RegexOptions := Z.
Definition None_ : RegexOptions := 0.
Definition IgnoreCase : RegexOptions := 1.
Definition Multiline : RegexOptions := 2.
Definition ExplicitCapture : RegexOptions := 4.
Definition Compiled : RegexOptions := 8.
Definition Singleline : RegexOptions := 16.
Definition IgnorePatternWhitespace : RegexOptions := 32.
Definition RightToLeft_ : RegexOptions := 64.
Definition Debug_ : RegexOptions := 128.
Definition ECMAScript : RegexOptions := 256.
Definition RE2 : RegexOptions := 512.

(** Errors: the ones the facade builds with [errors.New], and the timeout
    that the runner reports. *)
Inductive error : Type :=
| errors_New (msg : string)
| ErrTimeout.

(** Modelled from the spec: the types [Group] and [Match] are declared
    outside regexp.go.  The facade reads [Index] and [Length] of a group,
    [m.text], [m.textpos], the embedded whole-match group [m.Group] (whose
    fields are promoted: [m.Length]) and [m.Groups()]; the spec's Match
    Result is "for each group slot, the list of capture spans ...; plus
    references to the original input.  Group 0's single span is the overall
    match", with spans in scalars. *)
Record Group : Type := mkGroup { Index : Z; Length : Z }.

Record Match : Type := mkMatch {
  text : list Z;            (* the input, in scalars *)
  textpos : Z;              (* the cursor when the match was accepted *)
  group : Group;            (* the embedded [Group]: slot 0, the whole match *)
  otherGroups : list Group  (* slots 1 .. capsize-1 *)
}.

(** [m.Groups()]: slot 0 first, then the other slots. *)
Definition Groups (m : Match) : list Group := group m :: otherGroups m.

(** Modelled from the spec: one attempt of the backtracking VM at a pinned
    start position.  "Given a compiled program, input, and start position,
    the VM returns either a successful capture state or failure"; "if
    [the deadline is] exceeded, the current attempt aborts with a timeout
    error".  On success the result carries the final cursor and the spans
    of the slots other than 0. *)
Inductive vm_result : Type :=
| VMFail
| VMTimeout
| VMMatch (endPos : Z) (caps : list Group).

(** Modelled from the spec: the compiled program ([*syntax.Code]) is
    produced and executed outside regexp.go; it is represented by what the
    VM does with it on an input at a start position. *)
Definition Code : Type := list Z -> Z -> vm_result.

(** [type Regexp struct]; the mutex and the cache of runners are left out. *)
Record Regexp : Type := mkRegexp {
  MatchTimeout : Z;
  pattern : string;
  options : RegexOptions;
  caps : option (gmap Z Z);          (* capnum -> index *)
  capnames : option (gmap string Z); (* capture group name -> index *)
  capslist : option (list string);   (* sorted list of capture group names *)
  capsize : Z;                       (* size of the capture array *)
  code : Code                        (* compiled program *)
}.

(** [func (re *Regexp) String() string] *)
Definition String_ (re : Regexp) : string := pattern re.

(** [func (re *Regexp) RightToLeft() bool] *)
Definition RightToLeft (re : Regexp) : bool :=
  negb (Z.land (options re) RightToLeft_ =? 0).

(** [func (re *Regexp) Debug() bool] *)
Definition Debug (re : Regexp) : bool :=
  negb (Z.land (options re) Debug_ =? 0).

(** ** The runner *)

(** Modelled from the spec: the candidate start positions of the
    start-position scan, "left-to-right scanning by default, right-to-left
    if the program's rtl bit is set", from the given start to the end of the
    input (to its beginning, right to left).  A start outside the input has
    no candidate. *)
Definition candidates (rtl : bool) (start n : Z) : list Z :=
  if (start <? 0) || (n <? start) then []
  else if rtl then map (fun i => start - Z.of_nat i) (seq 0 (Z.to_nat (start + 1)))
  else map (fun i => start + Z.of_nat i) (seq 0 (Z.to_nat (n - start + 1))).

(** Modelled from the spec: the Match Result built from a successful
    attempt.  "On success, group 0 spans [startPos, endPos]"; the cursor
    ends left of the start when the program runs right to left.  A quick
    run (the [MatchString] family) only needs to know whether there is a
    match, and records no other group. *)
Definition tidyMatch (quick : bool) (input : list Z) (startPos endPos : Z)
    (cs : list Group) : Match :=
  {| text := input;
     textpos := endPos;
     group := {| Index := Z.min startPos endPos;
                 Length := Z.abs (endPos - startPos) |};
     otherGroups := if quick then [] else cs |}.

(** Modelled from the spec: the start-position scan, "the VM iterates
    candidate start positions"; the first successful attempt is the match,
    a timeout aborts the scan, and when no candidate is left the result is
    "No match - not an error; represented as a nil/absent Match result". *)
Fixpoint scan (vm : Code) (input : list Z) (quick : bool) (cands : list Z)
  : option Match * option error :=
  match cands with
  | [] => (None, None)
  | p :: rest =>
      match vm input p with
      | VMMatch e cs => (Some (tidyMatch quick input p e cs), None)
      | VMTimeout => (None, Some ErrTimeout)
      | VMFail => scan vm input quick rest
      end
  end.

(** Modelled from the spec: [func (re *Regexp) run(quick bool, textstart
    int, input []rune)], which returns a [*Match] and an [error], is defined
    outside regexp.go.
    "Find one - run the VM from a given start; return a Match or nil."  A
    negative start is the facade's way to ask for the default one
    ([FindStringMatch] passes -1, [getRunesAndStart] maps a negative start
    to 0, or to the end of the input right to left). *)
Definition run (re : Regexp) (quick : bool) (textstart : Z) (input : list Z)
  : option Match * option error :=
  let textstart :=
    if textstart <? 0
    then (if RightToLeft re then lenR input else 0)
    else textstart in
  scan (code re) input quick
       (candidates (RightToLeft re) textstart (lenR input)).

(** ** Finding matches *)

(** [func getRunes(s string) []rune]: the scalars of [s], one per
    iteration of [range s]. *)
Definition getRunes (s : string) : list Z := map snd (rangeString s).

(** The body of the loop of [getRunesAndStart] on the state
    [(i, runeIdx, ret)]:
    [if strIdx == startAt { runeIdx = i }; ret[i] = r; i++]. *)
Definition runesAndStart_step (startAt : Z) (st : Z * Z * list Z) (p : Z * Z)
  : Z * Z * list Z :=
  let '(i, runeIdx, ret) := st in
  (i + 1, (if fst p =? startAt then i else runeIdx), ret ++ [snd p]).

(** [func (re *Regexp) getRunesAndStart(s string, startAt int) ([]rune, int)] *)
Definition getRunesAndStart (re : Regexp) (s : string) (startAt : Z)
  : list Z * Z :=
  if startAt <? 0 then
    if RightToLeft re
    then (let r := getRunes s in (r, lenR r))
    else (getRunes s, 0)
  else
    let '(_, runeIdx, ret) :=
      fold_left (runesAndStart_step startAt) (rangeString s) (0, -1, []) in
    (ret, runeIdx).

(** [func (re *Regexp) FindStringMatch(s string) ] *)
Definition FindStringMatch (re : Regexp) (s : string)
  : option Match * option error :=
  run re false (-1) (getRunes s).

(** [func (re *Regexp) FindRunesMatch(r []rune) ] *)
Definition FindRunesMatch (re : Regexp) (r : list Z)
  : option Match * option error :=
  run re false (-1) r.

(** [func (re *Regexp) FindStringMatchStartingAt(s string, startAt int) ] *)
Definition FindStringMatchStartingAt (re : Regexp) (s : string) (startAt : Z)
  : option Match * option error :=
  if len s <? startAt then
    (None, Some (errors_New
       "startAt must be less than the length of the input string"))
  else
    let '(r, startAt) := getRunesAndStart re s startAt in
    if startAt =? -1 then
      (None, Some (errors_New
         "startAt must align to the start of a valid rune in the input string"))
    else run re false startAt r.

(** [func (re *Regexp) FindRunesMatchStartingAt(r []rune, startAt int) ] *)
Definition FindRunesMatchStartingAt (re : Regexp) (r : list Z) (startAt : Z)
  : option Match * option error :=
  run re false startAt r.

(** [func (re *Regexp) FindNextMatch(m *Match) ] *)
Definition FindNextMatch (re : Regexp) (m : option Match)
  : option Match * option error :=
  match m with
  | None => (None, None)
  | Some m =>
      let startAt := textpos m in
      if Length (group m) =? 0 then
        if textpos m =? lenR (text m) then (None, None)
        else
          run re false
              (if RightToLeft re then startAt - 1 else startAt + 1) (text m)
      else run re false startAt (text m)
  end.

(** [func (re *Regexp) MatchString(s string) (bool, error)] *)
Definition MatchString (re : Regexp) (s : string) : bool * option error :=
  match run re true (-1) (getRunes s) with
  | (_, Some err) => (false, Some err)
  | (m, None) => (match m with Some _ => true | None => false end, None)
  end.

(** [func (re *Regexp) MatchRunes(r []rune) (bool, error)] *)
Definition MatchRunes (re : Regexp) (r : list Z) : bool * option error :=
  match run re true (-1) r with
  | (_, Some err) => (false, Some err)
  | (m, None) => (match m with Some _ => true | None => false end, None)
  end.

(** ** Group names and numbers *)

(** The digits of [n >= 0] in base 10, most significant first, in front of
    [acc]; [fuel] bounds the number of digits. *)
Fixpoint utoa (fuel : nat) (n : Z) (acc : string) : string :=
  match fuel with
  | O => acc
  | S f =>
      let acc' := String (byteA (48 + n mod 10)) acc in
      if n <? 10 then acc' else utoa f (n / 10) acc'
  end.

(** [strconv.Itoa]: the decimal representation of an [int]. *)
Definition Itoa (i : Z) : string :=
  if i <? 0
  then String "-" (utoa (S (Z.to_nat (Z.log2 (- i)))) (- i) "")
  else utoa (S (Z.to_nat (Z.log2 i))) i "".

(** [func (re *Regexp) GetGroupNames() []string] *)
Definition GetGroupNames (re : Regexp) : list string :=
  match capslist re with
  | None => map (fun i => Itoa (Z.of_nat i)) (seq 0 (Z.to_nat (capsize re)))
  | Some l => l
  end.

(** The assignment [result[v] = k] to an element of a slice: it panics
    unless [0 <= v < len(result)]. *)
Definition setIndex (result : list Z) (v k : Z) : outcome (list Z) :=
  if (0 <=? v) && (v <? lenR result)
  then Done (<[ Z.to_nat v := k ]> result)
  else Panic.

(** The loop [for k, v := range re.caps { result[v] = k }], over the
    entries of the map in the order [kvs] in which [range] yields them. *)
Fixpoint groupNumbersLoop (kvs : list (Z * Z)) (result : list Z)
  : outcome (list Z) :=
  match kvs with
  | [] => Done result
  | (k, v) :: rest =>
      let* result := setIndex result v k in
      groupNumbersLoop rest result
  end.

(** [func (re *Regexp) GetGroupNumbers() []int].  Go leaves open the order
    in which [range] goes through a map: [order] is that order, a
    permutation of the entries of [re.caps] (it is not read when [re.caps]
    is nil).  [make] panics on a negative length. *)
Definition GetGroupNumbers (re : Regexp) (order : list (Z * Z))
  : outcome (list Z) :=
  match caps re with
  | None =>
      if capsize re <? 0 then Panic
      else Done (map Z.of_nat (seq 0 (Z.to_nat (capsize re))))
  | Some c => groupNumbersLoop order (repeat 0 (size c))
  end.

(** [func (re *Regexp) GroupNameFromNumber(i int) string] *)
Definition GroupNameFromNumber (re : Regexp) (i : Z) : string :=
  match capslist re with
  | None => if (0 <=? i) && (i <? capsize re) then Itoa i else ""
  | Some l =>
      let oi :=
        match caps re with
        | Some c => c !! i
        | None => Some i
        end in
      match oi with
      | None => ""
      | Some i =>
          if (0 <=? i) && (i <? Z.of_nat (List.length l))
          then nth (Z.to_nat i) l ""
          else ""
      end
  end.

(** The loop of [GroupNumberFromName] over the bytes of the name: [None]
    when a byte is not a decimal digit (the function returns -1 at once),
    otherwise the value accumulated by [result *= 10; result += int(ch - '0')]
    in [int] arithmetic. *)
Fixpoint digitsLoop (result : Z) (name : string) : option Z :=
  match name with
  | EmptyString => Some result
  | String ch rest =>
      if (byteZ "9" <? byteZ ch) || (byteZ ch <? byteZ "0") then None
      else digitsLoop (wrap64 (wrap64 (result * 10) + (byteZ ch - byteZ "0")))
                      rest
  end.

(** [func (re *Regexp) GroupNumberFromName(name string) int] *)
Definition GroupNumberFromName (re : Regexp) (name : string) : Z :=
  match capnames re with
  | Some names =>
      match names !! name with
      | Some k => k
      | None => -1
      end
  | None =>
      match digitsLoop 0 name with
      | None => -1
      | Some result =>
          if (0 <=? result) && (result <? capsize re) then result else -1
      end
  end.

(** ** The All functions *)

(** The pair [[]int{g.Index, g.Index + g.Length}]. *)
Definition indexPair (g : Group) : list Z := [Index g; Index g + Length g].

(** The loop [for m != nil && c < n] of [FindAllStringIndex]; [k] is
    [n - c], the number of iterations the counter still allows.  The
    error of [FindNextMatch] is dropped, as in [m, _ = re.FindNextMatch(m)]. *)
Fixpoint findAllIndexLoop (re : Regexp) (k : nat) (m : option Match)
    (result : list (list Z)) : list (list Z) :=
  match k, m with
  | S k', Some m' =>
      let groups := Groups m' in
      let result :=
        match groups with
        | g0 :: _ => result ++ [indexPair g0]
        | [] => result
        end in
      findAllIndexLoop re k' (fst (FindNextMatch re (Some m'))) result
  | _, _ => result
  end.

(** [func (re *Regexp) FindAllStringIndex(s string, n int) [][]int] *)
Definition FindAllStringIndex (re : Regexp) (s : string) (n : Z)
  : list (list Z) :=
  let n := if n <? 0 then len s + 1 else n in
  findAllIndexLoop re (Z.to_nat n) (fst (FindStringMatch re s)) [].

(** [func (re *Regexp) FindStringIndex(s string) (loc []int)] *)
Definition FindStringIndex (re : Regexp) (s : string) : list Z :=
  match fst (FindStringMatch re s) with
  | Some m =>
      match Groups m with
      | g0 :: _ => indexPair g0
      | [] => []
      end
  | None => []
  end.

(** The inner loop [for _, g := range m.Groups()] that appends the two
    ends of every group. *)
Definition submatchIndex (m : Match) : list Z := flat_map indexPair (Groups m).

(** [func (re *Regexp) FindStringSubmatchIndex(s string) []int] *)
Definition FindStringSubmatchIndex (re : Regexp) (s : string) : list Z :=
  match fst (FindStringMatch re s) with
  | Some m => submatchIndex m
  | None => []
  end.

(** The loop [for m != nil && c < n] of [FindAllStringSubmatchIndex]. *)
Fixpoint findAllSubmatchLoop (re : Regexp) (k : nat) (m : option Match)
    (result : list (list Z)) : list (list Z) :=
  match k, m with
  | S k', Some m' =>
      findAllSubmatchLoop re k' (fst (FindNextMatch re (Some m')))
                          (result ++ [submatchIndex m'])
  | _, _ => result
  end.

(** [func (re *Regexp) FindAllStringSubmatchIndex(s string, n int) [][]int] *)
Definition FindAllStringSubmatchIndex (re : Regexp) (s : string) (n : Z)
  : list (list Z) :=
  let n := if n <? 0 then len s + 1 else n in
  findAllSubmatchLoop re (Z.to_nat n) (fst (FindStringMatch re s)) [].

(** [func (re *Regexp) FindAllSubmatchIndex(b []byte, n int) [][]int] *)
Definition FindAllSubmatchIndex (re : Regexp) (b : string) (n : Z)
  : list (list Z) :=
  FindAllStringSubmatchIndex re b n.

(** ** Replacement through a callback *)

(** The local variables of [replaceAll]. *)
Record replState : Type := mkReplState {
  lastMatchEnd : Z;  (* end position of the most recent match *)
  searchPos : Z;     (* position where we next look for a match *)
  buf : string
}.

(** The body of the loop [for m != nil] of [replaceAll], for the match
    [m]: it copies the unmatched bytes before the match, applies [repl]
    unless the match is empty and touches the previous one, and moves
    [lastMatchEnd] and [searchPos]. *)
Definition replaceAll_body (src : string)
    (repl : string -> list Z -> outcome string) (m : Match) (st : replState)
  : outcome replState :=
  let a := [Index (group m); Index (group m) + Length (group m)] in
  let a0 := nth 0 a 0 in
  let a1 := nth 1 a 0 in
  let* pre := slice src (lastMatchEnd st) a0 in
  let buf1 := buf st +:+ pre in
  let* buf2 :=
    (if (lastMatchEnd st <? a1) || (a0 =? 0) then repl buf1 a else Done buf1) in
  let* rest := slice src (searchPos st) (len src) in
  let width := snd (DecodeRuneInString rest) in
  let sp :=
    if a1 <? searchPos st + width then searchPos st + width
    else if a1 <? searchPos st + 1 then searchPos st + 1
    else a1 in
  Done {| lastMatchEnd := a1; searchPos := sp; buf := buf2 |}.

(** The loop [for m != nil] of [replaceAll] and the copy of the unmatched
    bytes after the last match.  The loop has no bound of its own. *)
Fixpoint replaceAll_loop (fuel : nat) (re : Regexp) (src : string)
    (repl : string -> list Z -> outcome string) (m : option Match)
    (st : replState) : outcome string :=
  match m with
  | None =>
      let* rest := slice src (lastMatchEnd st) (len src) in
      Done (buf st +:+ rest)
  | Some m' =>
      match fuel with
      | O => OutOfFuel
      | S f =>
          let* st' := replaceAll_body src repl m' st in
          replaceAll_loop f re src repl (fst (FindNextMatch re (Some m'))) st'
      end
  end.

(** [func (re *Regexp) replaceAll(src string, repl func(dst []byte, m []int) []byte) []byte] *)
Definition replaceAll (fuel : nat) (re : Regexp) (src : string)
    (repl : string -> list Z -> outcome string) : outcome string :=
  replaceAll_loop fuel re src repl (fst (FindStringMatch re src))
    {| lastMatchEnd := 0; searchPos := 0; buf := "" |}.

(** [func (re *Regexp) ReplaceAllFunc(src []byte, repl func([]byte) []byte) []byte].
    The slice expression [src[match[0]:match[1]]] is checked against the
    length of [src], as if the byte slice had no spare capacity. *)
Definition ReplaceAllFunc (fuel : nat) (re : Regexp) (src : string)
    (repl : string -> string) : outcome string :=
  replaceAll fuel re src
    (fun dst m =>
       let* piece := slice src (nth 0 m 0) (nth 1 m 0) in
       Done (dst +:+ repl piece)).

(** ** Replacement through a template *)

(** Modelled from the spec: the replacement template after tokenizing,
    "a sequence of {literal, backref-by-number, backref-by-name,
    special-token} segments"; the special tokens are the whole match, the
    text left and right of the match, the last captured group and the whole
    input.  [syntax.ReplacerData] is declared outside regexp.go. *)
Inductive segment : Type :=
| SegLiteral (s : list Z)
| SegNumber (n : Z)
| SegName (name : string)
| SegWholeMatch
| SegLeftPortion
| SegRightPortion
| SegLastGroup
| SegWholeString.

Definition ReplacerData : Type := list segment.

Definition isDigit (c : Z) : bool := (48 <=? c) && (c <=? 57).

(** The decimal number that starts the scalars [rs], continuing [n], and
    the scalars after it. *)
Fixpoint spanDigits (rs : list Z) (n : Z) : Z * list Z :=
  match rs with
  | d :: t => if isDigit d then spanDigits t (n * 10 + (d - 48)) else (n, rs)
  | [] => (n, [])
  end.

(** The scalars of [rs] before the first closing brace, and the ones after
    it; [None] when there is no closing brace. *)
Fixpoint spanName (rs : list Z) : option (list Z * list Z) :=
  match rs with
  | c :: t =>
      if c =? 125 then Some ([], t)
      else match spanName t with
           | Some (name, rest) => Some (c :: name, rest)
           | None => None
           end
  | [] => None
  end.

(** Modelled from the spec: the segments of a template: [$$] is a literal
    dollar, [$&] and [$0] the whole match, [$`] and [$'] the text left and
    right of it, [$+] the last group, [$_] the whole input, [$n] and
    [${name}] a group; every other scalar is literal. *)
Fixpoint tokens (fuel : nat) (rs : list Z) : list segment :=
  match fuel with
  | O => []
  | S f =>
      match rs with
      | [] => []
      | c :: t =>
          if negb (c =? 36) then SegLiteral [c] :: tokens f t
          else
            match t with
            | [] => [SegLiteral [c]]
            | d :: t' =>
                if d =? 36 then SegLiteral [36] :: tokens f t'
                else if d =? 38 then SegWholeMatch :: tokens f t'
                else if d =? 96 then SegLeftPortion :: tokens f t'
                else if d =? 39 then SegRightPortion :: tokens f t'
                else if d =? 43 then SegLastGroup :: tokens f t'
                else if d =? 95 then SegWholeString :: tokens f t'
                else if isDigit d then
                  SegNumber (fst (spanDigits t' (d - 48)))
                    :: tokens f (snd (spanDigits t' (d - 48)))
                else if d =? 123 then
                  match spanName t' with
                  | Some (name, rest) =>
                      SegName (stringOfRunes name) :: tokens f rest
                  | None => SegLiteral [c] :: tokens f t
                  end
                else SegLiteral [c] :: tokens f t
            end
      end
  end.

(** A segment names a group the expression has. *)
Definition segment_ok (capsize : Z) (capnames : option (gmap string Z))
    (sg : segment) : bool :=
  match sg with
  | SegNumber n => (0 <=? n) && (n <? capsize)
  | SegName name =>
      match capnames with
      | Some names => match names !! name with Some _ => true | None => false end
      | None => false
      end
  | _ => true
  end.

(** Modelled from the spec: [syntax.NewReplacerData], outside regexp.go:
    "tokenize the replacement once"; an "invalid backreference in a
    replacement template" is an error. *)
Definition NewReplacerData (replacement : string) (caps : option (gmap Z Z))
    (capsize : Z) (capnames : option (gmap string Z)) (opt : RegexOptions)
  : option ReplacerData * option error :=
  let rs := getRunes replacement in
  let data := tokens (S (List.length rs)) rs in
  if forallb (segment_ok capsize capnames) data
  then (Some data, None)
  else (None, Some (errors_New "invalid backreference")).

(** The scalars [text[i:j]], for [0 <= i <= j <= len(text)]. *)
Definition sliceR (txt : list Z) (i j : Z) : list Z :=
  firstn (Z.to_nat (j - i)) (skipn (Z.to_nat i) txt).

(** The scalars a group captured. *)
Definition groupText (m : Match) (g : Group) : list Z :=
  sliceR (text m) (Index g) (Index g + Length g).

(** Modelled from the spec: the expansion of one segment for the match [m]. *)
Definition expandSegment (re : Regexp) (m : Match) (sg : segment) : list Z :=
  match sg with
  | SegLiteral s => s
  | SegNumber n => groupText m (nth (Z.to_nat n) (Groups m) (mkGroup 0 0))
  | SegName name =>
      groupText m (nth (Z.to_nat (GroupNumberFromName re name)) (Groups m)
                       (mkGroup 0 0))
  | SegWholeMatch => groupText m (group m)
  | SegLeftPortion => sliceR (text m) 0 (Index (group m))
  | SegRightPortion =>
      sliceR (text m) (Index (group m) + Length (group m)) (lenR (text m))
  | SegLastGroup => groupText m (List.last (Groups m) (group m))
  | SegWholeString => text m
  end.

(** [type MatchEvaluator func(Match) string] *)
Definition MatchEvaluator : Type := Match -> string.

(** Modelled from the spec: the text that replaces the match [m], the
    expanded template, or the value of the evaluator decoded back to
    scalars. *)
Definition replacementFor (re : Regexp) (data : option ReplacerData)
    (evaluator : option MatchEvaluator) (m : Match) : list Z :=
  match evaluator, data with
  | Some ev, _ => getRunes (ev m)
  | None, Some d => flat_map (expandSegment re m) d
  | None, None => []
  end.

(** Modelled from the spec: the matches a replacement goes through: the
    first one and then find-next, at most [count] of them when [count] is
    not negative; an error of the runner ends the replacement. *)
Fixpoint collectMatches (fuel : nat) (re : Regexp) (count : Z)
    (m : option Match) (acc : list Match)
  : outcome (list Match * option error) :=
  match m with
  | None => Done (acc, None)
  | Some m' =>
      if count =? 0 then Done (acc, None)
      else
        match fuel with
        | O => OutOfFuel
        | S f =>
            match FindNextMatch re (Some m') with
            | (_, Some err) => Done (acc ++ [m'], Some err)
            | (next, None) =>
                collectMatches f re (count - 1) next (acc ++ [m'])
            end
        end
  end.

(** Modelled from the spec: "for each match, emit unmatched prefix +
    expanded replacement", and the unmatched text after the last match;
    [ms] are the matches from left to right, [prevat] the end of the
    previous one. *)
Fixpoint emit (expand : Match -> list Z) (txt : list Z) (prevat : Z)
    (ms : list Match) : list Z :=
  match ms with
  | [] => sliceR txt prevat (lenR txt)
  | m :: rest =>
      sliceR txt prevat (Index (group m)) ++ expand m
        ++ emit expand txt (Index (group m) + Length (group m)) rest
  end.

(** Modelled from the spec: [func replace(regex *Regexp, data
    *syntax.ReplacerData, evaluator MatchEvaluator, input string, startAt,
    count int)], which returns a string and an [error], is defined outside
    regexp.go.  The matches are found with [FindStringMatchStartingAt] and
    [FindNextMatch]; a right-to-left expression finds them from the right,
    and they are put back in text order before the output is built.  When
    nothing matches, nothing is replaced and the input is the result. *)
Definition replace (fuel : nat) (re : Regexp) (data : option ReplacerData)
    (evaluator : option MatchEvaluator) (input : string) (startAt count : Z)
  : outcome (string * option error) :=
  match FindStringMatchStartingAt re input startAt with
  | (_, Some err) => Done ("", Some err)
  | (None, None) => Done (input, None)
  | (first, None) =>
      let* r := collectMatches fuel re count first [] in
      match r with
      | (_, Some err) => Done ("", Some err)
      | (ms, None) =>
          let ms := if RightToLeft re then rev ms else ms in
          Done (stringOfRunes
                  (emit (replacementFor re data evaluator) (getRunes input) 0 ms),
                None)
      end
  end.

(** [func (re *Regexp) Replace(input, replacement string, startAt, count int) (string, error)] *)
Definition Replace (fuel : nat) (re : Regexp) (input replacement : string)
    (startAt count : Z) : outcome (string * option error) :=
  match NewReplacerData replacement (caps re) (capsize re) (capnames re)
                        (options re) with
  | (_, Some err) => Done ("", Some err)
  | (data, None) => replace fuel re data None input startAt count
  end.

(** [func (re *Regexp) ReplaceFunc(input string, evaluator MatchEvaluator, startAt, count int) (string, error)] *)
Definition ReplaceFunc (fuel : nat) (re : Regexp) (input : string)
    (evaluator : MatchEvaluator) (startAt count : Z)
  : outcome (string * option error) :=
  replace fuel re None (Some evaluator) input startAt count.

(** ** A backtracking matcher for syntax trees *)

(** Modelled from the spec: the parser and the VM are outside regexp.go.
    A pattern is given by its syntax tree, over the constructs the
    instruction set names: a single scalar ([One], [Notone], [Set]),
    concatenation, alternation, greedy and lazy repetition, capture groups
    and the anchors [Beginning] and [End]. *)
Inductive node : Type :=
| Empty
| One (c : Z)
| Notone (c : Z)
| SetOf (ranges : list (Z * Z))
| Concatenate (a b : node)
| Alternate (a b : node)
| Loop (a : node)
| Lazyloop (a : node)
| Capture (slot : nat) (a : node)
| Beginning
| End_.

(** Modelled from the spec: the scalar the cursor is about to consume,
    the one at [pos], or the one before [pos] when the expression runs right
    to left. *)
Definition charAt (rtl : bool) (input : list Z) (pos : Z) : option Z :=
  let i := if rtl then pos - 1 else pos in
  if (0 <=? i) && (i <? lenR input) then nth_error input (Z.to_nat i) else None.

(** Modelled from the spec: "advance cursor by +-1". *)
Definition advance (rtl : bool) (pos : Z) : Z :=
  if rtl then pos - 1 else pos + 1.

Definition inRanges (ranges : list (Z * Z)) (c : Z) : bool :=
  existsb (fun r => (fst r <=? c) && (c <=? snd r)) ranges.

(** The span between two cursor positions. *)
Definition spanOf (p q : Z) : Group :=
  {| Index := Z.min p q; Length := Z.abs (q - p) |}.

(** What is left to match after a node: a function of the cursor and of
    the capture state. *)
Definition kont : Type := Z -> list Group -> option (Z * list Group).

Definition oneStep (rtl : bool) (input : list Z) (ok : Z -> bool) (pos : Z)
    (cs : list Group) (k : kont) : option (Z * list Group) :=
  match charAt rtl input pos with
  | Some d => if ok d then k (advance rtl pos) cs else None
  | None => None
  end.

(** Modelled from the spec: the backtracking execution of a tree from the
    cursor [pos] with the capture state [cs].  "Alternation a|b tries the
    left branch first.  Greedy x* consumes the maximum, then backs off one
    unit at a time.  Lazy x*? consumes the minimum, then grows one unit at
    a time."  A failed branch leaves no trace in the capture state of the
    branch tried next.  An iteration of a loop that consumes nothing is not
    repeated, so a loop makes at most [len(input)] iterations. *)
Fixpoint exec (rtl : bool) (input : list Z) (t : node) (pos : Z)
    (cs : list Group) (k : kont) {struct t} : option (Z * list Group) :=
  match t with
  | Empty => k pos cs
  | One c => oneStep rtl input (fun d => d =? c) pos cs k
  | Notone c => oneStep rtl input (fun d => negb (d =? c)) pos cs k
  | SetOf ranges => oneStep rtl input (inRanges ranges) pos cs k
  | Concatenate a b =>
      if rtl
      then exec rtl input b pos cs (fun p c => exec rtl input a p c k)
      else exec rtl input a pos cs (fun p c => exec rtl input b p c k)
  | Alternate a b =>
      match exec rtl input a pos cs k with
      | Some r => Some r
      | None => exec rtl input b pos cs k
      end
  | Loop a =>
      (fix loop (n : nat) (pos : Z) (cs : list Group) {struct n} :=
         match n with
         | O => k pos cs
         | S n' =>
             match exec rtl input a pos cs
                     (fun p c => if p =? pos then None else loop n' p c) with
             | Some r => Some r
             | None => k pos cs
             end
         end) (List.length input) pos cs
  | Lazyloop a =>
      (fix loop (n : nat) (pos : Z) (cs : list Group) {struct n} :=
         match n with
         | O => k pos cs
         | S n' =>
             match k pos cs with
             | Some r => Some r
             | None =>
                 exec rtl input a pos cs
                   (fun p c => if p =? pos then None else loop n' p c)
             end
         end) (List.length input) pos cs
  | Capture slot a =>
      exec rtl input a pos cs
        (fun p c => k p (<[ Nat.pred slot := spanOf pos p ]> c))
  | Beginning => if pos =? 0 then k pos cs else None
  | End_ => if pos =? lenR input then k pos cs else None
  end.

(** The highest capture slot of a tree. *)
Fixpoint slots (t : node) : nat :=
  match t with
  | Concatenate a b | Alternate a b => Nat.max (slots a) (slots b)
  | Loop a | Lazyloop a => slots a
  | Capture slot a => Nat.max slot (slots a)
  | _ => 0%nat
  end.

(** Modelled from the spec: the program of a tree, one attempt of the VM
    at a pinned start position, with every slot unset at first. *)
Definition treeCode (rtl : bool) (t : node) : Code :=
  fun input start =>
    match exec rtl input t start (repeat (mkGroup 0 0) (slots t))
               (fun p c => Some (p, c)) with
    | Some (e, c) => VMMatch e c
    | None => VMFail
    end.

(** Modelled from the spec: [Compile] parses the expression and translates
    it to code with the [syntax] package, outside regexp.go; here the
    syntax tree of the expression is given next to its text.  The groups
    are numbered densely and have no names. *)
Definition CompileTree (expr : string) (t : node) (opt : RegexOptions)
  : Regexp :=
  {| MatchTimeout := 2 ^ 63 - 1;
     pattern := expr;
     options := opt;
     caps := None;
     capnames := None;
     capslist := None;
     capsize := 1 + Z.of_nat (slots t);
     code := treeCode (negb (Z.land opt RightToLeft_ =? 0)) t |}.

(** A literal string, scalar by scalar. *)
Definition literal (s : string) : node :=
  fold_right (fun c t => Concatenate (One c) t) Empty (getRunes s).

(** [x+] is [x] followed by [x*]. *)
Definition plus (t : node) : node := Concatenate t (Loop t).

(** The expressions of the scenarios. *)
Definition re_peach : Regexp :=
  CompileTree "p([a-z]+)ch"
    (Concatenate (One 112)
       (Concatenate (Capture 1 (plus (SetOf [(97, 122)]))) (literal "ch")))
    None_.

Definition re_astar : Regexp := CompileTree "a*" (Loop (One 97)) None_.

Definition re_empty : Regexp := CompileTree "" Empty None_.

Definition re_a_rtl : Regexp := CompileTree "a" (One 97) RightToLeft_.

Definition re_astar_rtl : Regexp :=
  CompileTree "a*" (Loop (One 97)) RightToLeft_.

Definition re_bos_rtl : Regexp := CompileTree "\A" Beginning RightToLeft_.

Definition re_never : Regexp := CompileTree "[^\s\S]" (SetOf []) None_.

(** Modelled from the spec: the tables of an expression whose groups are
    numbered 0 and 7, as for [(?<7>a)].  "capMap: partial mapping from
    user-declared capture number to internal slot index"; "capNames:
    ordered list of group names; index into list == internal slot";
    "nameMap: mapping from group name to internal slot". *)
Definition c_sparse : gmap Z Z := <[ 7 := 1 ]> {[ 0 := 0 ]}.

Definition re_sparse : Regexp :=
  {| MatchTimeout := 2 ^ 63 - 1;
     pattern := "(?<7>a)";
     options := None_;
     caps := Some c_sparse;
     capnames := Some (<[ "7" := 1 ]> {[ "0" := 0 ]});
     capslist := Some ["0"; "7"];
     capsize := 2;
     code := treeCode false (Capture 1 (One 97)) |}.

(** A value of type [Regexp] that [Compile] does not build: its table
    [caps] holds an index that is not below the number of its entries. *)
Definition re_gap : Regexp :=
  {| MatchTimeout := 2 ^ 63 - 1;
     pattern := "";
     options := None_;
     caps := Some {[ 0 := 1 ]};
     capnames := None;
     capslist := None;
     capsize := 1;
     code := treeCode false Empty |}.

(** ** What the spec's invariants ask of a compiled program *)

(** The spec's Runner State invariant [0 <= pos <= len(input)] at the end
    of a successful attempt, and the direction of the cursor: a match ends
    at or after its start, at or before it right to left. *)
Definition vm_in_bounds (rtl : bool) (vm : Code) : Prop :=
  forall input start e cs,
    0 <= start <= lenR input ->
    vm input start = VMMatch e cs ->
    if rtl then 0 <= e <= start else start <= e <= lenR input.

(** A compiled expression: at least the whole-match slot ("capCount >= 1")
    and a program that keeps the cursor inside the input. *)
Definition WfRegexp (re : Regexp) : Prop :=
  1 <= capsize re /\ vm_in_bounds (RightToLeft re) (code re).

(** What the facade relies on in a match found on [input]: the span of
    group 0 lies in the input, and the cursor stands at its end, or at its
    beginning when the expression runs right to left. *)
Definition match_ok (re : Regexp) (input : list Z) (m : Match) : Prop :=
  text m = input
  /\ 0 <= Index (group m)
  /\ 0 <= Length (group m)
  /\ Index (group m) + Length (group m) <= lenR input
  /\ textpos m = (if RightToLeft re then Index (group m)
                  else Index (group m) + Length (group m)).

(** A name of one of the groups of the expression, as
    [GroupNameFromNumber] gives them. *)
Definition group_name (re : Regexp) (name : string) : Prop :=
  exists k, 0 <= k < capsize re /\ GroupNameFromNumber re k = name.

(** The byte offset [k] is the start of a scalar of [s]. *)
Definition aligned (s : string) (k : Z) : Prop := In k (runeStarts s).

(** The successive matches from [m] on: every one is the result of
    [FindNextMatch] on the one before, and after the last one
    [FindNextMatch] returns nil. *)
Inductive match_chain (re : Regexp) : option Match -> list Match -> Prop :=
| chain_nil : match_chain re None []
| chain_cons (m : Match) (ms : list Match) :
    match_chain re (fst (FindNextMatch re (Some m))) ms ->
    match_chain re (Some m) (m :: ms).

(** Matches on [input] that follow one another from left to right
    without overlap, the first one not before [prevat]. *)
Fixpoint ordered (re : Regexp) (input : list Z) (prevat : Z)
    (ms : list Match) : Prop :=
  match ms with
  | [] => True
  | m :: rest =>
      match_ok re input m /\ prevat <= Index (group m)
      /\ ordered re input (Index (group m) + Length (group m)) rest
  end.

(** Matches on [input] that follow one another from right to left
    without overlap, the first one ending not after [bound]. *)
Fixpoint descending (re : Regexp) (input : list Z) (bound : Z)
    (ms : list Match) : Prop :=
  match ms with
  | [] => True
  | m :: rest =>
      match_ok re input m /\ Index (group m) + Length (group m) <= bound
      /\ descending re input (Index (group m)) rest
  end.

(** The end of the last match of [ms], or [p] when there is none. *)
Definition lastEnd (p : Z) (ms : list Match) : Z :=
  fold_left (fun _ m => Index (group m) + Length (group m)) ms p.

(** The match [\A] finds in ["a"] from the right: empty, at 0. *)
Definition m_bos : Match :=
  {| text := [97]; textpos := 0; group := mkGroup 0 0; otherGroups := [] |}.

(** A string that is not UTF-8: the single byte 0xFF. *)
Definition s_invalid : string := String "255"%char "".

(** * Part II: lemmas and theorems *)

(** [ztest b v] rewrites the comparison [b] of integers to the boolean [v]
    when linear arithmetic decides it. *)
Ltac ztest b v :=
  replace b with v
    by (symmetry;
        first [ apply Z.ltb_lt | apply Z.ltb_ge | apply Z.leb_le
              | apply Z.leb_gt | apply Z.eqb_eq | apply Z.eqb_neq ];
        first [ lia | congruence | unfold len, lenR in *; lia ]).

(** ** Strings, slices and UTF-8 decoding *)

Lemma DecodeRune_width_pos bs :
  bs <> [] -> 1 <= snd (DecodeRune bs) <= 4.
Proof.
  destruct bs as [|s0 t]; [congruence|intros _].
  unfold DecodeRune.
  repeat match goal with
         | |- context [if ?b then _ else _] => destruct b
         | |- context [match ?l with [] => _ | _ :: _ => _ end] => destruct l
         end; simpl; lia.
Qed.

Lemma DecodeRune_width_le bs :
  snd (DecodeRune bs) <= Z.of_nat (List.length bs).
Proof.
  destruct bs as [|s0 t]; [simpl; lia|].
  unfold DecodeRune.
  repeat match goal with
         | |- context [if ?b then _ else _] => destruct b
         | |- context [match ?l with [] => _ | _ :: _ => _ end] => destruct l
         end; simpl List.length; simpl snd; lia.
Qed.

Lemma DecodeRune_width_zero bs :
  0 <= snd (DecodeRune bs) /\ (snd (DecodeRune bs) = 0 -> bs = []).
Proof.
  destruct bs as [|b t]; [split; [unfold DecodeRune; cbn; lia|reflexivity]|].
  pose proof (DecodeRune_width_pos (b :: t)) as H.
  assert (Hne : b :: t <> []) by discriminate.
  specialize (H Hne). split; [lia|intros; lia].
Qed.

Lemma rangeFrom_length bs : forall idx skip,
  (List.length (rangeFrom bs idx skip) + Nat.min skip (List.length bs)
   <= List.length bs)%nat.
Proof.
  induction bs as [|b t IH]; intros idx skip; simpl; [lia|].
  destruct skip as [|k].
  - simpl. specialize (IH (idx + 1) (Z.to_nat (snd (DecodeRune (b :: t)) - 1))).
    lia.
  - specialize (IH (idx + 1) k). lia.
Qed.

Lemma length_bytes s : List.length (bytes s) = String.length s.
Proof.
  unfold bytes. rewrite length_map.
  induction s as [|c s IH]; simpl; congruence.
Qed.

(** A string has at most as many scalars as bytes. *)
Lemma getRunes_length s : lenR (getRunes s) <= len s.
Proof.
  unfold lenR, len, getRunes, rangeString. rewrite length_map.
  pose proof (rangeFrom_length (bytes s) 0 0%nat) as H.
  rewrite length_bytes in H. lia.
Qed.

(** [rangeFrom] with a skip count is the loop that decodes a scalar and
    moves on by its width. *)
Lemma rangeFrom_skip (k : nat) : forall bs idx,
  (k <= List.length bs)%nat ->
  rangeFrom bs idx k = rangeFrom (skipn k bs) (idx + Z.of_nat k) 0.
Proof.
  induction k as [|k IH]; intros bs idx Hk.
  - cbn [skipn]. f_equal. lia.
  - destruct bs as [|b t]; cbn [List.length] in Hk; [lia|].
    cbn [rangeFrom skipn]. rewrite IH by lia. f_equal. lia.
Qed.

Lemma rangeFrom_decode_step bs idx :
  bs <> [] ->
  rangeFrom bs idx 0
  = (idx, fst (DecodeRune bs))
      :: rangeFrom (skipn (Z.to_nat (snd (DecodeRune bs))) bs)
                   (idx + snd (DecodeRune bs)) 0.
Proof.
  intros Hne. pose proof (DecodeRune_width_pos bs Hne) as Hw.
  pose proof (DecodeRune_width_le bs) as Hle.
  destruct bs as [|b t]; [congruence|]. cbn [rangeFrom].
  cbn [List.length] in Hle. f_equal.
  rewrite rangeFrom_skip by lia.
  replace (Z.to_nat (snd (DecodeRune (b :: t))))
    with (S (Z.to_nat (snd (DecodeRune (b :: t)) - 1))) by lia.
  cbn [skipn]. f_equal. lia.
Qed.

(** The byte offsets that [range] goes through start at [idx], grow, and
    stay below the length. *)
Lemma rangeFrom_offsets bs : forall idx skip o,
  In o (map fst (rangeFrom bs idx skip)) ->
  idx <= o < idx + Z.of_nat (List.length bs).
Proof.
  induction bs as [|b t IH]; intros idx skip o; cbn [rangeFrom]; [intros []|].
  destruct skip as [|k]; cbn [map fst In List.length].
  - intros [<-|H]; [lia|]. apply IH in H. lia.
  - intros H. apply IH in H. lia.
Qed.

Lemma rangeFrom_NoDup bs : forall idx skip,
  List.NoDup (map fst (rangeFrom bs idx skip)).
Proof.
  induction bs as [|b t IH]; intros idx skip; cbn [rangeFrom];
    [constructor|].
  destruct skip as [|k]; cbn [map fst]; [|apply IH].
  constructor; [|apply IH].
  intros H. apply rangeFrom_offsets in H. lia.
Qed.

Lemma aligned_range s k : aligned s k -> 0 <= k < len s.
Proof.
  unfold aligned, runeStarts, rangeString. intros H.
  apply rangeFrom_offsets in H. rewrite length_bytes in H.
  unfold len. lia.
Qed.

(** In a string with as many scalars as bytes, every scalar is one byte
    wide, wherever the decoding starts. *)
Lemma single_byte_runes bs : forall idx,
  List.length (rangeFrom bs idx 0) = List.length bs ->
  forall n, snd (DecodeRune (skipn n bs)) <= 1.
Proof.
  induction bs as [|b t IH]; intros idx Hlen n.
  - rewrite skipn_nil. unfold DecodeRune. cbn. lia.
  - cbn [rangeFrom List.length] in Hlen.
    pose proof (rangeFrom_length t (idx + 1)
                  (Z.to_nat (snd (DecodeRune (b :: t)) - 1))) as Hr.
    pose proof (DecodeRune_width_le (b :: t)) as Hle.
    pose proof (DecodeRune_width_pos (b :: t)) as Hpos.
    assert (Hne : b :: t <> []) by discriminate. specialize (Hpos Hne).
    cbn [List.length] in Hle.
    assert (Hw : snd (DecodeRune (b :: t)) = 1) by lia.
    destruct n as [|n]; cbn [skipn]; [lia|].
    apply (IH (idx + 1)). rewrite Hw in Hlen.
    change (Z.to_nat (1 - 1)) with 0%nat in Hlen. congruence.
Qed.

Lemma list_ascii_substring s : forall n m,
  list_ascii_of_string (substring n m s)
  = firstn m (skipn n (list_ascii_of_string s)).
Proof.
  induction s as [|c s IH]; intros [|n] [|m]; cbn; try reflexivity.
  - now rewrite IH.
  - apply IH.
  - apply IH.
Qed.

Lemma bytes_substring s n m :
  bytes (substring n m s) = firstn m (skipn n (bytes s)).
Proof.
  unfold bytes. rewrite list_ascii_substring, skipn_map, firstn_map.
  reflexivity.
Qed.

(** The rest [src[sp:]] of a string, and its bytes. *)
Lemma slice_rest src sp :
  0 <= sp <= len src ->
  exists rest, slice src sp (len src) = Done rest
    /\ bytes rest = skipn (Z.to_nat sp) (bytes src).
Proof.
  intros Hsp. unfold slice.
  replace ((0 <=? sp) && (sp <=? len src) && (len src <=? len src)) with true.
  - eexists. split; [reflexivity|]. rewrite bytes_substring.
    apply firstn_all2. rewrite length_skipn, length_bytes. unfold len. lia.
  - symmetry. rewrite !andb_true_iff, !Z.leb_le. lia.
Qed.

Lemma slice_Done src i j :
  0 <= i <= j -> j <= len src -> exists piece, slice src i j = Done piece.
Proof.
  intros Hi Hj. unfold slice.
  replace ((0 <=? i) && (i <=? j) && (j <=? len src)) with true;
    [eexists; reflexivity|].
  symmetry. rewrite !andb_true_iff, !Z.leb_le. lia.
Qed.

Lemma slice_not_OutOfFuel s i j : slice s i j <> OutOfFuel.
Proof. unfold slice. destruct (_ && _); discriminate. Qed.

(** The width that [replaceAll] decodes at [searchPos]. *)
Lemma width_at src sp rest :
  0 <= sp <= len src ->
  bytes rest = skipn (Z.to_nat sp) (bytes src) ->
  0 <= snd (DecodeRuneInString rest) <= len src - sp
  /\ (sp < len src -> 1 <= snd (DecodeRuneInString rest))
  /\ (lenR (getRunes src) = len src -> snd (DecodeRuneInString rest) <= 1).
Proof.
  intros Hsp Hb. unfold DecodeRuneInString. rewrite Hb.
  pose proof (DecodeRune_width_le (skipn (Z.to_nat sp) (bytes src))) as Hle.
  pose proof (DecodeRune_width_zero (skipn (Z.to_nat sp) (bytes src)))
    as (H0 & Hz).
  rewrite length_skipn, length_bytes in Hle. unfold len in *.
  split; [lia|]. split.
  - intros Hlt.
    destruct (Z.eq_dec (snd (DecodeRune (skipn (Z.to_nat sp) (bytes src)))) 0)
      as [E|E]; [|lia].
    apply Hz in E. apply (f_equal (@List.length Z)) in E.
    rewrite length_skipn, length_bytes in E. cbn in E. lia.
  - intros Hall. apply (single_byte_runes (bytes src) 0).
    unfold lenR, getRunes, rangeString in Hall.
    rewrite length_map in Hall. rewrite length_bytes. lia.
Qed.

(** A string with scalars of one, two, three and four bytes is the
    encoding of its own scalars. *)
Example well_formed_multibyte :
  stringOfRunes (getRunes "héllo€𝄞") = "héllo€𝄞".
Proof. reflexivity. Qed.

(** Every string of ASCII bytes is well-formed UTF-8. *)
Lemma ascii_well_formed s :
  (forall c, In c (list_ascii_of_string s) -> byteZ c < 128) ->
  stringOfRunes (getRunes s) = s.
Proof.
  unfold getRunes, rangeString. generalize 0.
  induction s as [|c s IH]; intros idx Hs; [reflexivity|].
  assert (Hc : byteZ c < 128) by (apply Hs; left; reflexivity).
  assert (H0 : 0 <= byteZ c) by (unfold byteZ; lia).
  change (bytes (String c s)) with (byteZ c :: bytes s).
  cbn [rangeFrom].
  assert (Hd : DecodeRune (byteZ c :: bytes s) = (byteZ c, 1)).
  { unfold DecodeRune, RuneSelf.
    ztest (byteZ c <? 128) true.
    reflexivity. }
  rewrite Hd. cbn [fst snd map stringOfRunes fold_right].
  change (Z.to_nat (1 - 1)) with 0%nat.
  fold (stringOfRunes (map snd (rangeFrom (bytes s) (idx + 1) 0))).
  rewrite IH by (intros c' Hc'; apply Hs; right; assumption).
  unfold EncodeRune.
  ztest (0 <=? byteZ c) true.
  ztest (byteZ c <? 128) true.
  unfold byteA, byteZ. rewrite N2Z.id, ascii_N_embedding. reflexivity.
Qed.

(** ** The runner *)

Lemma candidates_range rtl start n p :
  In p (candidates rtl start n) ->
  0 <= start <= n /\ (if rtl then 0 <= p <= start else start <= p <= n).
Proof.
  unfold candidates.
  destruct (start <? 0) eqn:E1; simpl; [tauto|].
  destruct (n <? start) eqn:E2; simpl; [tauto|].
  apply Z.ltb_ge in E1. apply Z.ltb_ge in E2.
  destruct rtl; rewrite in_map_iff; intros (i & <- & Hi);
    apply in_seq in Hi; lia.
Qed.

Lemma scan_Some vm input quick cands m e :
  scan vm input quick cands = (Some m, e) ->
  e = None /\ exists p e' cs,
    In p cands /\ vm input p = VMMatch e' cs
    /\ m = tidyMatch quick input p e' cs.
Proof.
  induction cands as [|p rest IH]; simpl; [discriminate|].
  destruct (vm input p) as [| |e' cs] eqn:E.
  - intros H. destruct (IH H) as (-> & q & e' & cs & Hin & Hvm & ->).
    split; [reflexivity|]. exists q, e', cs. auto.
  - discriminate.
  - intros [= <- <-]. split; [reflexivity|]. exists p, e', cs. auto.
Qed.

(** The outcome of a scan does not depend on [quick], up to the groups
    recorded in the match. *)
Lemma scan_quick vm input cands :
  match scan vm input true cands, scan vm input false cands with
  | (Some m, e), (Some m', e') =>
      e = e' /\ group m = group m' /\ textpos m = textpos m'
  | (None, e), (None, e') => e = e'
  | _, _ => False
  end.
Proof.
  induction cands as [|p rest IH]; simpl; [reflexivity|].
  destruct (vm input p); auto.
Qed.

Lemma scan_error vm input quick cands om err :
  scan vm input quick cands = (om, Some err) -> err = ErrTimeout.
Proof.
  induction cands as [|p rest IH]; cbn [scan]; [discriminate|].
  destruct (vm input p); [exact IH| |]; congruence.
Qed.

(** The only error of the runner is the timeout. *)
Lemma run_error re quick k input om err :
  run re quick k input = (om, Some err) -> err = ErrTimeout.
Proof. unfold run. apply scan_error. Qed.

Lemma run_no_errors_New re quick k input msg :
  snd (run re quick k input) <> Some (errors_New msg).
Proof.
  unfold run. generalize (candidates (RightToLeft re)
    (if k <? 0 then if RightToLeft re then lenR input else 0 else k)
    (lenR input)).
  intros cands. induction cands as [|p rest IH]; simpl; [discriminate|].
  destruct (code re input p); simpl; auto; discriminate.
Qed.

(** A match of the runner is well placed, and lies on the side of the
    start the scan moves to. *)
Lemma run_match_ok re quick k input m e :
  WfRegexp re ->
  run re quick k input = (Some m, e) ->
  e = None /\ match_ok re input m
  /\ (0 <= k ->
      if RightToLeft re then Index (group m) + Length (group m) <= k
      else k <= Index (group m)).
Proof.
  intros (Hcap & Hvm) Hrun. unfold run in Hrun.
  apply scan_Some in Hrun. destruct Hrun as (-> & p & e' & cs & Hin & Hp & ->).
  apply candidates_range in Hin. destruct Hin as (Hs & Hin).
  split; [reflexivity|].
  unfold vm_in_bounds in Hvm. unfold match_ok, tidyMatch; simpl.
  destruct (RightToLeft re) eqn:Ertl.
  - assert (Hb : 0 <= e' <= p) by (apply (Hvm input p e' cs); [|assumption];
      destruct (k <? 0); lia).
    destruct (k <? 0) eqn:Ek; [apply Z.ltb_lt in Ek | apply Z.ltb_ge in Ek];
      repeat split; lia.
  - assert (Hb : p <= e' <= lenR input) by (apply (Hvm input p e' cs);
      [|assumption]; destruct (k <? 0); lia).
    destruct (k <? 0) eqn:Ek; [apply Z.ltb_lt in Ek | apply Z.ltb_ge in Ek];
      repeat split; lia.
Qed.

(** ** The matcher for syntax trees *)

Lemma charAt_Some rtl input pos d :
  charAt rtl input pos = Some d ->
  0 <= advance rtl pos <= lenR input
  /\ 0 <= pos <= lenR input
  /\ (if rtl then advance rtl pos <= pos else pos <= advance rtl pos).
Proof.
  unfold charAt, advance.
  destruct rtl;
    match goal with
    | |- context [if ?b then _ else _] => destruct b eqn:E
    end; try discriminate; intros _;
    apply andb_true_iff in E; destruct E as [E1 E2];
    apply Z.leb_le in E1; apply Z.ltb_lt in E2; lia.
Qed.

(** A successful execution ran its continuation, at a cursor inside the
    input that lies in the direction of the scan. *)
Lemma exec_inv rtl input t : forall pos cs k r,
  0 <= pos <= lenR input ->
  exec rtl input t pos cs k = Some r ->
  exists p c, k p c = Some r /\ 0 <= p <= lenR input
    /\ (if rtl then p <= pos else pos <= p).
Proof.
  assert (Hone : forall ok pos cs k r,
    oneStep rtl input ok pos cs k = Some r ->
    exists p c, k p c = Some r /\ 0 <= p <= lenR input
      /\ (if rtl then p <= pos else pos <= p)).
  { intros ok pos cs k r. unfold oneStep.
    destruct (charAt rtl input pos) as [d|] eqn:E; [|discriminate].
    destruct (ok d); [|discriminate]. intros H.
    apply charAt_Some in E. exists (advance rtl pos), cs. tauto. }
  induction t as [ |c|c|ranges|a IHa b IHb|a IHa b IHb|a IHa|a IHa
                   |slot a IHa| | ]; intros pos cs k r Hpos; simpl.
  - intros H. exists pos, cs. destruct rtl; repeat split; auto; lia.
  - apply Hone.
  - apply Hone.
  - apply Hone.
  - destruct rtl.
    + intros H. apply IHb in H; [|assumption].
      destruct H as (p1 & c1 & H & Hp1 & Hd1).
      apply IHa in H; [|assumption].
      destruct H as (p2 & c2 & H & Hp2 & Hd2).
      exists p2, c2. repeat split; auto; lia.
    + intros H. apply IHa in H; [|assumption].
      destruct H as (p1 & c1 & H & Hp1 & Hd1).
      apply IHb in H; [|assumption].
      destruct H as (p2 & c2 & H & Hp2 & Hd2).
      exists p2, c2. repeat split; auto; lia.
  - destruct (exec rtl input a pos cs k) as [r'|] eqn:E.
    + intros [= <-]. apply IHa in E; assumption.
    + intros H. apply IHb in H; assumption.
  - generalize (List.length input). intros n. revert pos cs Hpos.
    induction n as [|n IHn]; intros pos cs Hpos.
    + intros H. exists pos, cs. destruct rtl; repeat split; auto; lia.
    + match goal with
      | |- context [exec rtl input a pos cs ?k'] =>
          destruct (exec rtl input a pos cs k') as [r'|] eqn:E
      end.
      * intros [= <-]. apply IHa in E; [|assumption].
        destruct E as (p1 & c1 & H & Hp1 & Hd1).
        destruct (p1 =? pos); [discriminate|].
        apply IHn in H; [|assumption].
        destruct H as (p2 & c2 & H & Hp2 & Hd2).
        exists p2, c2. destruct rtl; repeat split; auto; lia.
      * intros H. exists pos, cs. destruct rtl; repeat split; auto; lia.
  - generalize (List.length input). intros n. revert pos cs Hpos.
    induction n as [|n IHn]; intros pos cs Hpos.
    + intros H. exists pos, cs. destruct rtl; repeat split; auto; lia.
    + destruct (k pos cs) as [r'|] eqn:Ek.
      * intros [= <-]. exists pos, cs. destruct rtl; repeat split; auto; lia.
      * intros E. apply IHa in E; [|assumption].
        destruct E as (p1 & c1 & H & Hp1 & Hd1).
        destruct (p1 =? pos); [discriminate|].
        apply IHn in H; [|assumption].
        destruct H as (p2 & c2 & H & Hp2 & Hd2).
        exists p2, c2. destruct rtl; repeat split; auto; lia.
  - intros H. apply IHa in H; [|assumption].
    destruct H as (p1 & c1 & H & Hp1 & Hd1). eauto.
  - destruct (pos =? 0); [|discriminate].
    intros H. exists pos, cs. destruct rtl; repeat split; auto; lia.
  - destruct (pos =? lenR input); [|discriminate].
    intros H. exists pos, cs. destruct rtl; repeat split; auto; lia.
Qed.

Lemma treeCode_in_bounds rtl t : vm_in_bounds rtl (treeCode rtl t).
Proof.
  intros input start e cs Hstart. unfold treeCode.
  destruct (exec rtl input t start (repeat (mkGroup 0 0) (slots t))
              (fun p c => Some (p, c))) as [[e' c']|] eqn:E; [|discriminate].
  intros [= <- <-]. apply exec_inv in E; [|assumption].
  destruct E as (p & c & [= <- <-] & Hp & Hd).
  destruct rtl; lia.
Qed.

(** Every expression built from a syntax tree is well formed. *)
Lemma CompileTree_wf expr t opt : WfRegexp (CompileTree expr t opt).
Proof.
  split.
  - simpl. lia.
  - apply treeCode_in_bounds.
Qed.

(** The scenario of the spec, on the expression [p([a-z]+)ch]. *)
Example FindAllStringIndex_peach :
  FindAllStringIndex re_peach "peach punch pinch" (-1)
  = [[0; 5]; [6; 11]; [12; 17]].
Proof. vm_compute. reflexivity. Qed.

Example FindAllStringSubmatchIndex_peach :
  FindAllStringSubmatchIndex re_peach "peach punch pinch" (-1)
  = [[0; 5; 1; 3]; [6; 11; 7; 9]; [12; 17; 13; 15]].
Proof. vm_compute. reflexivity. Qed.

(** The empty matches of [a*] in ["bbb"]: four of them, one scalar apart. *)
Example FindAllStringIndex_astar :
  FindAllStringIndex re_astar "bbb" (-1) = [[0; 0]; [1; 1]; [2; 2]; [3; 3]].
Proof. vm_compute. reflexivity. Qed.

(** The scenario of an expression that matches both the empty string and
    a non-empty one: [a*] on ["baaac"]; the empty match at 4, right after
    the match of ["aaa"], is not replaced. *)
Example ReplaceAllFunc_astar :
  FindAllStringIndex re_astar "baaac" (-1) = [[0; 0]; [1; 4]; [4; 4]; [5; 5]]
  /\ ReplaceAllFunc 6 re_astar "baaac" (fun _ => "X") = Done "XbXcX".
Proof. split; vm_compute; reflexivity. Qed.

(** ** Decimal names of groups *)

Lemma byteZ_byteA x : 0 <= x < 256 -> byteZ (byteA x) = x.
Proof.
  intros H. unfold byteZ, byteA.
  rewrite N_ascii_embedding by lia. lia.
Qed.

Lemma wrap64_small x : int_range x -> wrap64 x = x.
Proof.
  unfold int_range, wrap64. intros H.
  rewrite Z.mod_small by lia. lia.
Qed.

(** Reading back the digits that [utoa] wrote gives the number. *)
Lemma digitsLoop_utoa fuel : forall n acc,
  0 <= n < 2 ^ 63 -> n < 2 ^ Z.of_nat fuel ->
  digitsLoop 0 (utoa fuel n acc) = digitsLoop n acc.
Proof.
  induction fuel as [|f IH]; intros n acc Hn Hf.
  - simpl in *. assert (n = 0) by lia. subst n. reflexivity.
  - cbn [utoa].
    assert (Hd : 0 <= n mod 10 < 10) by (apply Z.mod_pos_bound; lia).
    assert (Hstep : forall r, 0 <= r -> r * 10 + n mod 10 < 2 ^ 63 ->
      digitsLoop r (String (byteA (48 + n mod 10)) acc)
      = digitsLoop (r * 10 + n mod 10) acc).
    { intros r Hr Hb. cbn [digitsLoop].
      rewrite byteZ_byteA by lia.
      change (byteZ "9") with 57. change (byteZ "0") with 48.
      ztest (57 <? 48 + n mod 10) false.
      ztest (48 + n mod 10 <? 48) false.
      cbn [orb].
      rewrite (wrap64_small (r * 10)) by (unfold int_range; lia).
      rewrite wrap64_small by (unfold int_range; lia).
      f_equal. lia. }
    destruct (n <? 10) eqn:E.
    + apply Z.ltb_lt in E. rewrite Hstep by lia.
      rewrite Z.mod_small by lia. reflexivity.
    + apply Z.ltb_ge in E.
      assert (Hq : 0 <= n / 10) by (apply Z.div_pos; lia).
      assert (Hqn : n = 10 * (n / 10) + n mod 10) by (apply Z.div_mod; lia).
      rewrite IH.
      * rewrite Hstep by lia. f_equal. lia.
      * lia.
      * rewrite Nat2Z.inj_succ, Z.pow_succ_r in Hf by lia. lia.
Qed.

Lemma Itoa_digitsLoop k :
  0 <= k < 2 ^ 63 -> digitsLoop 0 (Itoa k) = Some k.
Proof.
  intros Hk. unfold Itoa.
  ztest (k <? 0) false.
  rewrite digitsLoop_utoa; [reflexivity|assumption|].
  rewrite Nat2Z.inj_succ, Z2Nat.id by apply Z.log2_nonneg.
  destruct (Z.eq_dec k 0) as [->|Hne]; [reflexivity|].
  apply Z.log2_spec. lia.
Qed.

(** A byte that is not a decimal digit anywhere in the name ends the loop. *)
Lemma digitsLoop_not_digit name : forall r c,
  In c (list_ascii_of_string name) ->
  byteZ c < 48 \/ 57 < byteZ c ->
  digitsLoop r name = None.
Proof.
  induction name as [|ch rest IH]; intros r c Hin Hc; [destruct Hin|].
  cbn [digitsLoop]. change (byteZ "9") with 57. change (byteZ "0") with 48.
  destruct ((57 <? byteZ ch) || (byteZ ch <? 48)) eqn:E; [reflexivity|].
  apply orb_false_iff in E. destruct E as [E1 E2].
  apply Z.ltb_ge in E1. apply Z.ltb_ge in E2.
  destruct Hin as [->|Hin]; [lia|].
  apply (IH _ c); assumption.
Qed.

Example Itoa_examples :
  Itoa 0 = "0" /\ Itoa 7 = "7" /\ Itoa 1234567890 = "1234567890"
  /\ Itoa (-45) = "-45".
Proof. repeat split; reflexivity. Qed.

(** With a table of names, the number of a group is looked up in it. *)
Lemma GroupNumberFromName_named re (names : gmap string Z) name :
  capnames re = Some names ->
  GroupNumberFromName re name = default (-1) (names !! name).
Proof.
  intros H. unfold GroupNumberFromName. rewrite H.
  destruct (names !! name); reflexivity.
Qed.

(** A name entered in the table is found with its number, and the other
    names are looked up as before. *)
Lemma GroupNumberFromName_insert re re' (names : gmap string Z) name k other :
  capnames re = Some names ->
  capnames re' = Some (<[name := k]> names) ->
  GroupNumberFromName re' name = k
  /\ (other <> name ->
      GroupNumberFromName re' other = GroupNumberFromName re other).
Proof.
  intros H H'.
  rewrite (GroupNumberFromName_named re' _ _ H').
  rewrite (GroupNumberFromName_named re' _ _ H').
  rewrite (GroupNumberFromName_named re _ _ H).
  rewrite lookup_insert_eq. split; [reflexivity|].
  intros Hne. rewrite lookup_insert_ne by congruence. reflexivity.
Qed.

(** ** The start position of a search *)

(** The loop of [getRunesAndStart]: it counts the scalars, collects them,
    and leaves in [runeIdx] the number of the scalar that starts at byte
    [startAt], when there is one. *)
Lemma runesAndStart_loop startAt l : forall i0 r0 ret0,
  exists r,
    fold_left (runesAndStart_step startAt) l (i0, r0, ret0)
    = (i0 + Z.of_nat (List.length l), r, ret0 ++ map snd l)
    /\ (~ In startAt (map fst l) -> r = r0)
    /\ (In startAt (map fst l) ->
        exists j, nth_error (map fst l) j = Some startAt
                  /\ r = i0 + Z.of_nat j).
Proof.
  induction l as [|p l IH]; intros i0 r0 ret0; cbn [fold_left].
  - exists r0. cbn [List.length map]. rewrite app_nil_r.
    replace (i0 + Z.of_nat 0) with i0 by lia.
    split; [reflexivity|]. split; [auto|intros []].
  - cbn [runesAndStart_step].
    destruct (IH (i0 + 1) (if fst p =? startAt then i0 else r0)
                 (ret0 ++ [snd p])) as (r & Heq & Hno & Hyes).
    destruct (in_dec Z.eq_dec startAt (map fst l)) as [Hin|Hnin].
    + exists r. rewrite Heq. cbn [List.length map].
      rewrite <- app_assoc. cbn [app].
      split; [f_equal; f_equal; lia|].
      split; [intros Hn; exfalso; apply Hn; right; assumption|].
      intros _. destruct (Hyes Hin) as (j & Hj & ->).
      exists (S j). split; [assumption|lia].
    + exists (if fst p =? startAt then i0 else r0).
      rewrite Heq. cbn [List.length map].
      rewrite <- app_assoc. cbn [app]. rewrite (Hno Hnin).
      split; [f_equal; f_equal; lia|].
      split.
      * intros Hn. destruct (fst p =? startAt) eqn:E; [|reflexivity].
        apply Z.eqb_eq in E. exfalso. apply Hn. left. assumption.
      * intros [Hp|Hin]; [|contradiction].
        rewrite Hp, Z.eqb_refl. exists 0%nat. cbn [nth_error].
        split; [reflexivity|lia].
Qed.

(** For a start that is not negative, [getRunesAndStart] returns the
    scalars of [s] and the number of the scalar that starts at byte
    [startAt], or -1 when none does. *)
Lemma getRunesAndStart_nonneg re s startAt :
  0 <= startAt ->
  fst (getRunesAndStart re s startAt) = getRunes s
  /\ (~ aligned s startAt -> snd (getRunesAndStart re s startAt) = -1)
  /\ (forall i, nth_error (runeStarts s) i = Some startAt ->
        snd (getRunesAndStart re s startAt) = Z.of_nat i).
Proof.
  intros H0. unfold getRunesAndStart.
  ztest (startAt <? 0) false.
  destruct (runesAndStart_loop startAt (rangeString s) 0 (-1) [])
    as (r & Heq & Hno & Hyes).
  rewrite Heq. cbn [fst snd app]. split; [reflexivity|].
  split; [exact Hno|].
  intros i Hi. fold (runeStarts s) in Hyes.
  destruct Hyes as (j & Hj & ->).
  { apply nth_error_In in Hi. exact Hi. }
  assert (i = j); [|subst; lia].
  pose proof (rangeFrom_NoDup (bytes s) 0 0%nat) as Hnd.
  fold (rangeString s) in Hnd. fold (runeStarts s) in Hnd.
  rewrite List.NoDup_nth_error in Hnd. apply Hnd; [|congruence].
  apply nth_error_Some. congruence.
Qed.

(** A negative start is mapped to the default start. *)
Lemma FindStringMatchStartingAt_negative re s k :
  k < 0 ->
  FindStringMatchStartingAt re s k
  = run re false (if RightToLeft re then lenR (getRunes s) else 0)
        (getRunes s).
Proof.
  intros Hk. unfold FindStringMatchStartingAt, getRunesAndStart.
  pose proof (getRunes_length s) as Hl.
  assert (0 <= lenR (getRunes s)) by (unfold lenR; lia).
  ztest (len s <? k) false.
  ztest (k <? 0) true.
  destruct (RightToLeft re); cbn zeta; cbn match.
  - ztest (lenR (getRunes s) =? -1) false.
    reflexivity.
  - reflexivity.
Qed.

(** The byte offset of the [i]-th scalar is mapped to the scalar index
    [i]. *)
Lemma FindStringMatchStartingAt_aligned re s k i :
  nth_error (runeStarts s) i = Some k ->
  FindStringMatchStartingAt re s k = run re false (Z.of_nat i) (getRunes s).
Proof.
  intros Hi. assert (Hal : aligned s k) by (eapply nth_error_In; eauto).
  apply aligned_range in Hal.
  destruct (getRunesAndStart_nonneg re s k) as (Hf & _ & Hs); [lia|].
  unfold FindStringMatchStartingAt.
  ztest (len s <? k) false.
  specialize (Hs i Hi).
  destruct (getRunesAndStart re s k) as [r st]. cbn [fst snd] in *.
  subst. ztest (Z.of_nat i =? -1) false.
  reflexivity.
Qed.

(** ** The loops of the facade *)

Lemma FindNextMatch_error re m om err :
  FindNextMatch re m = (om, Some err) -> err = ErrTimeout.
Proof.
  unfold FindNextMatch. destruct m as [m|]; [|discriminate].
  destruct (Length (group m) =? 0); [|apply run_error].
  destruct (textpos m =? lenR (text m)); [discriminate|apply run_error].
Qed.

(** The loop lists the first [k] matches of the chain. *)
Lemma findAllIndexLoop_chain re om ms :
  match_chain re om ms ->
  forall k acc,
    findAllIndexLoop re k om acc
    = acc ++ map (fun m => indexPair (group m)) (firstn k ms).
Proof.
  induction 1 as [|m ms Hc IH]; intros k acc.
  - destruct k; cbn; now rewrite app_nil_r.
  - destruct k as [|k]; cbn [findAllIndexLoop firstn map].
    + now rewrite app_nil_r.
    + cbn [Groups]. rewrite IH, <- app_assoc. reflexivity.
Qed.

Lemma findAllSubmatchLoop_chain re om ms :
  match_chain re om ms ->
  forall k acc,
    findAllSubmatchLoop re k om acc = acc ++ map submatchIndex (firstn k ms).
Proof.
  induction 1 as [|m ms Hc IH]; intros k acc.
  - destruct k; cbn; now rewrite app_nil_r.
  - destruct k as [|k]; cbn [findAllSubmatchLoop firstn map].
    + now rewrite app_nil_r.
    + rewrite IH, <- app_assoc. reflexivity.
Qed.

Lemma bind_not_OutOfFuel {A B : Type} (x : outcome A) (f : A -> outcome B) :
  x <> OutOfFuel -> (forall a, x = Done a -> f a <> OutOfFuel) ->
  bind x f <> OutOfFuel.
Proof.
  destruct x; cbn; intros Hx Hf; [apply Hf; reflexivity|discriminate|congruence].
Qed.

(** The guard of [replaceAll]: the callback is not applied to an empty
    match that starts where the previous match ended, unless it starts at
    position 0; the body of the loop then does the same whatever the
    callback is. *)
Lemma replaceAll_body_guard src m st repl repl' :
  Length (group m) = 0 ->
  Index (group m) = lastMatchEnd st ->
  Index (group m) <> 0 ->
  replaceAll_body src repl m st = replaceAll_body src repl' m st.
Proof.
  intros Hl Hi H0. unfold replaceAll_body. cbn [nth].
  rewrite Hl, Z.add_0_r, Hi, Z.ltb_irrefl.
  ztest (lastMatchEnd st =? 0) false.
  reflexivity.
Qed.

(** In every other case the callback is applied, to the buffer that holds
    the text up to the match. *)
Lemma replaceAll_body_applies src m st repl pre :
  lastMatchEnd st < Index (group m) + Length (group m)
  \/ Index (group m) = 0 ->
  slice src (lastMatchEnd st) (Index (group m)) = Done pre ->
  repl (buf st +:+ pre) (indexPair (group m)) = Panic ->
  replaceAll_body src repl m st = Panic.
Proof.
  intros Hc Hs Hr. unfold replaceAll_body. cbn [nth].
  rewrite Hs. cbn [bind].
  replace ((lastMatchEnd st <? Index (group m) + Length (group m))
           || (Index (group m) =? 0)) with true.
  - unfold indexPair in Hr. rewrite Hr. reflexivity.
  - symmetry. apply orb_true_iff.
    destruct Hc as [Hc|Hc]; [left; apply Z.ltb_lt | right; apply Z.eqb_eq];
      assumption.
Qed.

Lemma replaceAll_body_not_OutOfFuel src repl m st :
  (forall b a, repl b a <> OutOfFuel) ->
  replaceAll_body src repl m st <> OutOfFuel.
Proof.
  intros Hr. unfold replaceAll_body.
  apply bind_not_OutOfFuel; [apply slice_not_OutOfFuel|intros pre _].
  apply bind_not_OutOfFuel.
  - destruct (_ || _); [apply Hr|discriminate].
  - intros b2 _. apply bind_not_OutOfFuel; [apply slice_not_OutOfFuel|].
    intros rest _. discriminate.
Qed.

Lemma replaceAll_loop_None fuel re src repl st :
  replaceAll_loop fuel re src repl None st
  = (let* rest := slice src (lastMatchEnd st) (len src) in
     Done (buf st +:+ rest)).
Proof. destruct fuel; reflexivity. Qed.

(** The template ["$0"] is the single segment "group number 0". *)
Lemma NewReplacerData_whole re :
  1 <= capsize re ->
  NewReplacerData "$0" (caps re) (capsize re) (capnames re) (options re)
  = (Some [SegNumber 0], None).
Proof.
  intros Hc. unfold NewReplacerData.
  change (getRunes "$0") with [36; 48].
  change (tokens (S (List.length [36; 48])) [36; 48]) with [SegNumber 0].
  cbn [forallb segment_ok].
  ztest (0 <? capsize re) true.
  reflexivity.
Qed.

Lemma firstn_add {A : Type} (n m : nat) : forall l : list A,
  firstn n l ++ firstn m (skipn n l) = firstn (n + m) l.
Proof.
  induction n as [|n IH]; intros l; [reflexivity|].
  destruct l as [|x l]; cbn [firstn skipn Nat.add app].
  - now rewrite firstn_nil.
  - now rewrite IH.
Qed.

(** Two adjacent slices make one. *)
Lemma sliceR_app txt a b c :
  0 <= a <= b -> b <= c ->
  sliceR txt a b ++ sliceR txt b c = sliceR txt a c.
Proof.
  intros Hab Hbc. unfold sliceR.
  replace (Z.to_nat b) with (Z.to_nat (b - a) + Z.to_nat a)%nat by lia.
  rewrite <- skipn_skipn, firstn_add. f_equal. lia.
Qed.

Lemma sliceR_all txt : sliceR txt 0 (lenR txt) = txt.
Proof.
  unfold sliceR, lenR. cbn [Z.to_nat skipn].
  rewrite Z.sub_0_r, Nat2Z.id. apply firstn_all.
Qed.

(** When every match is replaced by its own text, the output is the
    input. *)
Lemma emit_whole re expand txt : forall ms prevat,
  (forall m, expand m = groupText m (group m)) ->
  0 <= prevat -> ordered re txt prevat ms ->
  emit expand txt prevat ms = sliceR txt prevat (lenR txt).
Proof.
  induction ms as [|m rest IH]; intros prevat Hex Hp Hord; cbn [emit];
    [reflexivity|].
  destruct Hord as (Hok & Hprev & Hrest).
  destruct Hok as (Ht & H0 & H1 & H2 & _).
  rewrite Hex, IH by (auto; lia). unfold groupText. rewrite Ht.
  rewrite sliceR_app by lia. rewrite sliceR_app by lia. reflexivity.
Qed.

Lemma collectMatches_step fuel re count m acc :
  count <> 0 ->
  collectMatches (S fuel) re count (Some m) acc
  = match FindNextMatch re (Some m) with
    | (_, Some err) => Done (acc ++ [m], Some err)
    | (next, None) => collectMatches fuel re (count - 1) next (acc ++ [m])
    end.
Proof.
  intros H. cbn [collectMatches]. apply Z.eqb_neq in H. rewrite H. reflexivity.
Qed.

Lemma collectMatches_None fuel re count acc :
  collectMatches fuel re count None acc = Done (acc, None).
Proof. destruct fuel; reflexivity. Qed.

(** An empty match at the end of the input has no next match, whatever
    the direction of the expression. *)
Lemma FindNextMatch_at_end re m :
  Length (group m) = 0 -> textpos m = lenR (text m) ->
  FindNextMatch re (Some m) = (None, None).
Proof.
  intros Hl Hp. unfold FindNextMatch. rewrite Hl, Hp, !Z.eqb_refl. reflexivity.
Qed.

(** ** Left-to-right expressions *)

Section LeftToRight.

(** A compiled expression that runs left to right. *)
Variable re : Regexp.
Hypothesis Hwf : WfRegexp re.
Hypothesis Hltr : RightToLeft re = false.

(** Left to right, the match after [m] is well placed and starts at
    least one scalar after the start of [m], and not before its end. *)
Lemma FindNextMatch_ltr input m m' e :
  match_ok re input m ->
  FindNextMatch re (Some m) = (Some m', e) ->
  e = None /\ match_ok re input m'
  /\ Index (group m) + 1 <= Index (group m')
  /\ Index (group m) + Length (group m) <= Index (group m').
Proof.
  intros (Ht & H0 & H1 & H2 & Hp). rewrite Hltr in Hp.
  unfold FindNextMatch. rewrite Hltr, Ht.
  destruct (Length (group m) =? 0) eqn:El.
  - apply Z.eqb_eq in El.
    destruct (textpos m =? lenR input) eqn:Ee; [discriminate|].
    apply Z.eqb_neq in Ee. intros Hrun.
    destruct (run_match_ok _ _ _ _ _ _ Hwf Hrun) as (-> & Hok & Hk).
    rewrite Hltr in Hk. split; [reflexivity|]. split; [assumption|]. lia.
  - apply Z.eqb_neq in El. intros Hrun.
    destruct (run_match_ok _ _ _ _ _ _ Hwf Hrun) as (-> & Hok & Hk).
    rewrite Hltr in Hk. split; [reflexivity|]. split; [assumption|]. lia.
Qed.

(** Left to right, [FindNextMatch] never returns the span of the match it
    is given. *)
Lemma FindNextMatch_ltr_new_span input m m' e :
  match_ok re input m ->
  FindNextMatch re (Some m) = (Some m', e) ->
  indexPair (group m') <> indexPair (group m).
Proof.
  intros Hok E.
  destruct (FindNextMatch_ltr _ _ _ _ Hok E) as (_ & _ & Hadv & _).
  unfold indexPair. intros [= H1 H2]. lia.
Qed.

(** Left to right the chain of successive matches is finite: it has at
    most one match per scalar left, and one more; and its matches are in
    order. *)
Lemma match_chain_ltr input :
  forall (n : nat) m prevat,
    match_ok re input m -> prevat <= Index (group m) ->
    (Z.to_nat (lenR input - Index (group m)) <= n)%nat ->
    exists ms, match_chain re (Some m) ms
      /\ (List.length ms <= S n)%nat
      /\ ordered re input prevat ms.
Proof.
  induction n as [|n IH]; intros m prevat Hok Hprev Hn.
  - destruct (FindNextMatch re (Some m)) as [[m'|] e] eqn:E.
    + destruct (FindNextMatch_ltr _ _ _ _ Hok E)
        as (_ & Hok' & Hadv & _).
      destruct Hok' as (_ & _ & Hl' & Hb' & _). lia.
    + exists [m]. split; [constructor; rewrite E; constructor|].
      cbn. split; [lia|]. tauto.
  - destruct (FindNextMatch re (Some m)) as [[m'|] e] eqn:E.
    + destruct (FindNextMatch_ltr _ _ _ _ Hok E)
        as (_ & Hok' & Hadv & Hend).
      destruct (IH m' (Index (group m) + Length (group m)) Hok' Hend)
        as (ms & Hc & Hlen & Hord); [lia|].
      exists (m :: ms). split; [constructor; rewrite E; exact Hc|].
      cbn [List.length ordered]. split; [lia|]. tauto.
    + exists [m]. split; [constructor; rewrite E; constructor|].
      cbn. split; [lia|]. tauto.
Qed.

(** For a well-formed left-to-right expression [FindAllStringIndex] lists
    the successive matches up to the first nil: all of them when [n < 0],
    the first [n] of them otherwise; and so does
    [FindAllStringSubmatchIndex]. *)
Lemma FindAll_ltr s n :
  exists ms, match_chain re (fst (FindStringMatch re s)) ms
    /\ FindAllStringIndex re s n
       = map (fun m => indexPair (group m))
             (if n <? 0 then ms else firstn (Z.to_nat n) ms)
    /\ FindAllStringSubmatchIndex re s n
       = map submatchIndex (if n <? 0 then ms else firstn (Z.to_nat n) ms).
Proof.
  assert (Hex : exists ms, match_chain re (fst (FindStringMatch re s)) ms
                  /\ (Z.of_nat (List.length ms) <= len s + 1)).
  { destruct (FindStringMatch re s) as [[m|] e] eqn:E; cbn [fst].
    - unfold FindStringMatch in E.
      destruct (run_match_ok _ _ _ _ _ _ Hwf E) as (_ & Hok & _).
      destruct (match_chain_ltr (getRunes s)
                  (Z.to_nat (lenR (getRunes s))) m 0 Hok) as (ms & Hc & Hl & _).
      + destruct Hok as (_ & H0 & _). exact H0.
      + destruct Hok as (_ & H0 & _). lia.
      + exists ms. split; [exact Hc|].
        pose proof (getRunes_length s). unfold lenR in *. lia.
    - exists []. split; [constructor|]. unfold len. cbn. lia. }
  destruct Hex as (ms & Hc & Hl). exists ms. split; [exact Hc|].
  unfold FindAllStringIndex, FindAllStringSubmatchIndex.
  rewrite (findAllIndexLoop_chain _ _ _ Hc), (findAllSubmatchLoop_chain _ _ _ Hc).
  cbn [app]. destruct (n <? 0) eqn:En; [|split; reflexivity].
  rewrite firstn_all2 by lia. split; reflexivity.
Qed.

(** Left to right, the loop ends within one iteration per scalar left
    after the current match, and one more. *)
Lemma replaceAll_loop_ltr src repl input :
  (forall b a, repl b a <> OutOfFuel) ->
  forall (fuel : nat) m st,
    match_ok re input m ->
    (Z.to_nat (lenR input - Index (group m)) < fuel)%nat ->
    replaceAll_loop fuel re src repl (Some m) st <> OutOfFuel.
Proof.
  intros Hr. induction fuel as [|f IH]; intros m st Hok Hf; [lia|].
  cbn [replaceAll_loop].
  apply bind_not_OutOfFuel; [apply replaceAll_body_not_OutOfFuel, Hr|].
  intros st' _.
  destruct (FindNextMatch re (Some m)) as [[m'|] e] eqn:E; cbn [fst].
  - destruct (FindNextMatch_ltr _ _ _ _ Hok E)
      as (_ & Hok' & Hadv & _).
    apply IH; [assumption|].
    destruct Hok' as (_ & _ & Hl' & Hb' & _). lia.
  - destruct f; cbn [replaceAll_loop];
      (apply bind_not_OutOfFuel; [apply slice_not_OutOfFuel|discriminate]).
Qed.

(** For a well-formed left-to-right expression [replaceAll] ends, with a
    number of iterations bounded by the number of scalars of the input. *)
Lemma replaceAll_ltr_ends src repl fuel :
  (forall b a, repl b a <> OutOfFuel) ->
  (Z.to_nat (len src) < fuel)%nat ->
  replaceAll fuel re src repl <> OutOfFuel.
Proof.
  intros Hr Hf. unfold replaceAll.
  destruct (FindStringMatch re src) as [[m|] e] eqn:E; cbn [fst].
  - unfold FindStringMatch in E.
    destruct (run_match_ok _ _ _ _ _ _ Hwf E) as (_ & Hok & _).
    apply (replaceAll_loop_ltr src repl (getRunes src)); auto.
    pose proof (getRunes_length src). destruct Hok as (_ & H0 & _). lia.
  - destruct fuel; cbn [replaceAll_loop];
      (apply bind_not_OutOfFuel; [apply slice_not_OutOfFuel|discriminate]).
Qed.

(** Left to right, with a callback that returns on every pair of
    positions inside the input, the loop of [replaceAll] returns. *)
Lemma replaceAll_loop_ltr_Done src repl :
  (forall b a0 a1, 0 <= a0 <= a1 -> a1 <= len src ->
     exists b', repl b [a0; a1] = Done b') ->
  forall (fuel : nat) m st,
    match_ok re (getRunes src) m ->
    (Z.to_nat (lenR (getRunes src) - Index (group m)) < fuel)%nat ->
    0 <= lastMatchEnd st <= Index (group m) ->
    0 <= searchPos st <= len src ->
    (lenR (getRunes src) = len src -> searchPos st <= Index (group m)) ->
    exists out, replaceAll_loop fuel re src repl (Some m) st = Done out.
Proof.
  intros Hrepl. pose proof (getRunes_length src) as Hlen.
  induction fuel as [|f IH]; intros m st Hok Hf Hlme Hsp Hall; [lia|].
  pose proof Hok as (_ & H0 & H1 & H2 & _).
  cbn [replaceAll_loop]. unfold replaceAll_body. cbn [nth].
  destruct (slice_Done src (lastMatchEnd st) (Index (group m)))
    as (pre & Hpre); [lia|lia|]. rewrite Hpre. cbn [bind].
  assert (Hb2 : exists b2,
    (if (lastMatchEnd st <? Index (group m) + Length (group m))
        || (Index (group m) =? 0)
     then repl (buf st +:+ pre)
            [Index (group m); Index (group m) + Length (group m)]
     else Done (buf st +:+ pre)) = Done b2).
  { destruct (_ || _); [apply Hrepl; lia|eexists; reflexivity]. }
  destruct Hb2 as (b2 & Hb2). rewrite Hb2. cbn [bind].
  destruct (slice_rest src (searchPos st) Hsp) as (rest & Hrest & Hbytes).
  rewrite Hrest. cbn [bind].
  destruct (width_at src (searchPos st) rest Hsp Hbytes) as (Hw & Hw1 & Hw2).
  set (w := snd (DecodeRuneInString rest)) in *.
  destruct (FindNextMatch re (Some m)) as [[m'|] e] eqn:E; cbn [fst].
  - destruct (FindNextMatch_ltr _ _ _ _ Hok E)
      as (_ & Hok' & Hadv & Hend).
    pose proof Hok' as (_ & H0' & H1' & H2' & _).
    apply IH; cbn [lastMatchEnd searchPos]; try assumption; try lia.
    + destruct (Index (group m) + Length (group m) <? searchPos st + w) eqn:B1;
        [apply Z.ltb_lt in B1; lia|apply Z.ltb_ge in B1].
      destruct (Index (group m) + Length (group m) <? searchPos st + 1) eqn:B2;
        [apply Z.ltb_lt in B2|apply Z.ltb_ge in B2; lia].
      assert (searchPos st = len src) by lia. lia.
    + intros Hfull. specialize (Hall Hfull). specialize (Hw2 Hfull).
      destruct (Index (group m) + Length (group m) <? searchPos st + w) eqn:B1;
        [apply Z.ltb_lt in B1; lia|apply Z.ltb_ge in B1].
      destruct (Index (group m) + Length (group m) <? searchPos st + 1) eqn:B2;
        [apply Z.ltb_lt in B2|apply Z.ltb_ge in B2; lia].
      lia.
  - rewrite replaceAll_loop_None. cbn [lastMatchEnd buf].
    destruct (slice_Done src (Index (group m) + Length (group m)) (len src))
      as (tl & Htl); [lia|lia|]. rewrite Htl. cbn [bind]. eexists; reflexivity.
Qed.

(** For a well-formed left-to-right expression, [ReplaceAllFunc] returns:
    its loop ends within one iteration per byte of the input and one more,
    and no slice expression is out of range. *)
Lemma ReplaceAllFunc_ltr_returns src repl fuel :
  (Z.to_nat (len src) < fuel)%nat ->
  exists out, ReplaceAllFunc fuel re src repl = Done out.
Proof.
  intros Hf. unfold ReplaceAllFunc, replaceAll.
  pose proof (getRunes_length src) as Hlen.
  destruct (FindStringMatch re src) as [[m|] e] eqn:E; cbn [fst].
  - unfold FindStringMatch in E.
    destruct (run_match_ok _ _ _ _ _ _ Hwf E) as (_ & Hok & _).
    pose proof Hok as (_ & H0 & H1 & H2 & _).
    apply (replaceAll_loop_ltr_Done src); auto; cbn; try lia.
    intros b a0 a1 Ha0 Ha1. cbn [nth].
    destruct (slice_Done src a0 a1) as (piece & Hp); [lia|lia|].
    rewrite Hp. cbn [bind]. eexists; reflexivity.
  - rewrite replaceAll_loop_None. cbn [lastMatchEnd buf].
    destruct (slice_Done src 0 (len src)) as (tl & Htl);
      [unfold len; lia|lia|].
    rewrite Htl. cbn [bind]. eexists; reflexivity.
Qed.

(** Left to right and without a bound on their number, the matches of a
    replacement are collected within one step per scalar left, and they
    are in order; or the runner timed out. *)
Lemma collectMatches_ltr input :
  forall (fuel : nat) m acc count prevat,
    count < 0 -> match_ok re input m -> prevat <= Index (group m) ->
    (Z.to_nat (lenR input - Index (group m)) < fuel)%nat ->
    (exists ms, collectMatches fuel re count (Some m) acc
                = Done (acc ++ ms, None)
                /\ ordered re input prevat ms)
    \/ (exists pre, collectMatches fuel re count (Some m) acc
                    = Done (pre, Some ErrTimeout)).
Proof.
  induction fuel as [|f IH];
    intros m acc count prevat Hc Hok Hprev Hf; [lia|].
  cbn [collectMatches].
  ztest (count =? 0) false.
  destruct (FindNextMatch re (Some m)) as [om [err|]] eqn:E.
  - right. apply FindNextMatch_error in E. subst err. eauto.
  - destruct om as [m'|].
    + destruct (FindNextMatch_ltr _ _ _ _ Hok E)
        as (_ & Hok' & Hadv & Hend).
      destruct (IH m' (acc ++ [m]) (count - 1)
                   (Index (group m) + Length (group m)))
        as [(ms & Heq & Hord)|(pre & Heq)]; auto; try lia.
      * destruct Hok' as (_ & _ & Hl' & Hb' & _). lia.
      * left. exists (m :: ms). rewrite Heq, <- app_assoc.
        split; [reflexivity|]. cbn [ordered]. tauto.
      * right. eauto.
    + left. exists [m]. split; [destruct f; reflexivity|].
      cbn [ordered]. tauto.
Qed.

End LeftToRight.

(** ** Right-to-left expressions *)

(** Right to left, after an empty match at the beginning of a non-empty
    input, [FindNextMatch] passes the start -1 to the runner: the very call
    [FindRunesMatch] makes to find the first match. *)
Lemma FindNextMatch_rtl_restart re m :
  RightToLeft re = true ->
  Length (group m) = 0 -> textpos m = 0 -> text m <> [] ->
  FindNextMatch re (Some m) = FindRunesMatch re (text m).
Proof.
  intros Hrtl Hl Hp Ht. unfold FindNextMatch, FindRunesMatch.
  rewrite Hl, Hp, Hrtl. cbn.
  destruct (text m) as [|c r]; [congruence|reflexivity].
Qed.

(** Right to left, whatever the compiled program: when the first match of
    a non-empty input is empty and sits at position 0, [FindNextMatch]
    returns that very match again. *)
Lemma FindNextMatch_rtl_fixpoint re txt m :
  RightToLeft re = true -> txt <> [] ->
  FindRunesMatch re txt = (Some m, None) ->
  text m = txt -> Length (group m) = 0 -> textpos m = 0 ->
  FindNextMatch re (Some m) = (Some m, None).
Proof.
  intros Hrtl Hne Hfirst Ht Hl Hp.
  rewrite FindNextMatch_rtl_restart by congruence.
  rewrite Ht. exact Hfirst.
Qed.

Lemma FindStringMatch_bos_rtl :
  FindStringMatch re_bos_rtl "a" = (Some m_bos, None).
Proof. reflexivity. Qed.

Lemma FindNextMatch_bos_rtl :
  FindNextMatch re_bos_rtl (Some m_bos) = (Some m_bos, None).
Proof. reflexivity. Qed.

(** The callback that [ReplaceAllFunc] hands to [replaceAll]. *)
Lemma replaceAll_bos_loop (repl : string -> string) fuel : forall sp b,
  0 <= sp <= 1 ->
  replaceAll_loop fuel re_bos_rtl "a"
    (fun dst m =>
       let* piece := slice "a" (nth 0 m 0) (nth 1 m 0) in
       Done (dst +:+ repl piece))
    (Some m_bos) {| lastMatchEnd := 0; searchPos := sp; buf := b |}
  = OutOfFuel.
Proof.
  induction fuel as [|f IH]; intros sp b Hsp; [reflexivity|].
  cbn [replaceAll_loop]. rewrite FindNextMatch_bos_rtl. cbn [fst].
  assert (Hb : replaceAll_body "a"
    (fun dst m =>
       let* piece := slice "a" (nth 0 m 0) (nth 1 m 0) in
       Done (dst +:+ repl piece))
    m_bos {| lastMatchEnd := 0; searchPos := sp; buf := b |}
    = Done {| lastMatchEnd := 0; searchPos := 1;
              buf := (b +:+ "") +:+ repl "" |}).
  { assert (Hc : sp = 0 \/ sp = 1) by lia.
    destruct Hc as [-> | ->]; reflexivity. }
  rewrite Hb. cbn [bind]. apply IH. lia.
Qed.

(** *** Right to left, away from the empty match at position 0 *)

Lemma ordered_snoc re input p : forall ms m,
  ordered re input p ms -> match_ok re input m ->
  lastEnd p ms <= Index (group m) ->
  ordered re input p (ms ++ [m])
  /\ lastEnd p (ms ++ [m]) = Index (group m) + Length (group m).
Proof.
  intros ms m Hord Hok Hle. split.
  - revert p Hord Hle. induction ms as [|x ms IH]; intros p Hord Hle.
    + cbn in *. tauto.
    + cbn [app ordered]. destruct Hord as (Hx & Hp & Hrest).
      split; [assumption|]. split; [assumption|].
      apply IH; [assumption|]. exact Hle.
  - unfold lastEnd. rewrite fold_left_app. reflexivity.
Qed.

(** Matches found from right to left are in text order once reversed. *)
Lemma descending_rev re input : forall ms bound,
  0 <= bound -> descending re input bound ms ->
  ordered re input 0 (rev ms) /\ lastEnd 0 (rev ms) <= bound.
Proof.
  induction ms as [|m rest IH]; intros bound Hb Hd.
  - cbn. split; [exact I|assumption].
  - destruct Hd as (Hok & Hend & Hrest). cbn [rev].
    pose proof Hok as (_ & H0 & _).
    destruct (IH (Index (group m)) H0 Hrest) as (Hord & Hle).
    destruct (ordered_snoc re input 0 (rev rest) m Hord Hok Hle) as (Ho & He).
    split; [exact Ho|]. rewrite He. exact Hend.
Qed.

Section RightToLeft.

(** A compiled expression that runs right to left, on an input at the
    beginning of which it does not match the empty string, unless the input
    is empty. *)
Variable re : Regexp.
Hypothesis Hwf : WfRegexp re.
Hypothesis Hrtl : RightToLeft re = true.
Variable input : list Z.
Hypothesis Hno : input <> [] -> forall cs, code re input 0 <> VMMatch 0 cs.

Lemma run_rtl_not_empty_at_0 quick k m e :
  run re quick k input = (Some m, e) ->
  Length (group m) = 0 -> Index (group m) = 0 -> input = [].
Proof.
  intros Hrun Hl Hi. unfold run in Hrun. apply scan_Some in Hrun.
  destruct Hrun as (_ & p & e' & cs & _ & Hp & ->).
  cbn [tidyMatch group Index Length] in Hl, Hi.
  assert (p = 0 /\ e' = 0) as (-> & ->) by lia.
  destruct input as [|c r] eqn:E; [reflexivity|].
  exfalso. apply (Hno ltac:(discriminate) cs). exact Hp.
Qed.

(** Right to left, the match after [m] ends at or before the start of
    [m], and before the end of [m]. *)
Lemma FindNextMatch_rtl_step m m' e :
  match_ok re input m ->
  (Length (group m) = 0 -> Index (group m) = 0 -> input = []) ->
  FindNextMatch re (Some m) = (Some m', e) ->
  e = None /\ match_ok re input m'
  /\ (Length (group m') = 0 -> Index (group m') = 0 -> input = [])
  /\ Index (group m') + Length (group m') <= Index (group m)
  /\ Index (group m') + Length (group m')
     < Index (group m) + Length (group m).
Proof.
  intros (Ht & H0 & H1 & H2 & Hp) Hns. rewrite Hrtl in Hp.
  unfold FindNextMatch. rewrite Hrtl, Ht.
  destruct (Length (group m) =? 0) eqn:El.
  - apply Z.eqb_eq in El.
    destruct (textpos m =? lenR input) eqn:Ee; [discriminate|].
    apply Z.eqb_neq in Ee.
    assert (Hpos : 1 <= Index (group m)).
    { destruct (Z.eq_dec (Index (group m)) 0) as [Hz|Hz]; [|lia].
      exfalso. apply Ee. rewrite (Hns El Hz). rewrite Hp, Hz. reflexivity. }
    intros Hrun.
    destruct (run_match_ok _ _ _ _ _ _ Hwf Hrun) as (-> & Hok & Hk).
    rewrite Hrtl in Hk. split; [reflexivity|]. split; [assumption|].
    split; [apply (run_rtl_not_empty_at_0 _ _ _ _ Hrun)|]. lia.
  - apply Z.eqb_neq in El. intros Hrun.
    destruct (run_match_ok _ _ _ _ _ _ Hwf Hrun) as (-> & Hok & Hk).
    rewrite Hrtl in Hk. split; [reflexivity|]. split; [assumption|].
    split; [apply (run_rtl_not_empty_at_0 _ _ _ _ Hrun)|]. lia.
Qed.

(** Right to left, the matches of a replacement are collected within one
    step per scalar left of the current match, and they follow one another
    from right to left; or the runner timed out. *)
Lemma collectMatches_rtl : forall (fuel : nat) m acc count bound,
  count < 0 -> match_ok re input m ->
  (Length (group m) = 0 -> Index (group m) = 0 -> input = []) ->
  Index (group m) + Length (group m) <= bound ->
  (Z.to_nat (Index (group m) + Length (group m)) < fuel)%nat ->
  (exists ms, collectMatches fuel re count (Some m) acc
              = Done (acc ++ ms, None)
              /\ descending re input bound ms)
  \/ (exists pre, collectMatches fuel re count (Some m) acc
                  = Done (pre, Some ErrTimeout)).
Proof.
  induction fuel as [|f IH];
    intros m acc count bound Hc Hok Hns Hb Hf; [lia|].
  cbn [collectMatches]. ztest (count =? 0) false.
  destruct (FindNextMatch re (Some m)) as [om [err|]] eqn:E.
  - right. apply FindNextMatch_error in E. subst err. eauto.
  - destruct om as [m'|].
    + destruct (FindNextMatch_rtl_step _ _ _ Hok Hns E)
        as (_ & Hok' & Hns' & Hle & Hlt).
      pose proof Hok' as (_ & H0' & H1' & _).
      destruct (IH m' (acc ++ [m]) (count - 1) (Index (group m)))
        as [(ms & Heq & Hd)|(pre & Heq)]; auto; try lia.
      * left. exists (m :: ms). rewrite Heq, <- app_assoc.
        split; [reflexivity|]. cbn [descending]. tauto.
      * right. eauto.
    + left. exists [m]. split; [destruct f; reflexivity|].
      cbn [descending]. tauto.
Qed.

(** Right to left too the chain of successive matches is then finite. *)
Lemma match_chain_rtl : forall (n : nat) m,
  match_ok re input m ->
  (Length (group m) = 0 -> Index (group m) = 0 -> input = []) ->
  (Z.to_nat (Index (group m) + Length (group m)) <= n)%nat ->
  exists ms, match_chain re (Some m) ms /\ (List.length ms <= S n)%nat.
Proof.
  induction n as [|n IH]; intros m Hok Hns Hn.
  - destruct (FindNextMatch re (Some m)) as [[m'|] e] eqn:E.
    + destruct (FindNextMatch_rtl_step _ _ _ Hok Hns E)
        as (_ & Hok' & _ & _ & Hlt).
      destruct Hok' as (_ & H0' & H1' & _). lia.
    + exists [m]. split; [constructor; rewrite E; constructor|]. cbn. lia.
  - destruct (FindNextMatch re (Some m)) as [[m'|] e] eqn:E.
    + destruct (FindNextMatch_rtl_step _ _ _ Hok Hns E)
        as (_ & Hok' & Hns' & _ & Hlt).
      destruct (IH m' Hok' Hns') as (ms & Hc & Hl); [lia|].
      exists (m :: ms). split; [constructor; rewrite E; exact Hc|].
      cbn [List.length]. lia.
    + exists [m]. split; [constructor; rewrite E; constructor|]. cbn. lia.
Qed.

End RightToLeft.

(** For a well-formed right-to-left expression that does not match the
    empty string at the beginning of a non-empty input, the All functions
    list the successive matches up to the first nil, as they do left to
    right. *)
Lemma FindAll_rtl re s n :
  WfRegexp re -> RightToLeft re = true ->
  (getRunes s <> [] -> forall cs, code re (getRunes s) 0 <> VMMatch 0 cs) ->
  exists ms, match_chain re (fst (FindStringMatch re s)) ms
    /\ FindAllStringIndex re s n
       = map (fun m => indexPair (group m))
             (if n <? 0 then ms else firstn (Z.to_nat n) ms)
    /\ FindAllStringSubmatchIndex re s n
       = map submatchIndex (if n <? 0 then ms else firstn (Z.to_nat n) ms).
Proof.
  intros Hwf Hrtl Hno.
  assert (Hex : exists ms, match_chain re (fst (FindStringMatch re s)) ms
                  /\ (Z.of_nat (List.length ms) <= len s + 1)).
  { destruct (FindStringMatch re s) as [[m|] e] eqn:E; cbn [fst].
    - unfold FindStringMatch in E.
      destruct (run_match_ok _ _ _ _ _ _ Hwf E) as (_ & Hok & _).
      pose proof Hok as (_ & H0 & H1 & H2 & _).
      destruct (match_chain_rtl re Hwf Hrtl (getRunes s) Hno
                  (Z.to_nat (lenR (getRunes s))) m Hok) as (ms & Hc & Hl).
      + apply (run_rtl_not_empty_at_0 re (getRunes s) Hno _ _ _ _ E).
      + lia.
      + exists ms. split; [exact Hc|].
        pose proof (getRunes_length s). unfold lenR in *. lia.
    - exists []. split; [constructor|]. unfold len. cbn. lia. }
  destruct Hex as (ms & Hc & Hl). exists ms. split; [exact Hc|].
  unfold FindAllStringIndex, FindAllStringSubmatchIndex.
  rewrite (findAllIndexLoop_chain _ _ _ Hc), (findAllSubmatchLoop_chain _ _ _ Hc).
  cbn [app]. destruct (n <? 0) eqn:En; [|split; reflexivity].
  rewrite firstn_all2 by lia. split; reflexivity.
Qed.

(** ** The bitmap of QuoteMeta *)

Lemma nth_repeat_zero i n : nth i (repeat 0 n) 0 = 0.
Proof.
  revert i. induction n as [|n IH]; intros [|i]; simpl; auto.
Qed.

(** With the bitmap as the file declares it, no byte is special. *)
Lemma special_zero_table b : special specialBytes b = false.
Proof.
  unfold special, specialBytes. rewrite nth_repeat_zero.
  rewrite Z.land_0_l. simpl. apply andb_false_r.
Qed.

Lemma firstSpecial_zero_table s :
  firstSpecial specialBytes s = String.length s.
Proof.
  induction s as [|c s IH]; simpl; [reflexivity|].
  rewrite special_zero_table. congruence.
Qed.

(** ** The claims *)

(** *** C1: a string that matches has a match inside it *)



(** *** C2: the match after an empty match *)

(** The same happens with every right-to-left expression that matches
    the empty string at position 0: the matches of [a*] in ["ba"] come
    round again and again. *)
Example FindAllStringIndex_astar_rtl :
  FindAllStringIndex re_astar_rtl "ba" 7
  = [[1; 2]; [1; 1]; [0; 0]; [1; 2]; [1; 1]; [0; 0]; [1; 2]].
Proof. vm_compute. reflexivity. Qed.

(** C2.  [FindNextMatch] is meant never to return the span of the match
    it is given.  For the right-to-left expression [\A] on ["a"] the first
    match is empty at position 0, which is not the end of the input;
    [FindNextMatch] moves the start back to -1, which the runner takes for
    the default start, and the same match comes back: the same span twice
    in a row, and so for ever. *)
Theorem FindNextMatch_rtl_same_span :
  RightToLeft re_bos_rtl = true
  /\ exists m,
       FindStringMatch re_bos_rtl "a" = (Some m, None)
       /\ indexPair (group m) = [0; 0]
       /\ FindNextMatch re_bos_rtl (Some m) = (Some m, None).
Proof.
  split; [reflexivity|]. exists m_bos.
  split; [exact FindStringMatch_bos_rtl|].
  split; [reflexivity|exact FindNextMatch_bos_rtl].
Qed.

(** *** C3: QuoteMeta *)

(** C3.  [QuoteMeta] is documented to escape every metacharacter, so that
    the result is an expression matching the text literally.  With the
    bitmap [specialBytes] as this file leaves it, it returns every string
    unchanged: the parenthesis of ["("] is not escaped (and ["("] is not a
    well-formed expression), whereas the same code over the bitmap of
    Go's [regexp] package returns ["\("]. *)
Theorem QuoteMeta_escapes_nothing :
  (forall s, QuoteMeta specialBytes s = s)
  /\ QuoteMeta specialBytes "(" = "("
  /\ QuoteMeta goSpecialBytes "(" = "\(".
Proof.
  split; [|split; reflexivity].
  intros s. unfold QuoteMeta. rewrite firstSpecial_zero_table.
  now rewrite Nat.leb_refl.
Qed.

(** *** C4: the start position of [FindStringMatchStartingAt] *)




(** *** C5: all matches *)

(** C5.  [FindAllStringIndex] with [n = -1] is meant to go through the
    successive matches until find-next returns nil.  For the right-to-left
    expression [\A] on ["a"] find-next never returns nil; the loop is cut by
    the cap [len(s) + 1 = 2], and the only match of the input is listed
    twice.  [FindAllStringSubmatchIndex] does the same. *)
Theorem FindAll_rtl_repeats :
  FindAllStringIndex re_bos_rtl "a" (-1) = [[0; 0]; [0; 0]]
  /\ FindAllStringSubmatchIndex re_bos_rtl "a" (-1) = [[0; 0]; [0; 0]].
Proof. split; vm_compute; reflexivity. Qed.

(** *** C6: replacing every match by itself *)

(** C6 as stated fails: the string made of the byte 0xFF alone is decoded
    to the scalar U+FFFD before matching; the empty expression matches, and
    the output holds the three bytes of U+FFFD instead of the input. *)
Lemma Replace_invalid_utf8_counterexample :
  ~ (exists fuel,
       Replace fuel re_empty s_invalid "$0" (-1) (-1) = Done (s_invalid, None)).
Proof.
  intros (fuel & H). destruct fuel as [|[|fuel]];
    [vm_compute in H; discriminate..|].
  unfold Replace in H.
  rewrite NewReplacerData_whole in H by (vm_compute; discriminate).
  unfold replace in H.
  assert (E : FindStringMatchStartingAt re_empty s_invalid (-1)
              = (Some (mkMatch [65533] 0 (mkGroup 0 0) []), None))
    by reflexivity.
  assert (E0 : FindNextMatch re_empty (Some (mkMatch [65533] 0 (mkGroup 0 0) []))
               = (Some (mkMatch [65533] 1 (mkGroup 1 0) []), None))
    by reflexivity.
  assert (E1 : FindNextMatch re_empty (Some (mkMatch [65533] 1 (mkGroup 1 0) []))
               = (None, None))
    by reflexivity.
  rewrite E in H.
  rewrite collectMatches_step, E0 in H by discriminate.
  rewrite collectMatches_step, E1 in H by discriminate.
  rewrite collectMatches_None in H.
  vm_compute in H. discriminate.
Qed.

(** When no attempt of the program on an input times out, the scan
    reports no error, and a match it finds is a match on that input. *)
Lemma scan_no_timeout vm input quick cands om e :
  (forall p, vm input p <> VMTimeout) ->
  scan vm input quick cands = (om, e) ->
  e = None /\ (forall m, om = Some m -> text m = input).
Proof.
  intros Hno. induction cands as [|p rest IH]; cbn [scan].
  - intros [= <- <-]. split; [reflexivity|discriminate].
  - pose proof (Hno p) as Hp.
    destruct (vm input p) as [| |e' cs]; [exact IH|congruence|].
    intros [= <- <-]. split; [reflexivity|].
    intros m [= <-]. reflexivity.
Qed.

Lemma FindNextMatch_no_timeout re m om e :
  (forall p, code re (text m) p <> VMTimeout) ->
  FindNextMatch re (Some m) = (om, e) ->
  e = None /\ (forall m', om = Some m' -> text m' = text m).
Proof.
  intros Hno. unfold FindNextMatch, run.
  destruct (Length (group m) =? 0).
  - destruct (textpos m =? lenR (text m)).
    + intros [= <- <-]. split; [reflexivity|discriminate].
    + apply scan_no_timeout, Hno.
  - apply scan_no_timeout, Hno.
Qed.

(** Without a timeout the matches of a replacement are collected without
    an error. *)
Lemma collectMatches_no_timeout re : forall (fuel : nat) m acc count r,
  (forall p, code re (text m) p <> VMTimeout) ->
  collectMatches fuel re count (Some m) acc = Done r -> snd r = None.
Proof.
  induction fuel as [|f IH]; intros m acc count r Hno; cbn [collectMatches].
  - destruct (count =? 0); [intros [= <-]; reflexivity|discriminate].
  - destruct (count =? 0); [intros [= <-]; reflexivity|].
    destruct (FindNextMatch re (Some m)) as [om e] eqn:E.
    destruct (FindNextMatch_no_timeout re m om e Hno E) as (-> & Ht).
    destruct om as [m'|].
    + apply IH. rewrite (Ht m' eq_refl). exact Hno.
    + rewrite collectMatches_None. intros [= <-]. reflexivity.
Qed.

(** The matcher for syntax trees has no clock: it never times out. *)
Lemma treeCode_no_timeout rtl t input p : treeCode rtl t input p <> VMTimeout.
Proof.
  unfold treeCode. destruct (exec _ _ _ _ _ _) as [[e c]|]; discriminate.
Qed.

(** C6, amended.  For every expression [P] and every input [S] that is
    well-formed UTF-8, that is, equal to the encoding of its own scalars,
    when no attempt to match on [S] times out, replacing every match by the
    template ["$0"] returns [S] unchanged; provided that a right-to-left
    [P] does not match the empty string at the very beginning of a
    non-empty [S].  (One step of fuel per byte of [S], and one more, is
    enough.) *)
Theorem Replace_whole_match (re : Regexp) (S : string) (fuel : nat) :
  WfRegexp re ->
  stringOfRunes (getRunes S) = S ->
  (forall p, code re (getRunes S) p <> VMTimeout) ->
  (RightToLeft re = true -> getRunes S <> [] ->
   forall cs, code re (getRunes S) 0 <> VMMatch 0 cs) ->
  (Z.to_nat (len S) < fuel)%nat ->
  Replace fuel re S "$0" (-1) (-1) = Done (S, None).
Proof.
  intros Hwf Hutf Hnt Hno Hfuel. unfold Replace.
  rewrite NewReplacerData_whole by (destruct Hwf; assumption).
  unfold replace.
  rewrite FindStringMatchStartingAt_negative by lia.
  pose proof (getRunes_length S) as Hlen.
  assert (Hex : forall m : Match,
    replacementFor re (Some [SegNumber 0]) None m = groupText m (group m)).
  { intros m. cbn. apply app_nil_r. }
  assert (Hemit : forall ms,
    ordered re (getRunes S) 0 ms ->
    stringOfRunes
      (emit (replacementFor re (Some [SegNumber 0]) None) (getRunes S) 0 ms)
    = S).
  { intros ms Hord.
    rewrite (emit_whole re (replacementFor re (Some [SegNumber 0]) None)
               (getRunes S) ms 0 Hex (Z.le_refl 0) Hord).
    rewrite sliceR_all. exact Hutf. }
  assert (Hcoll : forall m r,
    text m = getRunes S ->
    collectMatches fuel re (-1) (Some m) [] = Done r -> snd r = None).
  { intros m r Ht. apply collectMatches_no_timeout. rewrite Ht. exact Hnt. }
  unfold ReplacerData.
  destruct (RightToLeft re) eqn:Hdir.
  - specialize (Hno eq_refl).
    destruct (run re false (lenR (getRunes S)) (getRunes S))
      as [om err] eqn:Hrun.
    pose proof Hrun as Hrun'. unfold run in Hrun'.
    destruct (scan_no_timeout _ _ _ _ _ _ Hnt Hrun') as (-> & Htext).
    destruct om as [m|]; [|reflexivity].
    destruct (run_match_ok _ _ _ _ _ _ Hwf Hrun) as (_ & Hok & Hk).
    rewrite Hdir in Hk.
    assert (Hb : Index (group m) + Length (group m) <= lenR (getRunes S))
      by (apply Hk; unfold lenR; lia).
    destruct (collectMatches_rtl re Hwf Hdir (getRunes S) Hno fuel m []
                (-1) (lenR (getRunes S)))
      as [(ms & Heq & Hd)|(pre & Heq)]; auto; try lia.
    + apply (run_rtl_not_empty_at_0 re (getRunes S) Hno _ _ _ _ Hrun).
    + rewrite Heq. cbn [bind app].
      destruct (descending_rev re (getRunes S) ms (lenR (getRunes S)))
        as (Hord & _); [unfold lenR; lia|assumption|].
      rewrite (Hemit _ Hord). reflexivity.
    + apply (Hcoll m _ (Htext m eq_refl)) in Heq. discriminate.
  - destruct (run re false 0 (getRunes S)) as [om err] eqn:Hrun.
    pose proof Hrun as Hrun'. unfold run in Hrun'.
    destruct (scan_no_timeout _ _ _ _ _ _ Hnt Hrun') as (-> & Htext).
    destruct om as [m|]; [|reflexivity].
    destruct (run_match_ok _ _ _ _ _ _ Hwf Hrun) as (_ & Hok & Hk).
    rewrite Hdir in Hk. specialize (Hk (Z.le_refl 0)).
    destruct (collectMatches_ltr re Hwf Hdir (getRunes S) fuel m [] (-1) 0)
      as [(ms & Heq & Hord)|(pre & Heq)]; auto; try lia.
    + rewrite Heq. cbn [bind app]. rewrite (Hemit _ Hord). reflexivity.
    + apply (Hcoll m _ (Htext m eq_refl)) in Heq. discriminate.
Qed.

(** C6 amended, at the right-to-left expression [a] on ["aab"]. *)
Lemma Replace_whole_match_witness :
  WfRegexp re_a_rtl
  /\ stringOfRunes (getRunes "aab") = "aab"
  /\ (forall p, code re_a_rtl (getRunes "aab") p <> VMTimeout)
  /\ (forall cs, code re_a_rtl (getRunes "aab") 0 <> VMMatch 0 cs)
  /\ Replace 4 re_a_rtl "aab" "$0" (-1) (-1) = Done ("aab", None).
Proof.
  assert (Hnt : forall p, code re_a_rtl (getRunes "aab") p <> VMTimeout)
    by (intros p; apply treeCode_no_timeout).
  split; [apply CompileTree_wf|].
  split; [reflexivity|]. split; [exact Hnt|].
  split; [intros cs; vm_compute; discriminate|].
  apply (Replace_whole_match re_a_rtl "aab" 4).
  - apply CompileTree_wf.
  - reflexivity.
  - exact Hnt.
  - intros _ _ cs. vm_compute. discriminate.
  - vm_compute. lia.
Defined.

(** *** C7: replacement through a callback *)

(** C7.  Replacement through a callback is meant to move on after every
    match, so that the callback is applied a bounded number of times.  For
    the right-to-left expression [\A] on ["a"] the loop of [replaceAll]
    never ends: find-next returns the same empty match at position 0 again
    and again, the callback is applied to it every time, and no amount of
    fuel lets [ReplaceAllFunc] return. *)
Theorem ReplaceAllFunc_rtl_unbounded :
  forall (fuel : nat) (repl : string -> string),
    ReplaceAllFunc fuel re_bos_rtl "a" repl = OutOfFuel.
Proof.
  intros fuel repl. unfold ReplaceAllFunc, replaceAll.
  rewrite FindStringMatch_bos_rtl. cbn [fst].
  apply replaceAll_bos_loop. lia.
Qed.

(** *** C8: names and numbers of unnamed groups *)

(** C8 as stated fails: for the expression with the single slot 0, the
    name ["00"] is not the name of any group, and yet
    [GroupNumberFromName] does not return -1 for it. *)
Lemma GroupNumberFromName_unrecognized_counterexample :
  ~ (forall name, ~ group_name re_empty name ->
       GroupNumberFromName re_empty name = -1).
Proof.
  intros H. specialize (H "00").
  assert (Hn : ~ group_name re_empty "00").
  { intros (k & Hk & Hname). change (capsize re_empty) with 1 in Hk.
    assert (k = 0) by lia. subst k. vm_compute in Hname. discriminate. }
  specialize (H Hn). vm_compute in H. discriminate.
Qed.

(** C8, amended.  For a compiled expression without named groups:
    [GroupNumberFromName] maps the decimal representation of [k] to [k]
    whenever [0 <= k < capsize]; it returns -1 for every name that holds a
    byte other than a decimal digit; it never returns anything but -1 or a
    valid slot number; and [GroupNameFromNumber] returns the decimal string
    of a valid slot number and the empty string for every other number.
    (A name made of digits only that is not the decimal representation of a
    slot, such as the empty name or a name with leading zeros, is read as a
    number and not rejected.) *)
Theorem GroupNumberFromName_unnamed (re : Regexp) :
  capnames re = None -> capslist re = None -> capsize re <= 2 ^ 63 ->
  (forall k, 0 <= k < capsize re -> GroupNumberFromName re (Itoa k) = k)
  /\ (forall name c, In c (list_ascii_of_string name) ->
        byteZ c < 48 \/ 57 < byteZ c -> GroupNumberFromName re name = -1)
  /\ (forall name, GroupNumberFromName re name = -1
        \/ 0 <= GroupNumberFromName re name < capsize re)
  /\ (forall k, 0 <= k < capsize re -> GroupNameFromNumber re k = Itoa k)
  /\ (forall k, ~ 0 <= k < capsize re -> GroupNameFromNumber re k = "").
Proof.
  intros Hn Hl Hc. unfold GroupNumberFromName, GroupNameFromNumber.
  rewrite Hn, Hl. repeat split.
  - intros k Hk. rewrite Itoa_digitsLoop by lia.
    ztest (0 <=? k) true.
    ztest (k <? capsize re) true.
    reflexivity.
  - intros name c Hin Hcd. rewrite (digitsLoop_not_digit name 0 c) by assumption.
    reflexivity.
  - intros name. destruct (digitsLoop 0 name) as [v|]; [|left; reflexivity].
    destruct ((0 <=? v) && (v <? capsize re)) eqn:E; [|left; reflexivity].
    apply andb_true_iff in E. destruct E as [E1 E2].
    apply Z.leb_le in E1. apply Z.ltb_lt in E2. right. lia.
  - intros k Hk.
    ztest (0 <=? k) true.
    ztest (k <? capsize re) true.
    reflexivity.
  - intros k Hk.
    destruct ((0 <=? k) && (k <? capsize re)) eqn:E; [|reflexivity].
    apply andb_true_iff in E. destruct E as [E1 E2].
    apply Z.leb_le in E1. apply Z.ltb_lt in E2. lia.
Qed.

(** C8 amended, at the expression [p([a-z]+)ch], which has the slots 0
    and 1. *)
Lemma GroupNumberFromName_unnamed_witness :
  capnames re_peach = None /\ capslist re_peach = None
  /\ capsize re_peach <= 2 ^ 63
  /\ GroupNumberFromName re_peach (Itoa 1) = 1
  /\ GroupNumberFromName re_peach "x1" = -1
  /\ GroupNameFromNumber re_peach 1 = Itoa 1
  /\ GroupNameFromNumber re_peach 2 = "".
Proof.
  assert (Hc : capsize re_peach = 2) by reflexivity.
  split; [reflexivity|]. split; [reflexivity|].
  split; [rewrite Hc; lia|].
  destruct (GroupNumberFromName_unnamed re_peach) as (H1 & H2 & _ & H4 & H5).
  - reflexivity.
  - reflexivity.
  - rewrite Hc. lia.
  - split; [apply H1; rewrite Hc; lia|].
    split; [apply (H2 "x1" "x"%char); [simpl; auto | vm_compute; right; reflexivity]|].
    split; [apply H4; rewrite Hc; lia|].
    apply H5. rewrite Hc. lia.
Defined.

(** *** C9: no next match after no match *)

(** C9. [FindNextMatch] called with a nil match returns (nil, nil), no
    match and no error, whatever the expression. *)
Theorem FindNextMatch_nil (re : Regexp) :
  FindNextMatch re None = (None, None).
Proof. reflexivity. Qed.

(** *** C10: the empty name *)

(** C10. For a compiled expression without a table of capture names,
    [GroupNumberFromName] applied to the empty string returns 0, the slot of
    the whole match, and not -1: the loop over the digits accepts the empty
    name. *)
Theorem GroupNumberFromName_empty (re : Regexp) :
  capnames re = None -> 1 <= capsize re ->
  GroupNumberFromName re "" = 0.
Proof.
  intros Hn Hc. unfold GroupNumberFromName. rewrite Hn.
  cbn [digitsLoop].
  ztest (0 <? capsize re) true.
  reflexivity.
Qed.

(** C10, at the expression [p([a-z]+)ch]. *)
Lemma GroupNumberFromName_empty_witness :
  capnames re_peach = None /\ 1 <= capsize re_peach
  /\ GroupNumberFromName re_peach "" = 0.
Proof.
  split; [reflexivity|]. split; [vm_compute; discriminate|].
  apply (GroupNumberFromName_empty re_peach).
  - reflexivity.
  - vm_compute; discriminate.
Defined.

(** * Part III: further properties of the facade *)

(** ** The scalars of a string *)

(** A scalar takes at most four bytes. *)
Lemma rangeFrom_length_lower bs : forall idx skip,
  (skip <= 3)%nat ->
  (List.length bs <= 4 * List.length (rangeFrom bs idx skip) + skip)%nat.
Proof.
  induction bs as [|b t IH]; intros idx skip Hs; cbn [rangeFrom List.length];
    [lia|].
  destruct skip as [|k].
  - pose proof (DecodeRune_width_pos (b :: t)) as Hw.
    assert (Hne : b :: t <> []) by discriminate. specialize (Hw Hne).
    specialize (IH (idx + 1) (Z.to_nat (snd (DecodeRune (b :: t)) - 1))).
    cbn [List.length]. lia.
  - specialize (IH (idx + 1) k). lia.
Qed.

(** X1.  [getRunes] returns at most one scalar per byte of the string, so
    that the assignments [ret[i] = r] stay inside the buffer
    [make([]rune, len(s))], and at least one scalar per four bytes; the
    result is empty only for the empty string. *)
Theorem getRunes_count (s : string) :
  lenR (getRunes s) <= len s <= 4 * lenR (getRunes s).
Proof.
  split; [apply getRunes_length|].
  unfold lenR, len, getRunes, rangeString. rewrite length_map.
  pose proof (rangeFrom_length_lower (bytes s) 0 0%nat) as H.
  rewrite length_bytes in H. lia.
Qed.

(** Bits put together with [|] above and below position [n] add up. *)
Lemma lor_shiftl hi lo n :
  0 <= n -> 0 <= lo < 2 ^ n ->
  Z.lor (Z.shiftl hi n) lo = hi * 2 ^ n + lo.
Proof.
  intros Hn Hlo. rewrite Z.shiftl_mul_pow2 by assumption.
  symmetry. apply Z.add_nocarry_lor.
  apply Z.bits_inj'. intros m Hm.
  rewrite Z.land_spec, Z.bits_0.
  destruct (Z.lt_ge_cases m n) as [Hlt|Hge].
  - rewrite Z.mul_pow2_bits_low by assumption. reflexivity.
  - destruct (Z.eq_dec lo 0) as [->|Hne];
      [rewrite Z.bits_0; apply andb_false_r|].
    rewrite (Z.bits_above_log2 lo m); [apply andb_false_r|lia|].
    apply Z.lt_le_trans with n; [|assumption].
    apply Z.log2_lt_pow2; lia.
Qed.

(** The mask [2^n - 1] keeps the [n] low bits. *)
Lemma land_low a n : 0 <= n -> Z.land a (2 ^ n - 1) = a mod 2 ^ n.
Proof.
  intros Hn. rewrite <- Z.land_ones by assumption.
  f_equal. rewrite Z.ones_equiv. lia.
Qed.

Lemma isCont_iff b : isCont b = true <-> 128 <= b <= 191.
Proof. unfold isCont. rewrite andb_true_iff, !Z.leb_le. tauto. Qed.

(** The scalar of an encoding of two, three and four bytes, in
    arithmetic. *)
Lemma scalar2 s0 s1 :
  Z.lor (Z.shiftl (Z.land s0 31) 6) (Z.land s1 63)
  = s0 mod 32 * 64 + s1 mod 64.
Proof.
  change 31 with (2 ^ 5 - 1). change 63 with (2 ^ 6 - 1).
  rewrite !land_low by lia. rewrite lor_shiftl; [reflexivity|lia|].
  apply Z.mod_pos_bound. reflexivity.
Qed.

Lemma scalar3 s0 s1 s2 :
  Z.lor (Z.shiftl (Z.land s0 15) 12)
    (Z.lor (Z.shiftl (Z.land s1 63) 6) (Z.land s2 63))
  = s0 mod 16 * 4096 + s1 mod 64 * 64 + s2 mod 64.
Proof.
  change 15 with (2 ^ 4 - 1). change 63 with (2 ^ 6 - 1).
  rewrite !land_low by lia.
  pose proof (Z.mod_pos_bound s1 (2 ^ 6)).
  pose proof (Z.mod_pos_bound s2 (2 ^ 6)).
  rewrite (lor_shiftl _ _ 6) by lia.
  rewrite lor_shiftl by lia.
  change (2 ^ 12) with 4096. change (2 ^ 6) with 64. change (2 ^ 4) with 16.
  lia.
Qed.

Lemma scalar4 s0 s1 s2 s3 :
  Z.lor (Z.shiftl (Z.land s0 7) 18)
    (Z.lor (Z.shiftl (Z.land s1 63) 12)
       (Z.lor (Z.shiftl (Z.land s2 63) 6) (Z.land s3 63)))
  = s0 mod 8 * 262144 + s1 mod 64 * 4096 + s2 mod 64 * 64 + s3 mod 64.
Proof.
  change 7 with (2 ^ 3 - 1). change 63 with (2 ^ 6 - 1).
  rewrite !land_low by lia.
  pose proof (Z.mod_pos_bound s1 (2 ^ 6)).
  pose proof (Z.mod_pos_bound s2 (2 ^ 6)).
  pose proof (Z.mod_pos_bound s3 (2 ^ 6)).
  rewrite (lor_shiftl _ _ 6) by lia.
  rewrite (lor_shiftl _ _ 12) by lia.
  rewrite lor_shiftl by lia.
  change (2 ^ 18) with 262144. change (2 ^ 12) with 4096.
  change (2 ^ 6) with 64. change (2 ^ 3) with 8.
  lia.
Qed.

(** [bools] turns the boolean tests among the hypotheses into
    propositions. *)
Ltac bools :=
  repeat match goal with
         | H : _ && _ = true |- _ => apply andb_true_iff in H; destruct H
         | H : _ || _ = false |- _ => apply orb_false_iff in H; destruct H
         | H : isCont _ = true |- _ => apply isCont_iff in H
         | H : (_ <? _) = true |- _ => apply Z.ltb_lt in H
         | H : (_ <? _) = false |- _ => apply Z.ltb_ge in H
         | H : (_ <=? _) = true |- _ => apply Z.leb_le in H
         | H : (_ <=? _) = false |- _ => apply Z.leb_gt in H
         | H : (_ =? _) = true |- _ => apply Z.eqb_eq in H
         | H : (_ =? _) = false |- _ => apply Z.eqb_neq in H
         end.

Lemma ValidRune_iff r :
  ValidRune r = true <-> 0 <= r <= 1114111 /\ ~ 55296 <= r <= 57343.
Proof.
  unfold ValidRune.
  rewrite orb_true_iff, !andb_true_iff, !Z.leb_le, !Z.ltb_lt. lia.
Qed.

(** Whatever the bytes, the scalar that [DecodeRune] returns is valid:
    overlong encodings, surrogates and values above U+10FFFF are turned
    into U+FFFD. *)
Lemma DecodeRune_valid bs :
  (forall b, In b bs -> 0 <= b < 256) ->
  ValidRune (fst (DecodeRune bs)) = true.
Proof.
  intros Hb. apply ValidRune_iff.
  destruct bs as [|s0 t]; [unfold DecodeRune, RuneError; cbn; lia|].
  assert (H0 : 0 <= s0 < 256) by (apply Hb; left; reflexivity).
  unfold DecodeRune, RuneSelf, RuneError.
  destruct (s0 <? 128) eqn:E1; [bools; cbn; lia|].
  destruct ((s0 <? 194) || (244 <? s0)) eqn:E2; [cbn; lia|].
  destruct (s0 <? 224) eqn:E3.
  { destruct t as [|s1 t]; [cbn; lia|].
    destruct (isCont s1) eqn:C1; [|cbn; lia].
    cbn [fst]. rewrite scalar2. bools. Z.div_mod_to_equations. lia. }
  destruct (s0 <? 240) eqn:E4.
  { destruct t as [|s1 [|s2 t]]; try (cbn; lia).
    destruct ((acceptLo s0 <=? s1) && (s1 <=? acceptHi s0) && isCont s2) eqn:C;
      [|cbn; lia].
    cbn [fst]. rewrite scalar3. unfold acceptLo, acceptHi in C.
    destruct (s0 =? 224) eqn:A1; destruct (s0 =? 237) eqn:A2;
      destruct (s0 =? 240) eqn:A3; destruct (s0 =? 244) eqn:A4; bools;
      Z.div_mod_to_equations; lia. }
  destruct t as [|s1 [|s2 [|s3 t]]]; try (cbn; lia).
  destruct ((acceptLo s0 <=? s1) && (s1 <=? acceptHi s0) && isCont s2
            && isCont s3) eqn:C; [|cbn; lia].
  cbn [fst]. rewrite scalar4. unfold acceptLo, acceptHi in C.
  destruct (s0 =? 224) eqn:A1; destruct (s0 =? 237) eqn:A2;
    destruct (s0 =? 240) eqn:A3; destruct (s0 =? 244) eqn:A4; bools;
    Z.div_mod_to_equations; lia.
Qed.

Lemma bytes_range s b : In b (bytes s) -> 0 <= b < 256.
Proof.
  unfold bytes. rewrite in_map_iff. intros (c & <- & _).
  unfold byteZ. pose proof (N_ascii_bounded c). lia.
Qed.

Lemma rangeFrom_valid bs : forall idx skip p,
  (forall b, In b bs -> 0 <= b < 256) ->
  In p (rangeFrom bs idx skip) -> ValidRune (snd p) = true.
Proof.
  induction bs as [|b t IH]; intros idx skip p Hb; cbn [rangeFrom];
    [intros []|].
  assert (Ht : forall b', In b' t -> 0 <= b' < 256)
    by (intros; apply Hb; right; assumption).
  destruct skip as [|k].
  - intros [<-|H]; [apply DecodeRune_valid; assumption|].
    apply (IH _ _ _ Ht H).
  - intros H. apply (IH _ _ _ Ht H).
Qed.



(** On ASCII bytes the loop of [range] yields every byte with its own
    index. *)
Lemma rangeFrom_ascii bs : forall idx,
  (forall b, In b bs -> 0 <= b < 128) ->
  map snd (rangeFrom bs idx 0) = bs
  /\ map fst (rangeFrom bs idx 0)
     = map (fun i => idx + Z.of_nat i) (seq 0 (List.length bs)).
Proof.
  induction bs as [|b t IH]; intros idx Hb; [split; reflexivity|].
  assert (Hb0 : 0 <= b < 128) by (apply Hb; left; reflexivity).
  assert (Hd : DecodeRune (b :: t) = (b, 1)).
  { unfold DecodeRune, RuneSelf. ztest (b <? 128) true. reflexivity. }
  cbn [rangeFrom]. rewrite Hd. cbn [fst snd map List.length seq].
  change (Z.to_nat (1 - 1)) with 0%nat.
  destruct (IH (idx + 1)) as (H1 & H2); [intros; apply Hb; right; assumption|].
  rewrite H1, H2. split; [reflexivity|].
  f_equal; [lia|]. rewrite <- seq_shift, map_map.
  apply map_ext. intros i. lia.
Qed.

Lemma bytes_ascii s :
  (forall c, In c (list_ascii_of_string s) -> byteZ c < 128) ->
  forall b, In b (bytes s) -> 0 <= b < 128.
Proof.
  intros H b Hb. unfold bytes in Hb. apply in_map_iff in Hb.
  destruct Hb as (c & <- & Hc). specialize (H c Hc). unfold byteZ in *. lia.
Qed.

(** X3.  On a string of ASCII bytes [getRunes] returns the bytes
    themselves, one scalar per byte, and every byte offset inside the
    string is the start of a scalar. *)
Theorem getRunes_ascii (s : string) :
  (forall c, In c (list_ascii_of_string s) -> byteZ c < 128) ->
  getRunes s = bytes s
  /\ forall k, 0 <= k < len s -> aligned s k.
Proof.
  intros Hs. pose proof (bytes_ascii s Hs) as Hb.
  destruct (rangeFrom_ascii (bytes s) 0 Hb) as (H1 & H2).
  split; [exact H1|]. intros k Hk.
  unfold aligned, runeStarts, rangeString. rewrite H2, length_bytes.
  apply in_map_iff. exists (Z.to_nat k). split; [lia|].
  apply in_seq. unfold len in Hk. lia.
Qed.

(** X3, at the string ["peach"]. *)
Lemma getRunes_ascii_witness :
  (forall c, In c (list_ascii_of_string "peach") -> byteZ c < 128)
  /\ getRunes "peach" = bytes "peach".
Proof.
  assert (Hs : forall c, In c (list_ascii_of_string "peach") ->
                 byteZ c < 128).
  { intros c Hc. cbn in Hc.
    repeat (destruct Hc as [<-|Hc]; [reflexivity|]). destruct Hc. }
  split; [exact Hs|]. apply (getRunes_ascii "peach" Hs).
Defined.

Lemma bytes_app s1 s2 : bytes (s1 +:+ s2) = bytes s1 ++ bytes s2.
Proof.
  unfold bytes. induction s1 as [|c s1 IH]; [reflexivity|].
  cbn. now rewrite <- IH.
Qed.

Lemma bytes_String c s : bytes (String c s) = byteZ c :: bytes s.
Proof. reflexivity. Qed.

(** The scalars that [range] yields do not depend on the index it starts
    to count from. *)
Lemma rangeFrom_snd bs : forall idx idx' skip,
  map snd (rangeFrom bs idx skip) = map snd (rangeFrom bs idx' skip).
Proof.
  induction bs as [|b t IH]; intros idx idx' skip; [reflexivity|].
  cbn [rangeFrom]. destruct skip as [|k]; cbn [map snd]; [f_equal|]; apply IH.
Qed.

(** The bytes that [EncodeRune] writes, by the size of the scalar. *)
Lemma EncodeRune_1 r :
  0 <= r < 128 -> bytes (EncodeRune r) = [r].
Proof.
  intros H. unfold EncodeRune.
  ztest (0 <=? r) true. ztest (r <? 128) true. cbn [andb].
  rewrite bytes_String, byteZ_byteA by lia. reflexivity.
Qed.

Lemma EncodeRune_2 r :
  128 <= r < 2048 ->
  bytes (EncodeRune r) = [192 + r / 64; 128 + r mod 64].
Proof.
  intros H. unfold EncodeRune.
  ztest (0 <=? r) true. ztest (r <? 128) false. ztest (r <? 2048) true.
  cbn [andb]. change 63 with (2 ^ 6 - 1).
  rewrite Z.shiftr_div_pow2, land_low by lia. change (2 ^ 6) with 64.
  assert (Hq : 0 <= r / 64 < 32 /\ 0 <= r mod 64 < 64)
    by (Z.div_mod_to_equations; lia).
  change 192 with (Z.shiftl 3 6). change 128 with (Z.shiftl 2 6) at 1.
  rewrite !lor_shiftl by (change (2 ^ 6) with 64; lia).
  rewrite !bytes_String, !byteZ_byteA by (change (2 ^ 6) with 64; lia).
  reflexivity.
Qed.

Lemma EncodeRune_3 r :
  2048 <= r < 65536 -> ~ 55296 <= r <= 57343 ->
  bytes (EncodeRune r)
  = [224 + r / 4096; 128 + (r / 64) mod 64; 128 + r mod 64].
Proof.
  intros H Hs. unfold EncodeRune.
  ztest (0 <=? r) true. ztest (r <? 128) false. ztest (r <? 2048) false.
  ztest (r <? 0) false. ztest (1114111 <? r) false. cbn [andb orb].
  replace ((55296 <=? r) && (r <=? 57343)) with false
    by (symmetry; apply andb_false_iff; rewrite Z.leb_gt, Z.leb_gt; lia).
  ztest (r <? 65536) true.
  change 63 with (2 ^ 6 - 1).
  rewrite !Z.shiftr_div_pow2, !land_low by lia.
  change (2 ^ 6) with 64. change (2 ^ 12) with 4096.
  assert (Hq : 0 <= r / 4096 < 16 /\ 0 <= (r / 64) mod 64 < 64
               /\ 0 <= r mod 64 < 64)
    by (Z.div_mod_to_equations; lia).
  change 224 with (Z.shiftl 14 4). change 128 with (Z.shiftl 2 6).
  rewrite !lor_shiftl
    by (change (2 ^ 6) with 64; change (2 ^ 4) with 16; lia).
  rewrite !bytes_String, !byteZ_byteA
    by (change (2 ^ 6) with 64; change (2 ^ 4) with 16; lia).
  reflexivity.
Qed.

Lemma EncodeRune_4 r :
  65536 <= r <= 1114111 ->
  bytes (EncodeRune r)
  = [240 + r / 262144; 128 + (r / 4096) mod 64; 128 + (r / 64) mod 64;
     128 + r mod 64].
Proof.
  intros H. unfold EncodeRune.
  ztest (0 <=? r) true. ztest (r <? 128) false. ztest (r <? 2048) false.
  ztest (r <? 0) false. ztest (1114111 <? r) false. cbn [andb orb].
  replace ((55296 <=? r) && (r <=? 57343)) with false
    by (symmetry; apply andb_false_iff; rewrite Z.leb_gt, Z.leb_gt; lia).
  ztest (r <? 65536) false.
  change 63 with (2 ^ 6 - 1).
  rewrite !Z.shiftr_div_pow2, !land_low by lia.
  change (2 ^ 6) with 64. change (2 ^ 12) with 4096.
  change (2 ^ 18) with 262144.
  assert (Hq : 0 <= r / 262144 < 8 /\ 0 <= (r / 4096) mod 64 < 64
               /\ 0 <= (r / 64) mod 64 < 64 /\ 0 <= r mod 64 < 64)
    by (Z.div_mod_to_equations; lia).
  change 240 with (Z.shiftl 30 3). change 128 with (Z.shiftl 2 6).
  rewrite !lor_shiftl
    by (change (2 ^ 6) with 64; change (2 ^ 3) with 8; lia).
  rewrite !bytes_String, !byteZ_byteA
    by (change (2 ^ 6) with 64; change (2 ^ 3) with 8; lia).
  reflexivity.
Qed.

(** Decoding the encoding of a valid scalar gives the scalar back, and the
    width of the encoding. *)
Lemma DecodeRune_EncodeRune r rest :
  ValidRune r = true ->
  DecodeRune (bytes (EncodeRune r) ++ rest)
  = (r, Z.of_nat (List.length (bytes (EncodeRune r)))).
Proof.
  intros Hv. apply ValidRune_iff in Hv. destruct Hv as [Hr Hs].
  destruct (Z.lt_ge_cases r 128) as [C1|C1].
  { rewrite EncodeRune_1 by lia. cbn [app List.length].
    unfold DecodeRune, RuneSelf. ztest (r <? 128) true. reflexivity. }
  destruct (Z.lt_ge_cases r 2048) as [C2|C2].
  { rewrite EncodeRune_2 by lia. cbn [app List.length].
    assert (Hq : 2 <= r / 64 < 32 /\ 0 <= r mod 64 < 64
                 /\ r = 64 * (r / 64) + r mod 64)
      by (Z.div_mod_to_equations; lia).
    unfold DecodeRune, RuneSelf, isCont.
    ztest (192 + r / 64 <? 128) false.
    ztest (192 + r / 64 <? 194) false.
    ztest (244 <? 192 + r / 64) false.
    ztest (192 + r / 64 <? 224) true.
    ztest (128 <=? 128 + r mod 64) true.
    ztest (128 + r mod 64 <=? 191) true.
    cbn [orb andb]. rewrite scalar2. f_equal.
    Z.div_mod_to_equations. lia. }
  destruct (Z.lt_ge_cases r 65536) as [C3|C3].
  { rewrite EncodeRune_3 by lia. cbn [app List.length].
    assert (Hq : 0 <= r / 4096 < 16 /\ 0 <= (r / 64) mod 64 < 64
                 /\ 0 <= r mod 64 < 64
                 /\ r = 4096 * (r / 4096) + 64 * ((r / 64) mod 64) + r mod 64)
      by (Z.div_mod_to_equations; lia).
    unfold DecodeRune, RuneSelf, isCont, acceptLo, acceptHi.
    ztest (224 + r / 4096 <? 128) false.
    ztest (224 + r / 4096 <? 194) false.
    ztest (244 <? 224 + r / 4096) false.
    ztest (224 + r / 4096 <? 224) false.
    ztest (224 + r / 4096 <? 240) true.
    ztest (224 + r / 4096 =? 240) false.
    ztest (224 + r / 4096 =? 244) false.
    ztest (128 <=? 128 + r mod 64) true.
    ztest (128 + r mod 64 <=? 191) true.
    cbn [orb andb].
    replace (((if 224 + r / 4096 =? 224 then 160 else 128)
                <=? 128 + (r / 64) mod 64)
             && (128 + (r / 64) mod 64
                   <=? (if 224 + r / 4096 =? 237 then 159 else 191)))
      with true.
    - cbn [andb]. rewrite scalar3. f_equal. Z.div_mod_to_equations. lia.
    - symmetry. apply andb_true_iff. rewrite !Z.leb_le.
      destruct (224 + r / 4096 =? 224) eqn:A1;
        destruct (224 + r / 4096 =? 237) eqn:A2; bools; lia. }
  rewrite EncodeRune_4 by lia. cbn [app List.length].
  assert (Hq : 0 <= r / 262144 < 8 /\ 0 <= (r / 4096) mod 64 < 64
               /\ 0 <= (r / 64) mod 64 < 64 /\ 0 <= r mod 64 < 64
               /\ r = 262144 * (r / 262144) + 4096 * ((r / 4096) mod 64)
                      + 64 * ((r / 64) mod 64) + r mod 64)
    by (Z.div_mod_to_equations; lia).
  unfold DecodeRune, RuneSelf, isCont, acceptLo, acceptHi.
  ztest (240 + r / 262144 <? 128) false.
  ztest (240 + r / 262144 <? 194) false.
  ztest (244 <? 240 + r / 262144) false.
  ztest (240 + r / 262144 <? 224) false.
  ztest (240 + r / 262144 <? 240) false.
  ztest (240 + r / 262144 =? 224) false.
  ztest (240 + r / 262144 =? 237) false.
  ztest (128 <=? 128 + r mod 64) true.
  ztest (128 + r mod 64 <=? 191) true.
  ztest (128 <=? 128 + (r / 64) mod 64) true.
  ztest (128 + (r / 64) mod 64 <=? 191) true.
  cbn [orb andb].
  replace (((if 240 + r / 262144 =? 240 then 144 else 128)
              <=? 128 + (r / 4096) mod 64)
           && (128 + (r / 4096) mod 64
                 <=? (if 240 + r / 262144 =? 244 then 143 else 191)))
    with true.
  - cbn [andb]. rewrite scalar4. f_equal. Z.div_mod_to_equations. lia.
  - symmetry. apply andb_true_iff. rewrite !Z.leb_le.
    destruct (240 + r / 262144 =? 240) eqn:A1;
      destruct (240 + r / 262144 =? 244) eqn:A2; bools; lia.
Qed.

Lemma getRunes_cons r s :
  ValidRune r = true ->
  getRunes (EncodeRune r +:+ s) = r :: getRunes s.
Proof.
  intros Hv. unfold getRunes, rangeString. rewrite bytes_app.
  pose proof (DecodeRune_EncodeRune r (bytes s) Hv) as Hd.
  assert (Hne : bytes (EncodeRune r) ++ bytes s <> []).
  { intros E. apply app_eq_nil in E. destruct E as [E _].
    revert E. unfold EncodeRune.
    repeat match goal with
           | |- context [if ?b then _ else _] => destruct b
           end; discriminate. }
  rewrite rangeFrom_decode_step by assumption.
  rewrite Hd. cbn [map fst snd]. f_equal.
  rewrite Nat2Z.id, skipn_app, skipn_all, Nat.sub_diag. cbn [app skipn].
  apply rangeFrom_snd.
Qed.

Lemma getRunes_encoded (rs : list Z) :
  (forall r, In r rs -> ValidRune r = true) ->
  getRunes (stringOfRunes rs) = rs.
Proof.
  induction rs as [|r rs IH]; intros Hv; [reflexivity|].
  cbn [stringOfRunes fold_right]. fold (stringOfRunes rs).
  rewrite getRunes_cons by (apply Hv; left; reflexivity).
  f_equal. apply IH. intros r' H'. apply Hv. right. assumption.
Qed.

(** X4.  [getRunes] undoes the conversion [string(runes)] of valid
    scalars; so the functions that take a string and the ones that take
    scalars agree: [FindStringMatch(string(r))] is [FindRunesMatch(r)], and
    [MatchString(string(r))] is [MatchRunes(r)]. *)
Theorem getRunes_stringOfRunes (re : Regexp) (rs : list Z) :
  (forall r, In r rs -> ValidRune r = true) ->
  getRunes (stringOfRunes rs) = rs
  /\ FindStringMatch re (stringOfRunes rs) = FindRunesMatch re rs
  /\ MatchString re (stringOfRunes rs) = MatchRunes re rs.
Proof.
  intros Hv. unfold FindStringMatch, FindRunesMatch, MatchString, MatchRunes.
  rewrite getRunes_encoded by assumption. repeat split.
Qed.

(** X4, at scalars of one, two, three and four bytes. *)
Lemma getRunes_stringOfRunes_witness :
  (forall r, In r [104; 233; 8364; 119070] -> ValidRune r = true)
  /\ getRunes (stringOfRunes [104; 233; 8364; 119070])
     = [104; 233; 8364; 119070].
Proof.
  assert (Hv : forall r, In r [104; 233; 8364; 119070] -> ValidRune r = true).
  { intros r Hr. cbn in Hr.
    repeat (destruct Hr as [<-|Hr]; [reflexivity|]). destruct Hr. }
  split; [exact Hv|]. apply (getRunes_stringOfRunes re_peach _ Hv).
Defined.

(** ** The start of a search, again *)

(** X5.  Whatever the start, [getRunesAndStart] returns the scalars that
    [getRunes] returns, and a start that is -1 or a position of the
    scalars: a negative start gives the default start (0, the number of
    scalars right to left), a start that is not negative gives the index
    of a scalar or -1. *)
Theorem getRunesAndStart_spec (re : Regexp) (s : string) (startAt : Z) :
  fst (getRunesAndStart re s startAt) = getRunes s
  /\ -1 <= snd (getRunesAndStart re s startAt) <= lenR (getRunes s)
  /\ (0 <= startAt ->
      snd (getRunesAndStart re s startAt) < lenR (getRunes s)
      \/ snd (getRunesAndStart re s startAt) = -1)
  /\ (startAt < 0 ->
      snd (getRunesAndStart re s startAt)
      = if RightToLeft re then lenR (getRunes s) else 0).
Proof.
  assert (Hl : 0 <= lenR (getRunes s)) by (unfold lenR; lia).
  destruct (Z.ltb_spec startAt 0) as [Hneg|Hpos].
  - unfold getRunesAndStart. ztest (startAt <? 0) true.
    destruct (RightToLeft re); cbn [fst snd];
      (split; [reflexivity|]); (split; [lia|]); (split; [lia|reflexivity]).
  - unfold getRunesAndStart. ztest (startAt <? 0) false.
    destruct (runesAndStart_loop startAt (rangeString s) 0 (-1) [])
      as (r & Heq & Hno & Hyes).
    rewrite Heq. cbn [fst snd app]. split; [reflexivity|].
    assert (Hr : r = -1 \/ 0 <= r < lenR (getRunes s)).
    { destruct (in_dec Z.eq_dec startAt (map fst (rangeString s)))
        as [Hin|Hnin].
      - right. destruct (Hyes Hin) as (j & Hj & ->).
        assert (Hjl : (j < List.length (map fst (rangeString s)))%nat)
          by (apply nth_error_Some; congruence).
        rewrite length_map in Hjl.
        unfold lenR, getRunes. rewrite length_map. lia.
      - left. apply Hno. assumption. }
    split; [lia|]. split; [intros _; lia|lia].
Qed.

(** X6.  The end of the string is never accepted as a start:
    [FindStringMatchStartingAt(s, len(s))] returns the alignment error for
    every string, the empty string with the start 0 included, although
    [FindStringMatch] searches the empty string. *)
Theorem FindStringMatchStartingAt_at_end (re : Regexp) (s : string) :
  FindStringMatchStartingAt re s (len s)
  = (None, Some (errors_New
       "startAt must align to the start of a valid rune in the input string")).
Proof.
  assert (Hn : ~ aligned s (len s)).
  { intros H. apply aligned_range in H. lia. }
  assert (H0 : 0 <= len s) by (unfold len; lia).
  destruct (getRunesAndStart_nonneg re s (len s) H0) as (_ & Hs & _).
  specialize (Hs Hn). unfold FindStringMatchStartingAt.
  rewrite Z.ltb_irrefl.
  destruct (getRunesAndStart re s (len s)) as [r st]. cbn [snd] in Hs.
  subst st. reflexivity.
Qed.

(** X7.  On a string of ASCII bytes every start inside the string is
    accepted, and the search starts at the scalar of the same index:
    [FindStringMatchStartingAt(s, k)] is [FindRunesMatchStartingAt] on the
    bytes of [s] at [k]. *)
Theorem FindStringMatchStartingAt_ascii (re : Regexp) (s : string) (k : Z) :
  (forall c, In c (list_ascii_of_string s) -> byteZ c < 128) ->
  0 <= k < len s ->
  FindStringMatchStartingAt re s k = FindRunesMatchStartingAt re (bytes s) k.
Proof.
  intros Hs Hk. pose proof (bytes_ascii s Hs) as Hb.
  destruct (rangeFrom_ascii (bytes s) 0 Hb) as (H1 & H2).
  rewrite (FindStringMatchStartingAt_aligned re s k (Z.to_nat k)).
  - unfold FindRunesMatchStartingAt, getRunes, rangeString.
    rewrite H1, Z2Nat.id by lia. reflexivity.
  - unfold runeStarts, rangeString. rewrite H2, length_bytes.
    rewrite nth_error_map, nth_error_seq.
    unfold len in Hk.
    destruct (Nat.ltb_spec (Z.to_nat k) (String.length s)) as [_|L]; [|lia].
    cbn. f_equal. lia.
Qed.

(** X7, at the second word of ["peach punch"]. *)
Lemma FindStringMatchStartingAt_ascii_witness :
  (forall c, In c (list_ascii_of_string "peach punch") -> byteZ c < 128)
  /\ 0 <= 6 < len "peach punch"
  /\ FindStringMatchStartingAt re_peach "peach punch" 6
     = FindRunesMatchStartingAt re_peach (bytes "peach punch") 6.
Proof.
  assert (Hs : forall c, In c (list_ascii_of_string "peach punch") ->
                 byteZ c < 128).
  { intros c Hc. cbn in Hc.
    repeat (destruct Hc as [<-|Hc]; [reflexivity|]). destruct Hc. }
  assert (Hk : 0 <= 6 < len "peach punch")
    by (vm_compute; intuition discriminate).
  split; [exact Hs|]. split; [exact Hk|].
  apply (FindStringMatchStartingAt_ascii re_peach "peach punch" 6 Hs Hk).
Defined.

(** ** Names and numbers of groups, again *)

(** The names of an expression without names, by position. *)
Lemma GetGroupNames_lookup re i name :
  capslist re = None ->
  GetGroupNames re !! i = Some name ->
  (i < Z.to_nat (capsize re))%nat /\ name = Itoa (Z.of_nat i).
Proof.
  intros Hl. unfold GetGroupNames. rewrite Hl.
  rewrite list_lookup_fmap. intros H.
  destruct (seq 0 (Z.to_nat (capsize re)) !! i) as [j|] eqn:E; [|discriminate].
  cbn in H. injection H as <-.
  apply lookup_seq in E. destruct E as [-> E]. split; [lia|reflexivity].
Qed.

(** X8.  For an expression without names [GetGroupNames] lists [capsize]
    names, all distinct; the name at position [i] is the one
    [GroupNameFromNumber] gives for [i], and [GroupNumberFromName] maps it
    back to [i]. *)
Theorem GetGroupNames_unnamed (re : Regexp) :
  capnames re = None -> capslist re = None -> 0 <= capsize re <= 2 ^ 63 ->
  Z.of_nat (List.length (GetGroupNames re)) = capsize re
  /\ List.NoDup (GetGroupNames re)
  /\ (forall i name, GetGroupNames re !! i = Some name ->
        GroupNameFromNumber re (Z.of_nat i) = name
        /\ GroupNumberFromName re name = Z.of_nat i).
Proof.
  intros Hn Hl Hc.
  assert (Hrt : forall i name, GetGroupNames re !! i = Some name ->
        GroupNameFromNumber re (Z.of_nat i) = name
        /\ GroupNumberFromName re name = Z.of_nat i).
  { intros i name H. apply GetGroupNames_lookup in H; [|assumption].
    destruct H as [Hi ->].
    unfold GroupNameFromNumber, GroupNumberFromName. rewrite Hl, Hn.
    rewrite Itoa_digitsLoop by lia.
    ztest (0 <=? Z.of_nat i) true.
    ztest (Z.of_nat i <? capsize re) true.
    split; reflexivity. }
  split; [|split; [|exact Hrt]].
  - unfold GetGroupNames. rewrite Hl, length_map, length_seq. lia.
  - apply NoDup_ListNoDup, NoDup_alt. intros i j name Hi Hj.
    apply Hrt in Hi. apply Hrt in Hj. lia.
Qed.

(** X8, at the expression [p([a-z]+)ch]. *)
Lemma GetGroupNames_unnamed_witness :
  capnames re_peach = None /\ capslist re_peach = None
  /\ 0 <= capsize re_peach <= 2 ^ 63
  /\ GetGroupNames re_peach = ["0"; "1"]
  /\ GroupNumberFromName re_peach "1" = 1.
Proof.
  assert (Hc : 0 <= capsize re_peach <= 2 ^ 63)
    by (vm_compute; intuition discriminate).
  split; [reflexivity|]. split; [reflexivity|]. split; [exact Hc|].
  split; [reflexivity|].
  destruct (GetGroupNames_unnamed re_peach eq_refl eq_refl Hc) as (_ & _ & H).
  apply (H 1%nat "1"). reflexivity.
Defined.

(** [int] arithmetic keeps a number up to a multiple of [2^64]. *)
Lemma wrap64_spec a : exists q, wrap64 a = a + q * 2 ^ 64.
Proof.
  unfold wrap64. exists (- ((a + 2 ^ 63) / 2 ^ 64)).
  pose proof (Z.div_mod (a + 2 ^ 63) (2 ^ 64)) as H. lia.
Qed.

Lemma wrap64_congr a b q : a = b + q * 2 ^ 64 -> wrap64 a = wrap64 b.
Proof.
  intros ->. unfold wrap64.
  replace (b + q * 2 ^ 64 + 2 ^ 63) with (b + 2 ^ 63 + q * 2 ^ 64) by lia.
  now rewrite Z_mod_plus_full.
Qed.

Lemma wrap64_step a d :
  wrap64 (wrap64 (wrap64 a * 10) + d) = wrap64 (a * 10 + d).
Proof.
  destruct (wrap64_spec a) as (q1 & H1).
  destruct (wrap64_spec (wrap64 a * 10)) as (q2 & H2).
  apply (wrap64_congr _ _ (q2 + 10 * q1)). lia.
Qed.

(** Reading back the digits of a number of any size gives the number in
    [int] arithmetic. *)
Lemma digitsLoop_utoa_wrap fuel : forall n acc,
  0 <= n < 2 ^ Z.of_nat fuel ->
  digitsLoop 0 (utoa fuel n acc) = digitsLoop (wrap64 n) acc.
Proof.
  induction fuel as [|f IH]; intros n acc Hn.
  - simpl in *. assert (n = 0) by lia. subst n. reflexivity.
  - cbn [utoa].
    assert (Hd : 0 <= n mod 10 < 10) by (apply Z.mod_pos_bound; lia).
    assert (Hstep : forall r,
      digitsLoop r (String (byteA (48 + n mod 10)) acc)
      = digitsLoop (wrap64 (wrap64 (r * 10) + n mod 10)) acc).
    { intros r. cbn [digitsLoop].
      rewrite byteZ_byteA by lia.
      change (byteZ "9") with 57. change (byteZ "0") with 48.
      ztest (57 <? 48 + n mod 10) false.
      ztest (48 + n mod 10 <? 48) false.
      cbn [orb]. do 2 f_equal. lia. }
    destruct (n <? 10) eqn:E.
    + apply Z.ltb_lt in E. rewrite Hstep.
      rewrite Z.mod_small by lia. reflexivity.
    + apply Z.ltb_ge in E.
      assert (Hq : 0 <= n / 10) by (apply Z.div_pos; lia).
      assert (Hqn : n = 10 * (n / 10) + n mod 10) by (apply Z.div_mod; lia).
      rewrite IH.
      * rewrite Hstep, wrap64_step. f_equal. f_equal. lia.
      * rewrite Nat2Z.inj_succ, Z.pow_succ_r in Hn by lia. lia.
Qed.

Lemma Itoa_digitsLoop_wrap n :
  0 <= n -> digitsLoop 0 (Itoa n) = Some (wrap64 n).
Proof.
  intros Hn. unfold Itoa.
  ztest (n <? 0) false.
  rewrite digitsLoop_utoa_wrap; [reflexivity|].
  split; [assumption|].
  rewrite Nat2Z.inj_succ, Z2Nat.id by apply Z.log2_nonneg.
  destruct (Z.eq_dec n 0) as [->|Hne]; [reflexivity|].
  apply Z.log2_spec. lia.
Qed.

(** X9.  Without a table of names, [GroupNumberFromName] reads a name of
    digits in [int] arithmetic, with no check for overflow: the digits of
    [k + j * 2^64] are read as the slot [k].  So the name
    "18446744073709551617" is taken for group 1. *)
Theorem GroupNumberFromName_wraps (re : Regexp) (k j : Z) :
  capnames re = None -> 0 <= k < capsize re -> capsize re <= 2 ^ 63 ->
  0 <= j ->
  GroupNumberFromName re (Itoa (k + j * 2 ^ 64)) = k.
Proof.
  intros Hn Hk Hc Hj. unfold GroupNumberFromName. rewrite Hn.
  rewrite Itoa_digitsLoop_wrap by lia.
  rewrite (wrap64_congr _ k j) by reflexivity.
  rewrite wrap64_small by (unfold int_range; lia).
  ztest (0 <=? k) true.
  ztest (k <? capsize re) true.
  reflexivity.
Qed.

(** X9, at the expression [p([a-z]+)ch]. *)
Lemma GroupNumberFromName_wraps_witness :
  capnames re_peach = None /\ 0 <= 1 < capsize re_peach
  /\ capsize re_peach <= 2 ^ 63 /\ 0 <= 1
  /\ GroupNumberFromName re_peach "18446744073709551617" = 1.
Proof.
  assert (Hk : 0 <= 1 < capsize re_peach)
    by (vm_compute; intuition discriminate).
  assert (Hc : capsize re_peach <= 2 ^ 63) by (vm_compute; discriminate).
  assert (Hj : 0 <= 1) by lia.
  split; [reflexivity|]. split; [exact Hk|]. split; [exact Hc|].
  split; [exact Hj|].
  apply (GroupNumberFromName_wraps re_peach 1 1 eq_refl Hk Hc Hj).
Defined.

Lemma setIndex_Done result v k :
  0 <= v < lenR result ->
  setIndex result v k = Done (<[ Z.to_nat v := k ]> result).
Proof.
  intros H. unfold setIndex.
  replace ((0 <=? v) && (v <? lenR result)) with true; [reflexivity|].
  symmetry. rewrite andb_true_iff, Z.leb_le, Z.ltb_lt. lia.
Qed.

(** The loop over entries with distinct values inside the slice: every
    entry is written at its value, the other elements are kept. *)
Lemma groupNumbersLoop_Done kvs : forall result,
  List.NoDup (map snd kvs) ->
  (forall k v, In (k, v) kvs -> 0 <= v < lenR result) ->
  exists nums,
    groupNumbersLoop kvs result = Done nums
    /\ List.length nums = List.length result
    /\ (forall k v, In (k, v) kvs -> nums !! Z.to_nat v = Some k)
    /\ (forall i, ~ In (Z.of_nat i) (map snd kvs) -> nums !! i = result !! i).
Proof.
  induction kvs as [|[k v] rest IH]; intros result Hnd Hr;
    cbn [groupNumbersLoop].
  - exists result. split; [reflexivity|]. split; [reflexivity|].
    split; [intros k v []|reflexivity].
  - cbn [map snd] in Hnd. apply List.NoDup_cons_iff in Hnd.
    destruct Hnd as [Hv Hnd].
    assert (Hvr : 0 <= v < lenR result) by (apply (Hr k); left; reflexivity).
    rewrite setIndex_Done by assumption. cbn [bind].
    destruct (IH (<[Z.to_nat v:=k]> result) Hnd)
      as (nums & Heq & Hlen & Hin & Hout).
    { intros k' v' H'. unfold lenR. rewrite length_insert.
      apply (Hr k'). right. assumption. }
    exists nums. split; [exact Heq|]. rewrite length_insert in Hlen.
    split; [exact Hlen|]. split.
    + intros k' v' [E|H']; [|apply Hin; assumption].
      injection E as <- <-.
      rewrite Hout by (rewrite Z2Nat.id; [assumption|lia]).
      apply list_lookup_insert_eq. unfold lenR in Hvr. lia.
    + intros i Hi. cbn [map snd In] in Hi.
      rewrite Hout by tauto.
      apply list_lookup_insert_ne. intros E. apply Hi. left. lia.
Qed.

(** An entry whose value is outside the slice makes the loop panic,
    wherever it comes in the order. *)
Lemma groupNumbersLoop_Panic kvs : forall result k v,
  In (k, v) kvs -> ~ 0 <= v < lenR result ->
  groupNumbersLoop kvs result = Panic.
Proof.
  induction kvs as [|[k' v'] rest IH]; intros result k v Hin Hv;
    [destruct Hin|].
  cbn [groupNumbersLoop]. unfold setIndex at 1.
  destruct ((0 <=? v') && (v' <? lenR result)) eqn:E; [|reflexivity].
  cbn [bind]. destruct Hin as [E'|Hin].
  - injection E' as -> ->.
    rewrite andb_true_iff, Z.leb_le, Z.ltb_lt in E. lia.
  - apply (IH _ k v Hin). unfold lenR in *. rewrite length_insert. exact Hv.
Qed.

(** X10.  With a dense numbering ([caps] is nil) [GetGroupNumbers] returns
    the numbers [0 .. capsize-1] in order, and it runs parallel to
    [GetGroupNames]: the name at a position is the name that
    [GroupNameFromNumber] gives for the number at that position. *)
Theorem GetGroupNumbers_dense (re : Regexp) (order : list (Z * Z)) :
  caps re = None -> 0 <= capsize re ->
  (forall l, capslist re = Some l -> Z.of_nat (List.length l) = capsize re) ->
  exists nums,
    GetGroupNumbers re order = Done nums
    /\ Z.of_nat (List.length nums) = capsize re
    /\ (forall i n, nums !! i = Some n ->
          n = Z.of_nat i
          /\ GetGroupNames re !! i = Some (GroupNameFromNumber re n)).
Proof.
  intros Hcaps Hc Hl. unfold GetGroupNumbers. rewrite Hcaps.
  ztest (capsize re <? 0) false.
  eexists. split; [reflexivity|].
  split; [rewrite length_map, length_seq; lia|].
  intros i n H. rewrite list_lookup_fmap in H.
  destruct (seq 0 (Z.to_nat (capsize re)) !! i) as [j|] eqn:E; [|discriminate].
  cbn in H. injection H as <-.
  apply lookup_seq in E. destruct E as [-> E]. cbn [Nat.add].
  split; [reflexivity|].
  unfold GetGroupNames, GroupNameFromNumber. rewrite Hcaps.
  destruct (capslist re) as [l|] eqn:El.
  - specialize (Hl l eq_refl).
    ztest (0 <=? Z.of_nat i) true.
    ztest (Z.of_nat i <? Z.of_nat (List.length l)) true.
    cbn [andb]. rewrite Nat2Z.id.
    rewrite nth_lookup.
    destruct (lookup_lt_is_Some_2 l i) as (x & Hx); [lia|].
    rewrite Hx. reflexivity.
  - rewrite list_lookup_fmap, lookup_seq_lt by lia. cbn.
    ztest (0 <=? Z.of_nat i) true.
    ztest (Z.of_nat i <? capsize re) true.
    reflexivity.
Qed.

(** X10, at the expression [p([a-z]+)ch]. *)
Lemma GetGroupNumbers_dense_witness :
  caps re_peach = None /\ 0 <= capsize re_peach
  /\ (forall l, capslist re_peach = Some l ->
        Z.of_nat (List.length l) = capsize re_peach)
  /\ exists nums, GetGroupNumbers re_peach [] = Done nums
       /\ Z.of_nat (List.length nums) = capsize re_peach.
Proof.
  assert (Hc : 0 <= capsize re_peach) by (vm_compute; discriminate).
  assert (Hl : forall l, capslist re_peach = Some l ->
             Z.of_nat (List.length l) = capsize re_peach) by discriminate.
  split; [reflexivity|]. split; [exact Hc|]. split; [exact Hl|].
  destruct (GetGroupNumbers_dense re_peach [] eq_refl Hc Hl)
    as (nums & H1 & H2 & _).
  exists nums. split; assumption.
Defined.

(** Distinct indices below [n], [n] of them, are all the indices below
    [n]. *)
Lemma indices_all (vs : list Z) (n : nat) :
  List.NoDup vs -> List.length vs = n ->
  (forall v, In v vs -> 0 <= v < Z.of_nat n) ->
  forall i, (i < n)%nat -> In (Z.of_nat i) vs.
Proof.
  intros Hnd Hlen Hr i Hi.
  assert (Hincl : incl (seq 0 n) (map Z.to_nat vs)).
  { apply List.NoDup_length_incl.
    - apply Finite.Injective_map_NoDup_in; [|assumption].
      intros x y Hx Hy E. apply Hr in Hx. apply Hr in Hy. lia.
    - rewrite length_seq, length_map. lia.
    - intros j Hj. apply in_map_iff in Hj. destruct Hj as (v & <- & Hv).
      apply Hr in Hv. apply in_seq. lia. }
  assert (Hin : In i (map Z.to_nat vs)) by (apply Hincl, in_seq; lia).
  apply in_map_iff in Hin. destruct Hin as (v & <- & Hv).
  pose proof (Hr v Hv). rewrite Z2Nat.id by lia. assumption.
Qed.

(** When [caps] maps the numbers of the groups one to one onto the indices
    below their count, the loop of [GetGroupNumbers] fills every element of
    the slice, with the number that [caps] maps to its index. *)
Lemma GetGroupNumbers_caps re (c : gmap Z Z) order :
  caps re = Some c ->
  Permutation order (map_to_list c) ->
  (forall k v, c !! k = Some v -> 0 <= v < Z.of_nat (size c)) ->
  (forall k1 k2 v, c !! k1 = Some v -> c !! k2 = Some v -> k1 = k2) ->
  exists nums,
    GetGroupNumbers re order = Done nums
    /\ List.length nums = size c
    /\ (forall k v, c !! k = Some v -> nums !! Z.to_nat v = Some k)
    /\ (forall i n, nums !! i = Some n -> c !! n = Some (Z.of_nat i)).
Proof.
  intros Hcaps Hperm Hr Hinj. unfold GetGroupNumbers. rewrite Hcaps.
  assert (Hin : forall k v, In (k, v) order <-> c !! k = Some v).
  { intros k v. rewrite <- list_elem_of_In, Hperm.
    apply (elem_of_map_to_list c k v). }
  assert (Hnd : List.NoDup order).
  { apply NoDup_ListNoDup. rewrite Hperm. apply NoDup_map_to_list. }
  assert (Hlen : List.length order = size c).
  { rewrite Hperm. apply length_map_to_list. }
  assert (Hnds : List.NoDup (map snd order)).
  { apply Finite.Injective_map_NoDup_in; [|assumption].
    intros [k1 v1] [k2 v2] H1 H2 E. cbn in E. subst v2.
    apply Hin in H1. apply Hin in H2. f_equal. eapply Hinj; eauto. }
  destruct (groupNumbersLoop_Done order (repeat 0 (size c)) Hnds)
    as (nums & Heq & Hl & Hw & _).
  { intros k v H. unfold lenR. rewrite repeat_length.
    apply (Hr k). apply Hin. assumption. }
  exists nums. split; [exact Heq|]. rewrite repeat_length in Hl.
  split; [exact Hl|]. split.
  - intros k v H. apply Hw, Hin. assumption.
  - intros i n H.
    assert (Hi : (i < size c)%nat).
    { rewrite <- Hl. apply lookup_lt_is_Some. eauto. }
    assert (Hv : In (Z.of_nat i) (map snd order)).
    { apply (indices_all _ (size c)); auto.
      - rewrite length_map. assumption.
      - intros v Hv. apply in_map_iff in Hv.
        destruct Hv as ([k v'] & <- & Hkv). apply (Hr k). apply Hin.
        assumption. }
    apply in_map_iff in Hv. destruct Hv as ([k v] & Ev & Hkv).
    cbn in Ev. subst v.
    pose proof (Hw k _ Hkv) as Hk. rewrite Nat2Z.id in Hk.
    assert (n = k) by congruence. subst n. apply Hin. assumption.
Qed.

Lemma c_sparse_entries k v :
  c_sparse !! k = Some v -> (k = 7 /\ v = 1) \/ (k = 0 /\ v = 0).
Proof.
  unfold c_sparse. rewrite lookup_insert_Some, lookup_singleton_Some.
  intuition (subst; auto).
Qed.

Lemma c_sparse_range k v :
  c_sparse !! k = Some v -> 0 <= v < Z.of_nat (size c_sparse).
Proof.
  intros H. apply c_sparse_entries in H.
  change (Z.of_nat (size c_sparse)) with 2. lia.
Qed.

Lemma c_sparse_inj k1 k2 v :
  c_sparse !! k1 = Some v -> c_sparse !! k2 = Some v -> k1 = k2.
Proof.
  intros H1 H2. apply c_sparse_entries in H1. apply c_sparse_entries in H2.
  lia.
Qed.

(** X11.  When [caps] maps the numbers of the groups one to one onto the
    indices below their count, [GetGroupNumbers] returns the inverse of
    [caps], the number of a group at the index [caps] gives it, and the
    result does not depend on the order in which [range] goes through the
    map. *)
Theorem GetGroupNumbers_order (re : Regexp) (c : gmap Z Z)
    (order1 order2 : list (Z * Z)) :
  caps re = Some c ->
  Permutation order1 (map_to_list c) -> Permutation order2 (map_to_list c) ->
  (forall k v, c !! k = Some v -> 0 <= v < Z.of_nat (size c)) ->
  (forall k1 k2 v, c !! k1 = Some v -> c !! k2 = Some v -> k1 = k2) ->
  exists nums,
    GetGroupNumbers re order1 = Done nums
    /\ GetGroupNumbers re order2 = Done nums
    /\ List.length nums = size c
    /\ (forall k v, c !! k = Some v -> nums !! Z.to_nat v = Some k).
Proof.
  intros Hcaps Hp1 Hp2 Hr Hinj.
  destruct (GetGroupNumbers_caps re c order1 Hcaps Hp1 Hr Hinj)
    as (n1 & E1 & L1 & W1 & B1).
  destruct (GetGroupNumbers_caps re c order2 Hcaps Hp2 Hr Hinj)
    as (n2 & E2 & L2 & W2 & B2).
  assert (n2 = n1); [|subst n2; exists n1; auto].
  apply list_eq. intros i.
  destruct (n1 !! i) as [k|] eqn:H1.
  - apply B1, W2 in H1. rewrite Nat2Z.id in H1. exact H1.
  - apply lookup_ge_None in H1. apply lookup_ge_None. lia.
Qed.

(** X11, at the groups 0 and 7, in the two orders of the two entries. *)
Lemma GetGroupNumbers_order_witness :
  caps re_sparse = Some c_sparse
  /\ Permutation [(7, 1); (0, 0)] (map_to_list c_sparse)
  /\ Permutation [(0, 0); (7, 1)] (map_to_list c_sparse)
  /\ exists nums,
       GetGroupNumbers re_sparse [(7, 1); (0, 0)] = Done nums
       /\ GetGroupNumbers re_sparse [(0, 0); (7, 1)] = Done nums.
Proof.
  assert (P1 : Permutation [(7, 1); (0, 0)] (map_to_list c_sparse))
    by (vm_compute; first [reflexivity | apply perm_swap]).
  assert (P2 : Permutation [(0, 0); (7, 1)] (map_to_list c_sparse))
    by (vm_compute; first [reflexivity | apply perm_swap]).
  split; [reflexivity|]. split; [exact P1|]. split; [exact P2|].
  destruct (GetGroupNumbers_order re_sparse c_sparse _ _ eq_refl P1 P2
              c_sparse_range c_sparse_inj) as (nums & E1 & E2 & _).
  exists nums. split; assumption.
Defined.

(** X12.  With a table [caps] as above and as many names as groups,
    [GetGroupNumbers] and [GetGroupNames] run parallel: the name at a
    position is the name that [GroupNameFromNumber] gives for the number at
    that position. *)
Theorem GetGroupNumbers_names_parallel (re : Regexp) (c : gmap Z Z)
    (l : list string) (order : list (Z * Z)) :
  caps re = Some c -> capslist re = Some l -> List.length l = size c ->
  Permutation order (map_to_list c) ->
  (forall k v, c !! k = Some v -> 0 <= v < Z.of_nat (size c)) ->
  (forall k1 k2 v, c !! k1 = Some v -> c !! k2 = Some v -> k1 = k2) ->
  exists nums,
    GetGroupNumbers re order = Done nums
    /\ List.length nums = List.length (GetGroupNames re)
    /\ (forall i n, nums !! i = Some n ->
          GetGroupNames re !! i = Some (GroupNameFromNumber re n)).
Proof.
  intros Hcaps Hl Hlen Hp Hr Hinj.
  destruct (GetGroupNumbers_caps re c order Hcaps Hp Hr Hinj)
    as (nums & E & L & _ & B).
  exists nums. split; [exact E|].
  unfold GetGroupNames, GroupNameFromNumber. rewrite Hl, Hcaps.
  split; [lia|]. intros i n H.
  assert (Hi : (i < size c)%nat).
  { rewrite <- L. apply lookup_lt_is_Some. eauto. }
  rewrite (B i n H).
  ztest (0 <=? Z.of_nat i) true.
  ztest (Z.of_nat i <? Z.of_nat (List.length l)) true.
  cbn [andb]. rewrite Nat2Z.id, nth_lookup.
  destruct (lookup_lt_is_Some_2 l i) as (x & Hx); [lia|].
  rewrite Hx. reflexivity.
Qed.

(** X12, at the groups 0 and 7. *)
Lemma GetGroupNumbers_names_parallel_witness :
  caps re_sparse = Some c_sparse
  /\ capslist re_sparse = Some ["0"; "7"]
  /\ List.length ["0"; "7"] = size c_sparse
  /\ Permutation [(0, 0); (7, 1)] (map_to_list c_sparse)
  /\ exists nums,
       GetGroupNumbers re_sparse [(0, 0); (7, 1)] = Done nums
       /\ List.length nums = List.length (GetGroupNames re_sparse).
Proof.
  assert (P : Permutation [(0, 0); (7, 1)] (map_to_list c_sparse))
    by (vm_compute; first [reflexivity | apply perm_swap]).
  split; [reflexivity|]. split; [reflexivity|]. split; [reflexivity|].
  split; [exact P|].
  destruct (GetGroupNumbers_names_parallel re_sparse c_sparse ["0"; "7"] _
              eq_refl eq_refl eq_refl P c_sparse_range c_sparse_inj)
    as (nums & E & L & _).
  exists nums. split; assumption.
Defined.

(** X13.  [GetGroupNumbers] does not check the indices it reads from
    [caps]: an entry whose index is negative or not below the number of
    entries makes the assignment [result[v] = k] panic, wherever the entry
    comes in the order of the map. *)
Theorem GetGroupNumbers_out_of_range (re : Regexp) (c : gmap Z Z)
    (order : list (Z * Z)) (k v : Z) :
  caps re = Some c -> Permutation order (map_to_list c) ->
  c !! k = Some v -> ~ 0 <= v < Z.of_nat (size c) ->
  GetGroupNumbers re order = Panic.
Proof.
  intros Hcaps Hp Hkv Hv. unfold GetGroupNumbers. rewrite Hcaps.
  apply (groupNumbersLoop_Panic _ _ k v).
  - apply list_elem_of_In. rewrite Hp. apply elem_of_map_to_list. assumption.
  - unfold lenR. rewrite repeat_length. assumption.
Qed.

(** X13, at a table with the single entry 0 -> 1. *)
Lemma GetGroupNumbers_out_of_range_witness :
  caps re_gap = Some {[ 0 := 1 ]}
  /\ Permutation [(0, 1)] (map_to_list ({[ 0 := 1 ]} : gmap Z Z))
  /\ ({[ 0 := 1 ]} : gmap Z Z) !! 0 = Some 1
  /\ ~ 0 <= 1 < Z.of_nat (size ({[ 0 := 1 ]} : gmap Z Z))
  /\ GetGroupNumbers re_gap [(0, 1)] = Panic.
Proof.
  assert (P : Permutation [(0, 1)] (map_to_list ({[ 0 := 1 ]} : gmap Z Z)))
    by (vm_compute; reflexivity).
  assert (N : ~ 0 <= 1 < Z.of_nat (size ({[ 0 := 1 ]} : gmap Z Z)))
    by (vm_compute; intros [_ H]; discriminate).
  split; [reflexivity|]. split; [exact P|]. split; [reflexivity|].
  split; [exact N|].
  apply (GetGroupNumbers_out_of_range re_gap _ _ 0 1 eq_refl P eq_refl N).
Defined.

(** ** The option bits *)

(** The test of one bit of the options. *)
Lemma land_pow2_testbit o n :
  0 <= n -> negb (Z.land o (2 ^ n) =? 0) = Z.testbit o n.
Proof.
  intros Hn.
  assert (H : Z.land o (2 ^ n) = if Z.testbit o n then 2 ^ n else 0).
  { apply Z.bits_inj'. intros k Hk.
    rewrite Z.land_spec, Z.pow2_bits_eqb by lia.
    destruct (Z.eqb_spec n k) as [->|Hne].
    - destruct (Z.testbit o k); [rewrite Z.pow2_bits_true by lia; reflexivity|].
      rewrite Z.bits_0. reflexivity.
    - rewrite andb_false_r. destruct (Z.testbit o n); [|now rewrite Z.bits_0].
      rewrite Z.pow2_bits_false by lia. reflexivity. }
  rewrite H. destruct (Z.testbit o n); [|reflexivity].
  assert (0 < 2 ^ n) by (apply Z.pow_pos_nonneg; lia).
  destruct (Z.eqb_spec (2 ^ n) 0); [lia|reflexivity].
Qed.

(** X14.  [RightToLeft] reports bit 6 of the options and [Debug] bit 7,
    whatever the other bits are: setting or clearing another option does
    not change what they return. *)
Theorem RightToLeft_Debug_bits (re : Regexp) :
  RightToLeft re = Z.testbit (options re) 6
  /\ Debug re = Z.testbit (options re) 7.
Proof.
  unfold RightToLeft, Debug, RightToLeft_, Debug_.
  change 64 with (2 ^ 6). change 128 with (2 ^ 7).
  split; apply land_pow2_testbit; lia.
Qed.

(** ** The find functions *)


(** The loops of the All functions only append to what they are given. *)
Lemma findAllIndexLoop_acc re k : forall om acc,
  findAllIndexLoop re k om acc = acc ++ findAllIndexLoop re k om [].
Proof.
  induction k as [|k IH]; intros om acc; destruct om as [m|];
    cbn [findAllIndexLoop Groups]; try (now rewrite app_nil_r).
  rewrite (IH _ (acc ++ _)), (IH _ ([] ++ _)). cbn [app].
  now rewrite <- app_assoc.
Qed.

Lemma findAllSubmatchLoop_acc re k : forall om acc,
  findAllSubmatchLoop re k om acc = acc ++ findAllSubmatchLoop re k om [].
Proof.
  induction k as [|k IH]; intros om acc; destruct om as [m|];
    cbn [findAllSubmatchLoop]; try (now rewrite app_nil_r).
  rewrite (IH _ (acc ++ _)), (IH _ ([] ++ _)). cbn [app].
  now rewrite <- app_assoc.
Qed.

(** The pairs of the whole matches are the first two entries of the
    lists of all groups. *)
Lemma findAllIndexLoop_submatch re k : forall om,
  findAllIndexLoop re k om []
  = map (firstn 2) (findAllSubmatchLoop re k om []).
Proof.
  induction k as [|k IH]; intros om; destruct om as [m|];
    cbn [findAllIndexLoop findAllSubmatchLoop Groups map]; try reflexivity.
  rewrite findAllIndexLoop_acc, findAllSubmatchLoop_acc, map_app, IH.
  reflexivity.
Qed.

(** A smaller cap cuts the result of a larger one. *)
Lemma findAllSubmatchLoop_firstn re k : forall k' om,
  (k <= k')%nat ->
  findAllSubmatchLoop re k om []
  = firstn k (findAllSubmatchLoop re k' om []).
Proof.
  induction k as [|k IH]; intros k' om Hk.
  - destruct om; reflexivity.
  - destruct k' as [|k']; [lia|]. destruct om as [m|]; [|reflexivity].
    cbn [findAllSubmatchLoop].
    rewrite findAllSubmatchLoop_acc, (findAllSubmatchLoop_acc re k').
    cbn [app firstn]. f_equal. apply IH. lia.
Qed.

Lemma findAllSubmatchLoop_length re k : forall om,
  (List.length (findAllSubmatchLoop re k om []) <= k)%nat.
Proof.
  induction k as [|k IH]; intros om; destruct om as [m|];
    cbn [findAllSubmatchLoop List.length]; try lia.
  rewrite findAllSubmatchLoop_acc. cbn [app List.length].
  specialize (IH (fst (FindNextMatch re (Some m)))). lia.
Qed.

(** X16.  The index functions are projections of the submatch functions:
    [FindAllStringIndex] lists the first two entries of every element of
    [FindAllStringSubmatchIndex], and [FindStringIndex] is the first two
    entries of [FindStringSubmatchIndex]. *)
Theorem FindAllStringIndex_projection (re : Regexp) (s : string) (n : Z) :
  FindAllStringIndex re s n
  = map (firstn 2) (FindAllStringSubmatchIndex re s n)
  /\ FindStringIndex re s = firstn 2 (FindStringSubmatchIndex re s).
Proof.
  split.
  - unfold FindAllStringIndex, FindAllStringSubmatchIndex.
    apply findAllIndexLoop_submatch.
  - unfold FindStringIndex, FindStringSubmatchIndex.
    destruct (fst (FindStringMatch re s)); reflexivity.
Qed.

(** X17.  The cap [n >= 0] of the All functions only cuts the result: the
    result with the cap [n] is the first [n] elements of the result with
    any larger cap, and of the result without a cap ([m < 0]) as long as
    [n <= len(s) + 1]; it never has more than [n] elements.  This holds
    whatever the matcher does. *)
Theorem FindAllStringSubmatchIndex_cap (re : Regexp) (s : string) (n m : Z) :
  0 <= n -> n <= (if m <? 0 then len s + 1 else m) ->
  FindAllStringSubmatchIndex re s n
  = firstn (Z.to_nat n) (FindAllStringSubmatchIndex re s m)
  /\ FindAllStringIndex re s n
     = firstn (Z.to_nat n) (FindAllStringIndex re s m)
  /\ Z.of_nat (List.length (FindAllStringIndex re s n)) <= n.
Proof.
  intros Hn Hm.
  assert (H1 : FindAllStringSubmatchIndex re s n
               = firstn (Z.to_nat n) (FindAllStringSubmatchIndex re s m)).
  { unfold FindAllStringSubmatchIndex. ztest (n <? 0) false.
    apply findAllSubmatchLoop_firstn. lia. }
  split; [exact H1|]. split.
  - unfold FindAllStringIndex.
    rewrite !findAllIndexLoop_submatch, firstn_map. f_equal.
    ztest (n <? 0) false. cbn zeta.
    apply findAllSubmatchLoop_firstn. lia.
  - unfold FindAllStringIndex. ztest (n <? 0) false.
    rewrite findAllIndexLoop_submatch, length_map.
    pose proof (findAllSubmatchLoop_length re (Z.to_nat n)
                  (fst (FindStringMatch re s))). lia.
Qed.

(** X17, at the scenario of the three words, with the caps 2 and -1. *)
Lemma FindAllStringSubmatchIndex_cap_witness :
  0 <= 2
  /\ 2 <= (if -1 <? 0 then len "peach punch pinch" + 1 else -1)
  /\ FindAllStringIndex re_peach "peach punch pinch" 2
     = firstn 2 (FindAllStringIndex re_peach "peach punch pinch" (-1)).
Proof.
  assert (H0 : 0 <= 2) by lia.
  assert (H1 : 2 <= (if -1 <? 0 then len "peach punch pinch" + 1 else -1))
    by (vm_compute; discriminate).
  split; [exact H0|]. split; [exact H1|].
  apply (FindAllStringSubmatchIndex_cap re_peach "peach punch pinch" 2 (-1)
           H0 H1).
Defined.

(** X18.  Unless the cap is 0, the first element of the result of an All
    function is the result of the function for a single match:
    [FindStringIndex] is the head of [FindAllStringIndex], and
    [FindStringSubmatchIndex] the head of [FindAllStringSubmatchIndex]
    (nil when there is no match). *)
Theorem FindStringIndex_head (re : Regexp) (s : string) (n : Z) :
  n <> 0 ->
  FindStringIndex re s = hd [] (FindAllStringIndex re s n)
  /\ FindStringSubmatchIndex re s
     = hd [] (FindAllStringSubmatchIndex re s n).
Proof.
  intros Hn.
  assert (Hk : exists k, Z.to_nat (if n <? 0 then len s + 1 else n) = S k).
  { exists (Nat.pred (Z.to_nat (if n <? 0 then len s + 1 else n))).
    destruct (n <? 0) eqn:E; [unfold len|apply Z.ltb_ge in E]; lia. }
  destruct Hk as (k & Hk).
  unfold FindStringIndex, FindStringSubmatchIndex, FindAllStringIndex,
    FindAllStringSubmatchIndex. rewrite Hk.
  destruct (fst (FindStringMatch re s)) as [m|]; [|split; reflexivity].
  cbn [findAllIndexLoop findAllSubmatchLoop Groups].
  rewrite findAllIndexLoop_acc, findAllSubmatchLoop_acc. split; reflexivity.
Qed.

(** X18, at the scenario of the three words. *)
Lemma FindStringIndex_head_witness :
  -1 <> 0
  /\ FindStringIndex re_peach "peach punch pinch"
     = hd [] (FindAllStringIndex re_peach "peach punch pinch" (-1)).
Proof.
  assert (H : -1 <> 0) by discriminate.
  split; [exact H|].
  apply (FindStringIndex_head re_peach "peach punch pinch" (-1) H).
Defined.

Lemma slice_substring src i j :
  0 <= i <= j -> j <= len src ->
  slice src i j = Done (substring (Z.to_nat i) (Z.to_nat (j - i)) src).
Proof.
  intros Hi Hj. unfold slice.
  replace ((0 <=? i) && (i <=? j) && (j <=? len src)) with true;
    [reflexivity|].
  symmetry. rewrite !andb_true_iff, !Z.leb_le. lia.
Qed.

(** X19.  On a string of ASCII bytes the pair that [FindStringIndex]
    returns locates the match in the string, as its documentation says
    ("the match itself is at s[loc[0]:loc[1]]"): the slice expression does
    not panic and its bytes are the scalars of the match. *)
Theorem FindStringIndex_ascii (re : Regexp) (s : string) (m : Match)
    (e : option error) :
  WfRegexp re ->
  (forall c, In c (list_ascii_of_string s) -> byteZ c < 128) ->
  FindStringMatch re s = (Some m, e) ->
  exists a b piece,
    FindStringIndex re s = [a; b]
    /\ slice s a b = Done piece
    /\ bytes piece = groupText m (group m).
Proof.
  intros Hwf Hs E. pose proof (getRunes_length s) as Hlen.
  pose proof E as E'. unfold FindStringMatch in E'.
  destruct (run_match_ok _ _ _ _ _ _ Hwf E') as (_ & Hok & _).
  destruct Hok as (Ht & H0 & H1 & H2 & _).
  exists (Index (group m)), (Index (group m) + Length (group m)).
  eexists. split; [|split].
  - unfold FindStringIndex. rewrite E. reflexivity.
  - apply slice_substring; lia.
  - rewrite bytes_substring. unfold groupText, sliceR. rewrite Ht.
    destruct (rangeFrom_ascii (bytes s) 0 (bytes_ascii s Hs)) as (Hr & _).
    unfold getRunes, rangeString. rewrite Hr. reflexivity.
Qed.

(** X19, at the expression [p([a-z]+)ch] on ["a peach"]. *)
Lemma FindStringIndex_ascii_witness :
  WfRegexp re_peach
  /\ (forall c, In c (list_ascii_of_string "a peach") -> byteZ c < 128)
  /\ exists a b piece,
       FindStringIndex re_peach "a peach" = [a; b]
       /\ slice "a peach" a b = Done piece.
Proof.
  assert (Hwf : WfRegexp re_peach) by apply CompileTree_wf.
  assert (Hs : forall c, In c (list_ascii_of_string "a peach") ->
                 byteZ c < 128).
  { intros c Hc. cbn in Hc.
    repeat (destruct Hc as [<-|Hc]; [reflexivity|]). destruct Hc. }
  split; [exact Hwf|]. split; [exact Hs|].
  destruct (FindStringIndex_ascii re_peach "a peach" _ _ Hwf Hs eq_refl)
    as (a & b & piece & H1 & H2 & _).
  exists a, b, piece. split; assumption.
Defined.

(** X20.  [FindNextMatch] makes progress, in both directions, except
    after an empty match at position 0 of an input that is not empty, right
    to left: the match it returns is placed in the input, its span is not
    the span of the match it was given, and it lies further on: left to
    right it starts after the start and not before the end of the previous
    match, right to left it ends before the end and not after the start of
    the previous match. *)
Theorem FindNextMatch_advances (re : Regexp) (input : list Z)
    (m m' : Match) (e : option error) :
  WfRegexp re -> match_ok re input m ->
  ~ (RightToLeft re = true /\ Length (group m) = 0 /\ Index (group m) = 0
     /\ input <> []) ->
  FindNextMatch re (Some m) = (Some m', e) ->
  e = None /\ match_ok re input m'
  /\ indexPair (group m') <> indexPair (group m)
  /\ (if RightToLeft re
      then Index (group m') + Length (group m') <= Index (group m)
           /\ Index (group m') + Length (group m')
              < Index (group m) + Length (group m)
      else Index (group m) < Index (group m')
           /\ Index (group m) + Length (group m) <= Index (group m')).
Proof.
  intros Hwf Hok Hm E. destruct (RightToLeft re) eqn:Hdir.
  - destruct Hok as (Ht & H0 & H1 & H2 & Hp). rewrite Hdir in Hp.
    revert E. unfold FindNextMatch. rewrite Hdir, Ht.
    assert (Hrun : forall k, k <= Index (group m) ->
      (Length (group m) = 0 -> k < Index (group m)) -> 0 <= k ->
      run re false k input = (Some m', e) ->
      e = None /\ match_ok re input m'
      /\ indexPair (group m') <> indexPair (group m)
      /\ Index (group m') + Length (group m') <= Index (group m)
      /\ Index (group m') + Length (group m')
         < Index (group m) + Length (group m)).
    { intros k Hk Hk' Hk0 Hrun.
      destruct (run_match_ok _ _ _ _ _ _ Hwf Hrun) as (-> & Hok & Hb).
      rewrite Hdir in Hb. specialize (Hb Hk0).
      pose proof Hok as (_ & H0' & H1' & _).
      split; [reflexivity|]. split; [assumption|].
      assert (Hlt : Index (group m') + Length (group m')
                    < Index (group m) + Length (group m)).
      { destruct (Z.eq_dec (Length (group m)) 0) as [Hz|Hz]; [|lia].
        specialize (Hk' Hz). lia. }
      split; [unfold indexPair; intros [= E1 E2]; lia|]. lia. }
    destruct (Length (group m) =? 0) eqn:El.
    + apply Z.eqb_eq in El.
      destruct (textpos m =? lenR input) eqn:Ee; [discriminate|].
      apply Z.eqb_neq in Ee.
      assert (Hpos : 1 <= Index (group m)).
      { destruct (Z.eq_dec (Index (group m)) 0) as [Hz|Hz]; [|lia].
        exfalso. apply Hm. repeat split; try assumption.
        intros ->. apply Ee. rewrite Hp, Hz. reflexivity. }
      rewrite Hp. apply Hrun; lia.
    + apply Z.eqb_neq in El. rewrite Hp. apply Hrun; lia.
  - destruct (FindNextMatch_ltr re Hwf Hdir _ _ _ _ Hok E)
      as (H1 & H2 & H3 & H4).
    split; [assumption|]. split; [assumption|].
    split; [unfold indexPair; intros [= E1 E2]; lia|]. lia.
Qed.

(** X20, at the first two matches of [p([a-z]+)ch] in ["peach punch"]. *)
Lemma FindNextMatch_advances_witness :
  WfRegexp re_peach
  /\ exists m m',
       FindStringMatch re_peach "peach punch" = (Some m, None)
       /\ match_ok re_peach (getRunes "peach punch") m
       /\ FindNextMatch re_peach (Some m) = (Some m', None)
       /\ Index (group m) < Index (group m').
Proof.
  assert (Hwf : WfRegexp re_peach) by apply CompileTree_wf.
  split; [exact Hwf|].
  destruct (FindStringMatch re_peach "peach punch") as [[m|] e] eqn:E1;
    [|vm_compute in E1; discriminate].
  assert (He : e = None) by (vm_compute in E1; congruence). subst e.
  pose proof E1 as E1'. unfold FindStringMatch in E1'.
  destruct (run_match_ok _ _ _ _ _ _ Hwf E1') as (_ & Hok & _).
  destruct (FindNextMatch re_peach (Some m)) as [[m'|] e'] eqn:E2.
  - assert (Hnd : ~ (RightToLeft re_peach = true /\ Length (group m) = 0
                     /\ Index (group m) = 0
                     /\ getRunes "peach punch" <> []))
      by (intros [H _]; discriminate).
    destruct (FindNextMatch_advances re_peach _ m m' e' Hwf Hok Hnd E2)
      as (-> & _ & _ & Hadv).
    change (RightToLeft re_peach) with false in Hadv.
    exists m, m'. split; [reflexivity|]. split; [exact Hok|].
    split; [exact E2|]. exact (proj1 Hadv).
  - exfalso. vm_compute in E1. injection E1 as <-.
    vm_compute in E2. discriminate.
Defined.

(** The chain of successive matches is determined by its first match. *)
Lemma match_chain_functional re om ms :
  match_chain re om ms -> forall ms', match_chain re om ms' -> ms = ms'.
Proof.
  induction 1 as [|m ms Hc IH]; intros ms' H'; inversion H'; subst;
    [reflexivity|].
  f_equal. apply IH. assumption.
Qed.

(** Right to left, away from the empty match at position 0, the chain of
    successive matches is finite and goes down the input. *)
Lemma match_chain_rtl_descending re input :
  WfRegexp re -> RightToLeft re = true ->
  (input <> [] -> forall cs, code re input 0 <> VMMatch 0 cs) ->
  forall (n : nat) m bound,
    match_ok re input m ->
    (Length (group m) = 0 -> Index (group m) = 0 -> input = []) ->
    Index (group m) + Length (group m) <= bound ->
    (Z.to_nat (Index (group m) + Length (group m)) <= n)%nat ->
    exists ms, match_chain re (Some m) ms /\ descending re input bound ms.
Proof.
  intros Hwf Hrtl Hno.
  induction n as [|n IH]; intros m bound Hok Hns Hb Hn.
  - destruct (FindNextMatch re (Some m)) as [[m'|] e] eqn:E.
    + destruct (FindNextMatch_rtl_step re Hwf Hrtl input Hno _ _ _ Hok Hns E)
        as (_ & Hok' & _ & _ & Hlt).
      destruct Hok' as (_ & H0' & H1' & _). lia.
    + exists [m]. split; [constructor; rewrite E; constructor|].
      cbn. tauto.
  - destruct (FindNextMatch re (Some m)) as [[m'|] e] eqn:E.
    + destruct (FindNextMatch_rtl_step re Hwf Hrtl input Hno _ _ _ Hok Hns E)
        as (_ & Hok' & Hns' & Hle & Hlt).
      destruct (IH m' (Index (group m)) Hok' Hns' Hle) as (ms & Hc & Hd);
        [lia|].
      exists (m :: ms). split; [constructor; rewrite E; exact Hc|].
      cbn [descending]. tauto.
    + exists [m]. split; [constructor; rewrite E; constructor|].
      cbn. tauto.
Qed.

(** X21.  For a compiled expression, unless it runs right to left and
    matches the empty string at the beginning of an input that is not
    empty, the All functions list the successive matches up to the first
    nil (all of them when [n < 0], the first [n] otherwise), and these
    matches lie inside the input, one after the other without overlap: in
    text order left to right, in the reverse order right to left. *)
Theorem FindAllStringIndex_successive (re : Regexp) (s : string) (n : Z) :
  WfRegexp re ->
  (RightToLeft re = true -> getRunes s <> [] ->
   forall cs, code re (getRunes s) 0 <> VMMatch 0 cs) ->
  exists ms,
    match_chain re (fst (FindStringMatch re s)) ms
    /\ (if RightToLeft re
        then descending re (getRunes s) (lenR (getRunes s)) ms
        else ordered re (getRunes s) 0 ms)
    /\ FindAllStringIndex re s n
       = map (fun m => indexPair (group m))
             (if n <? 0 then ms else firstn (Z.to_nat n) ms)
    /\ FindAllStringSubmatchIndex re s n
       = map submatchIndex (if n <? 0 then ms else firstn (Z.to_nat n) ms).
Proof.
  intros Hwf Hno. destruct (RightToLeft re) eqn:Hdir.
  - specialize (Hno eq_refl).
    destruct (FindAll_rtl re s n Hwf Hdir Hno) as (ms & Hc & H1 & H2).
    exists ms. split; [exact Hc|]. split; [|split; assumption].
    destruct (FindStringMatch re s) as [[m|] e] eqn:E; cbn [fst] in Hc.
    + unfold FindStringMatch in E.
      destruct (run_match_ok _ _ _ _ _ _ Hwf E) as (_ & Hok & _).
      pose proof Hok as (_ & H0 & H1' & H2' & _).
      destruct (match_chain_rtl_descending re (getRunes s) Hwf Hdir Hno
                  (Z.to_nat (lenR (getRunes s))) m (lenR (getRunes s)) Hok)
        as (ms' & Hc' & Hd); try lia.
      * apply (run_rtl_not_empty_at_0 re (getRunes s) Hno _ _ _ _ E).
      * rewrite (match_chain_functional _ _ _ Hc _ Hc'). exact Hd.
    + inversion Hc. exact I.
  - destruct (FindAll_ltr re Hwf Hdir s n) as (ms & Hc & H1 & H2).
    exists ms. split; [exact Hc|]. split; [|split; assumption].
    destruct (FindStringMatch re s) as [[m|] e] eqn:E; cbn [fst] in Hc.
    + unfold FindStringMatch in E.
      destruct (run_match_ok _ _ _ _ _ _ Hwf E) as (_ & Hok & _).
      pose proof Hok as (_ & H0 & _).
      destruct (match_chain_ltr re Hwf Hdir (getRunes s)
                  (Z.to_nat (lenR (getRunes s))) m 0 Hok H0)
        as (ms' & Hc' & _ & Hord); [lia|].
      rewrite (match_chain_functional _ _ _ Hc _ Hc'). exact Hord.
    + inversion Hc. exact I.
Qed.

(** X21, at the expression [a] right to left on ["aab"]. *)
Lemma FindAllStringIndex_successive_witness :
  WfRegexp re_a_rtl
  /\ (RightToLeft re_a_rtl = true -> getRunes "aab" <> [] ->
      forall cs, code re_a_rtl (getRunes "aab") 0 <> VMMatch 0 cs)
  /\ exists ms,
       match_chain re_a_rtl (fst (FindStringMatch re_a_rtl "aab")) ms
       /\ FindAllStringIndex re_a_rtl "aab" (-1)
          = map (fun m => indexPair (group m)) ms.
Proof.
  assert (Hwf : WfRegexp re_a_rtl) by apply CompileTree_wf.
  assert (Hno : RightToLeft re_a_rtl = true -> getRunes "aab" <> [] ->
                forall cs, code re_a_rtl (getRunes "aab") 0 <> VMMatch 0 cs)
    by (intros _ _ cs; vm_compute; discriminate).
  split; [exact Hwf|]. split; [exact Hno|].
  destruct (FindAllStringIndex_successive re_a_rtl "aab" (-1) Hwf Hno)
    as (ms & Hc & _ & H1 & _).
  exists ms. split; [exact Hc|exact H1].
Defined.

(** ** Replacement through a callback, again *)

Lemma list_ascii_app s1 s2 :
  list_ascii_of_string (s1 +:+ s2)
  = list_ascii_of_string s1 ++ list_ascii_of_string s2.
Proof. induction s1 as [|c s1 IH]; simpl; [reflexivity|now f_equal]. Qed.

Lemma list_ascii_inj s1 s2 :
  list_ascii_of_string s1 = list_ascii_of_string s2 -> s1 = s2.
Proof.
  intros H. rewrite <- (string_of_list_ascii_of_string s1),
    <- (string_of_list_ascii_of_string s2). now rewrite H.
Qed.

(** Two adjacent pieces of a string make one. *)
Lemma substring_app s (a b c : nat) :
  substring a b s +:+ substring (a + b) c s = substring a (b + c) s.
Proof.
  apply list_ascii_inj.
  rewrite list_ascii_app, !list_ascii_substring.
  rewrite Nat.add_comm, <- skipn_skipn. apply firstn_add.
Qed.

Lemma substring_all s : substring 0 (String.length s) s = s.
Proof.
  apply list_ascii_inj. rewrite list_ascii_substring. cbn [skipn].
  apply firstn_all2. pose proof (length_bytes s) as H.
  unfold bytes in H. rewrite length_map in H. lia.
Qed.

(** The text of [src] up to [j], from the text up to [i] and the piece
    from [i] to [j]. *)
Lemma prefix_app src i j :
  0 <= i <= j ->
  substring 0 (Z.to_nat i) src
    +:+ substring (Z.to_nat i) (Z.to_nat (j - i)) src
  = substring 0 (Z.to_nat j) src.
Proof.
  intros H. rewrite <- (Nat.add_0_l (Z.to_nat i)) at 2.
  rewrite substring_app. f_equal. lia.
Qed.

(** X22.  When the expression has no match in [src], [ReplaceAllFunc]
    returns [src] unchanged and does not call [repl], whatever the
    expression. *)
Theorem ReplaceAllFunc_no_match (re : Regexp) (src : string)
    (repl : string -> string) (fuel : nat) :
  fst (FindStringMatch re src) = None ->
  ReplaceAllFunc fuel re src repl = Done src.
Proof.
  intros H. unfold ReplaceAllFunc, replaceAll. rewrite H.
  rewrite replaceAll_loop_None. cbn [lastMatchEnd buf].
  rewrite slice_substring by (unfold len; lia). cbn [bind]. f_equal.
  replace (Z.to_nat (len src - 0)) with (String.length src)
    by (unfold len; lia).
  apply substring_all.
Qed.

(** X22, at an expression that matches nothing. *)
Lemma ReplaceAllFunc_no_match_witness :
  fst (FindStringMatch re_never "abc") = None
  /\ ReplaceAllFunc 0 re_never "abc" (fun _ => "x") = Done "abc".
Proof.
  assert (H : fst (FindStringMatch re_never "abc") = None) by reflexivity.
  split; [exact H|].
  apply (ReplaceAllFunc_no_match re_never "abc" (fun _ => "x") 0 H).
Defined.

(** Left to right, with the callback that returns the matched text, the
    buffer holds the text of [src] up to the end of the last match. *)
Lemma replaceAll_loop_ltr_id re src :
  WfRegexp re -> RightToLeft re = false ->
  forall (fuel : nat) m st,
    match_ok re (getRunes src) m ->
    (Z.to_nat (lenR (getRunes src) - Index (group m)) < fuel)%nat ->
    0 <= lastMatchEnd st <= Index (group m) ->
    0 <= searchPos st <= len src ->
    (lenR (getRunes src) = len src -> searchPos st <= Index (group m)) ->
    buf st = substring 0 (Z.to_nat (lastMatchEnd st)) src ->
    replaceAll_loop fuel re src
      (fun dst m =>
         let* piece := slice src (nth 0 m 0) (nth 1 m 0) in
         Done (dst +:+ piece))
      (Some m) st = Done src.
Proof.
  intros Hwf Hltr. pose proof (getRunes_length src) as Hlen.
  induction fuel as [|f IH]; intros m st Hok Hf Hlme Hsp Hall Hbuf; [lia|].
  pose proof Hok as (_ & H0 & H1 & H2 & _).
  cbn [replaceAll_loop]. unfold replaceAll_body. cbn [nth].
  rewrite (slice_substring src (lastMatchEnd st) (Index (group m))) by lia.
  cbn [bind].
  rewrite Hbuf, prefix_app by lia.
  assert (Hb2 :
    (if (lastMatchEnd st <? Index (group m) + Length (group m))
        || (Index (group m) =? 0)
     then
       let* piece := slice src (Index (group m))
                       (Index (group m) + Length (group m)) in
       Done (substring 0 (Z.to_nat (Index (group m))) src +:+ piece)
     else Done (substring 0 (Z.to_nat (Index (group m))) src))
    = Done (substring 0
              (Z.to_nat (Index (group m) + Length (group m))) src)).
  { destruct (_ || _) eqn:G.
    - rewrite slice_substring by lia. cbn [bind].
      rewrite prefix_app by lia. reflexivity.
    - apply orb_false_iff in G. destruct G as [G _]. apply Z.ltb_ge in G.
      do 2 f_equal. lia. }
  rewrite Hb2. cbn [bind].
  destruct (slice_rest src (searchPos st) Hsp) as (rest & Hrest & Hbytes).
  rewrite Hrest. cbn [bind].
  destruct (width_at src (searchPos st) rest Hsp Hbytes) as (Hw & Hw1 & Hw2).
  set (w := snd (DecodeRuneInString rest)) in *.
  destruct (FindNextMatch re (Some m)) as [[m'|] e] eqn:E; cbn [fst].
  - destruct (FindNextMatch_ltr re Hwf Hltr _ _ _ _ Hok E)
      as (_ & Hok' & Hadv & Hend).
    pose proof Hok' as (_ & H0' & H1' & H2' & _).
    apply IH; cbn [lastMatchEnd searchPos buf]; try assumption; try lia;
      try reflexivity.
    + destruct (Index (group m) + Length (group m) <? searchPos st + w) eqn:B1;
        [apply Z.ltb_lt in B1; lia|apply Z.ltb_ge in B1].
      destruct (Index (group m) + Length (group m) <? searchPos st + 1) eqn:B2;
        [apply Z.ltb_lt in B2|apply Z.ltb_ge in B2; lia].
      assert (searchPos st = len src) by lia. lia.
    + intros Hfull. specialize (Hall Hfull). specialize (Hw2 Hfull).
      destruct (Index (group m) + Length (group m) <? searchPos st + w) eqn:B1;
        [apply Z.ltb_lt in B1; lia|apply Z.ltb_ge in B1].
      destruct (Index (group m) + Length (group m) <? searchPos st + 1) eqn:B2;
        [apply Z.ltb_lt in B2|apply Z.ltb_ge in B2; lia].
      lia.
  - rewrite replaceAll_loop_None. cbn [lastMatchEnd buf].
    rewrite slice_substring by lia. cbn [bind].
    rewrite prefix_app by lia. f_equal.
    replace (Z.to_nat (len src)) with (String.length src) by (unfold len; lia).
    apply substring_all.
Qed.

(** X23.  For a compiled expression that runs left to right,
    [ReplaceAllFunc] returns, whatever the callback: its loop ends within
    one iteration per byte of [src] and one more, and no slice expression
    is out of range.  With the callback that returns the piece it is given,
    the result is [src]. *)
Theorem ReplaceAllFunc_ltr (re : Regexp) (src : string) (fuel : nat) :
  WfRegexp re -> RightToLeft re = false ->
  (Z.to_nat (len src) < fuel)%nat ->
  (forall repl, exists out, ReplaceAllFunc fuel re src repl = Done out)
  /\ ReplaceAllFunc fuel re src (fun piece => piece) = Done src.
Proof.
  intros Hwf Hltr Hf. split.
  { intros repl. apply ReplaceAllFunc_ltr_returns; assumption. }
  unfold ReplaceAllFunc, replaceAll.
  pose proof (getRunes_length src) as Hlen.
  destruct (FindStringMatch re src) as [[m|] e] eqn:E; cbn [fst].
  - unfold FindStringMatch in E.
    destruct (run_match_ok _ _ _ _ _ _ Hwf E) as (_ & Hok & _).
    pose proof Hok as (_ & H0 & H1 & H2 & _).
    apply replaceAll_loop_ltr_id; auto; cbn [lastMatchEnd searchPos buf];
      try lia.
    destruct src; reflexivity.
  - rewrite replaceAll_loop_None. cbn [lastMatchEnd buf].
    rewrite slice_substring by (unfold len; lia). cbn [bind]. f_equal.
    replace (Z.to_nat (len src - 0)) with (String.length src)
      by (unfold len; lia).
    apply substring_all.
Qed.

(** X23, at the expression [a*] on ["baaac"]. *)
Lemma ReplaceAllFunc_ltr_witness :
  WfRegexp re_astar /\ RightToLeft re_astar = false
  /\ (Z.to_nat (len "baaac") < 6)%nat
  /\ ReplaceAllFunc 6 re_astar "baaac" (fun piece => piece) = Done "baaac".
Proof.
  assert (Hwf : WfRegexp re_astar) by apply CompileTree_wf.
  assert (Hf : (Z.to_nat (len "baaac") < 6)%nat) by (vm_compute; lia).
  split; [exact Hwf|]. split; [reflexivity|]. split; [exact Hf|].
  apply (ReplaceAllFunc_ltr re_astar "baaac" 6 Hwf eq_refl Hf).
Defined.

(** X24.  For a compiled expression that runs right to left,
    [ReplaceAllFunc] panics as soon as the input has a second match: the
    matches come from right to left, and the slice expression
    [src[lastMatchEnd:a[0]]] that copies the text before the second match
    is out of range, its end lying before its beginning. *)
Theorem ReplaceAllFunc_rtl_panics (re : Regexp) (src : string)
    (repl : string -> string) (fuel : nat) (m m' : Match)
    (e e' : option error) :
  WfRegexp re -> RightToLeft re = true ->
  FindStringMatch re src = (Some m, e) ->
  FindNextMatch re (Some m) = (Some m', e') ->
  0 < Index (group m) + Length (group m) ->
  (2 <= fuel)%nat ->
  ReplaceAllFunc fuel re src repl = Panic.
Proof.
  intros Hwf Hrtl E1 E2 Hpos Hf.
  pose proof (getRunes_length src) as Hlen.
  unfold FindStringMatch in E1.
  destruct (run_match_ok _ _ _ _ _ _ Hwf E1) as (_ & Hok & _).
  pose proof Hok as (Ht & H0 & H1 & H2 & Hp). rewrite Hrtl in Hp.
  assert (Hm' : match_ok re (getRunes src) m'
                /\ Index (group m') + Length (group m')
                   < Index (group m) + Length (group m)).
  { revert E2. unfold FindNextMatch. rewrite Hrtl, Ht.
    destruct (Length (group m) =? 0) eqn:El.
    - apply Z.eqb_eq in El.
      destruct (textpos m =? lenR (getRunes src)); [discriminate|].
      intros Hrun.
      destruct (run_match_ok _ _ _ _ _ _ Hwf Hrun) as (_ & Hok' & Hk).
      rewrite Hrtl in Hk. split; [assumption|]. lia.
    - apply Z.eqb_neq in El. intros Hrun.
      destruct (run_match_ok _ _ _ _ _ _ Hwf Hrun) as (_ & Hok' & Hk).
      rewrite Hrtl in Hk. split; [assumption|]. lia. }
  destruct Hm' as (Hok' & Hlt). pose proof Hok' as (_ & H0' & H1' & _).
  unfold ReplaceAllFunc, replaceAll. unfold FindStringMatch. rewrite E1.
  cbn [fst]. destruct fuel as [|[|f]]; try lia.
  set (cb := fun (dst : string) (a : list Z) =>
               let* piece := slice src (nth 0 a 0) (nth 1 a 0) in
               Done (dst +:+ repl piece)).
  assert (Hb1 : exists st1,
    replaceAll_body src cb m {| lastMatchEnd := 0; searchPos := 0; buf := "" |}
    = Done st1
    /\ lastMatchEnd st1 = Index (group m) + Length (group m)).
  { unfold replaceAll_body, cb. cbn [nth lastMatchEnd searchPos buf].
    rewrite (slice_substring src 0 (Index (group m))) by lia. cbn [bind].
    replace ((0 <? Index (group m) + Length (group m))
             || (Index (group m) =? 0)) with true
      by (symmetry; apply orb_true_iff; left; apply Z.ltb_lt; lia).
    rewrite (slice_substring src (Index (group m))) by lia. cbn [bind].
    rewrite (slice_substring src 0 (len src)) by (unfold len; lia).
    cbn [bind]. eexists. split; reflexivity. }
  destruct Hb1 as (st1 & Hb1 & Hl1).
  cbn [replaceAll_loop]. rewrite Hb1, E2. cbn [bind fst].
  unfold replaceAll_body. cbn [nth]. rewrite Hl1.
  unfold slice at 1.
  replace ((0 <=? Index (group m) + Length (group m))
           && (Index (group m) + Length (group m) <=? Index (group m'))
           && (Index (group m') <=? len src)) with false; [reflexivity|].
  symmetry. apply andb_false_iff. left. apply andb_false_iff. right.
  apply Z.leb_gt. lia.
Qed.

(** X24, at the expression [a] right to left on ["aa"]. *)
Lemma ReplaceAllFunc_rtl_panics_witness :
  WfRegexp re_a_rtl /\ RightToLeft re_a_rtl = true
  /\ ReplaceAllFunc 2 re_a_rtl "aa" (fun _ => "b") = Panic.
Proof.
  assert (Hwf : WfRegexp re_a_rtl) by apply CompileTree_wf.
  split; [exact Hwf|]. split; [reflexivity|].
  eapply (ReplaceAllFunc_rtl_panics re_a_rtl "aa" _ 2 _ _ _ _ Hwf eq_refl).
  - reflexivity.
  - reflexivity.
  - vm_compute. reflexivity.
  - lia.
Defined.

(** ** QuoteMeta, whatever the bitmap holds *)

Lemma special_high tbl c : 128 <= byteZ c -> special tbl c = false.
Proof.
  intros H. unfold special, RuneSelf. ztest (byteZ c <? 128) false.
  reflexivity.
Qed.

Lemma quoteFrom_length tbl s :
  (String.length s <= String.length (quoteFrom tbl s)
   <= 2 * String.length s)%nat.
Proof.
  induction s as [|c s IH]; cbn [quoteFrom String.length]; [lia|].
  destruct (special tbl c); cbn [String.length]; lia.
Qed.

Lemma firstSpecial_le tbl s : (firstSpecial tbl s <= String.length s)%nat.
Proof.
  induction s as [|c s IH]; cbn [firstSpecial String.length]; [lia|].
  destruct (special tbl c); lia.
Qed.

Lemma substring_length s : forall n m,
  (n + m <= String.length s)%nat -> String.length (substring n m s) = m.
Proof.
  induction s as [|c s IH]; intros [|n] [|m] H; cbn in *; try lia;
    try reflexivity.
  - rewrite IH; lia.
  - apply IH. lia.
  - apply IH. lia.
Qed.

Lemma string_app_length s1 s2 :
  String.length (s1 +:+ s2) = (String.length s1 + String.length s2)%nat.
Proof. induction s1 as [|c s1 IH]; simpl; [reflexivity|now f_equal]. Qed.

Lemma firstSpecial_none tbl s :
  (forall c, In c (list_ascii_of_string s) -> special tbl c = false) ->
  firstSpecial tbl s = String.length s.
Proof.
  induction s as [|c s IH]; intros H; cbn [firstSpecial String.length];
    [reflexivity|].
  rewrite (H c) by (left; reflexivity). f_equal. apply IH.
  intros c' Hc'. apply H. right. assumption.
Qed.

(** X25.  Whatever the bitmap [specialBytes] holds, the result of
    [QuoteMeta] has between [len(s)] and [2*len(s) - i] bytes, [i] being
    the index of the first special byte, so that the writes [b[j] = ...]
    stay inside the buffer [make([]byte, 2*len(s)-i)]; and a string of
    bytes above 0x7F, the bytes of the scalars of more than one byte, is
    returned unchanged. *)
Theorem QuoteMeta_any_bitmap (tbl : list Z) (s : string) :
  (String.length s <= String.length (QuoteMeta tbl s)
   <= 2 * String.length s - firstSpecial tbl s)%nat
  /\ ((forall c, In c (list_ascii_of_string s) -> 128 <= byteZ c) ->
      QuoteMeta tbl s = s).
Proof.
  pose proof (firstSpecial_le tbl s) as Hi. split.
  - unfold QuoteMeta. cbn zeta.
    destruct (Nat.leb_spec (String.length s) (firstSpecial tbl s)) as [L|L];
      [lia|].
    rewrite string_app_length, substring_length by lia.
    pose proof (quoteFrom_length tbl
      (substring (firstSpecial tbl s) (String.length s - firstSpecial tbl s) s))
      as Hq.
    rewrite substring_length in Hq by lia. lia.
  - intros H. unfold QuoteMeta. cbn zeta.
    rewrite firstSpecial_none, Nat.leb_refl; [reflexivity|].
    intros c Hc. apply special_high, H, Hc.
Qed.
